(** * types-publisher: [src/lib/module-info.ts]

    A shallow embedding of the module-information pass of types-publisher
    and the properties of it that the specification states.

    Strings are [string] (sequences of bytes).  The source slices strings only
    at positions found by searching for the ASCII characters [/], [.], [@]
    and the backslash, so the byte-level and the UTF-16 views of a string
    give the same pieces. *)

From Stdlib Require Import Ascii String List Bool Arith Lia.
From stdpp Require Import base option list gmap sets strings sorting.

Set Warnings "-clear-no-such-hyp".

Local Open Scope string_scope.
Local Open Scope list_scope.
Local Open Scope stdpp_scope.

(** ** JavaScript string primitives used by the source *)

Module JS.

Definition slash : ascii := "/"%char.
Definition dot : ascii := "."%char.
Definition backslash : ascii := "092"%char.

Definition chars (s : string) : list ascii := list_ascii_of_string s.
Definition str (cs : list ascii) : string := string_of_list_ascii cs.

(** [s.startsWith(p)] *)
Definition startsWith (s p : string) : bool := String.prefix p s.

(** [s.endsWith(p)] *)
Definition endsWith (s p : string) : bool :=
  (String.length p <=? String.length s)%nat
  && String.eqb (String.substring (String.length s - String.length p) (String.length p) s) p.

(** [s.slice(0, n)] for [0 <= n] *)
Definition slice0 (s : string) (n : nat) : string := String.substring 0 n s.

(** [s.indexOf(c, from)]; [None] stands for [-1] *)
Fixpoint indexOfFrom (c : ascii) (cs : list ascii) (pos from : nat) : option nat :=
  match cs with
  | [] => None
  | x :: cs' =>
      if (from <=? pos)%nat && Ascii.eqb x c then Some pos
      else indexOfFrom c cs' (S pos) from
  end.

Definition indexOf (s : string) (c : ascii) (from : nat) : option nat :=
  indexOfFrom c (chars s) 0 from.

(** [s.includes(c)] *)
Definition includes (s : string) (c : ascii) : bool :=
  existsb (Ascii.eqb c) (chars s).

(** [s.replace(/c/g, d)] *)
Definition replaceAll (s : string) (c d : ascii) : string :=
  str (map (fun x => if Ascii.eqb x c then d else x) (chars s)).

End JS.

(** ** Node's [path] module (POSIX flavour) *)

Module path.
Import JS.

Definition isSlash (c : ascii) : bool := Ascii.eqb c slash.

(** The segments between slashes, left to right. *)
Fixpoint segments (cs cur : list ascii) : list (list ascii) :=
  match cs with
  | [] => [rev cur]
  | c :: cs' => if isSlash c then rev cur :: segments cs' [] else segments cs' (c :: cur)
  end.

Definition dots1 : list ascii := [dot].
Definition dots2 : list ascii := [dot; dot].

Definition isSeg (a b : list ascii) : bool := bool_decide (a = b).

(** [normalizeString]: the loop keeps the segments seen so far; an empty
    segment or [.] is dropped, [..] removes the last kept segment unless
    there is none or it is [..] itself, in which case [..] is kept when
    [allowAboveRoot].  [acc] holds the kept segments, last one first. *)
Fixpoint normalizeSegments (allowAboveRoot : bool) (segs acc : list (list ascii))
  : list (list ascii) :=
  match segs with
  | [] => rev acc
  | seg :: segs' =>
      if isSeg seg [] || isSeg seg dots1 then normalizeSegments allowAboveRoot segs' acc
      else if isSeg seg dots2 then
        match acc with
        | last :: acc' =>
            if isSeg last dots2
            then normalizeSegments allowAboveRoot segs'
                   (if allowAboveRoot then dots2 :: acc else acc)
            else normalizeSegments allowAboveRoot segs' acc'
        | [] =>
            normalizeSegments allowAboveRoot segs'
              (if allowAboveRoot then [dots2] else [])
        end
      else normalizeSegments allowAboveRoot segs' (seg :: acc)
  end.

Fixpoint joinSegments (segs : list (list ascii)) : list ascii :=
  match segs with
  | [] => []
  | [seg] => seg
  | seg :: segs' => seg ++ slash :: joinSegments segs'
  end.

Definition normalizeString (cs : list ascii) (allowAboveRoot : bool) : list ascii :=
  joinSegments (normalizeSegments allowAboveRoot (segments cs []) []).

Definition lastIsSlash (cs : list ascii) : bool :=
  match rev cs with c :: _ => isSlash c | [] => false end.

(** [path.normalize] *)
Definition normalize (p : string) : string :=
  match chars p with
  | [] => "."
  | c0 :: _ =>
      let isAbsolute := isSlash c0 in
      let trailingSeparator := lastIsSlash (chars p) in
      let res := normalizeString (chars p) (negb isAbsolute) in
      let res := match res with [] => if isAbsolute then [] else [dot] | _ => res end in
      let res := match res with [] => [] | _ => if trailingSeparator then res ++ [slash] else res end in
      str (if isAbsolute then slash :: res else res)
  end.

(** The backward loop of [path.dirname] over the characters at the
    positions [length - 1] down to [1]: the result is the characters that
    stay to the left of the slash the loop stops at, in reverse. *)
Fixpoint dirnameScan (r : list ascii) (matchedSlash : bool) : option (list ascii) :=
  match r with
  | [] => None
  | c :: r' =>
      if isSlash c then (if matchedSlash then dirnameScan r' true else Some r')
      else dirnameScan r' false
  end.

(** [path.dirname] *)
Definition dirname (p : string) : string :=
  match chars p with
  | [] => "."
  | c0 :: rest =>
      let hasRoot := isSlash c0 in
      match dirnameScan (rev rest) true with
      | None => if hasRoot then "/" else "."
      | Some [] => if hasRoot then "//" else str [c0]
      | Some kept => str (c0 :: rev kept)
      end
  end.

Fixpoint dropSlashes (r : list ascii) : list ascii :=
  match r with
  | c :: r' => if isSlash c then dropSlashes r' else r
  | [] => []
  end.

Fixpoint takeSegment (r : list ascii) : list ascii :=
  match r with
  | c :: r' => if isSlash c then [] else c :: takeSegment r'
  | [] => []
  end.

(** [path.basename] with one argument *)
Definition basename (p : string) : string :=
  str (rev (takeSegment (dropSlashes (rev (chars p))))).

(** [path.join] with two arguments *)
Definition join (a b : string) : string :=
  match chars a, chars b with
  | [], [] => "."
  | [], _ => normalize b
  | _, [] => normalize a
  | _, _ => normalize (a +:+ "/" +:+ b)
  end.

End path.


(** ** The syntax tree handed over by the TypeScript parser

    Only what [module-info.ts] inspects is kept: the kind of every statement,
    the names and module specifiers it reads, and the nesting of ambient
    module declarations. *)

Inductive Expression :=
| StringLiteralExpression (text : string)
| OtherExpression.

(** [moduleReference] of an [import x = ...] declaration *)
Inductive ModuleReference :=
| ExternalModuleReference (expression : option Expression)
| EntityName.

(** [name] of a module declaration: [name.kind] and [name.text] *)
Inductive ModuleName :=
| Identifier (text : string)
| StringLiteral (text : string).

Definition nameText (n : ModuleName) : string :=
  match n with Identifier t | StringLiteral t => t end.

(** [name] of a variable declaration *)
Inductive BindingName :=
| BindingIdentifier (text : string)
| BindingPattern.

Inductive Statement :=
| ImportDeclaration (moduleSpecifier : Expression)
| ExportDeclaration (moduleSpecifier : option Expression)
| ImportEqualsDeclaration (moduleReference : ModuleReference)
| ModuleDeclaration (decl : ModuleDecl)
| VariableStatement (declarations : list BindingName)
| EnumDeclaration (name : string)
| ClassDeclaration (name : option string)
| FunctionDeclaration (name : option string)
| InterfaceDeclaration (name : string)
| TypeAliasDeclaration (name : string)
| NamespaceExportDeclaration (name : string)
| ExportAssignment
| OtherStatement (kindName : string)
(** a [ts.ModuleDeclaration] node: its name and its optional body *)
with ModuleDecl :=
| MkModuleDecl (name : ModuleName) (body : option ModuleBody)
(** [body.kind] is [ModuleBlock] or, for [namespace a.b], [ModuleDeclaration] *)
with ModuleBody :=
| ModuleBlock (statements : list Statement)
| NestedModule (decl : ModuleDecl).

Definition declName (d : ModuleDecl) : ModuleName :=
  match d with MkModuleDecl n _ => n end.
Definition declBody (d : ModuleDecl) : option ModuleBody :=
  match d with MkModuleDecl _ b => b end.

(** [ts.SyntaxKind[statement.kind]] *)
Definition kindName (s : Statement) : string :=
  match s with
  | ImportDeclaration _ => "ImportDeclaration"
  | ExportDeclaration _ => "ExportDeclaration"
  | ImportEqualsDeclaration _ => "ImportEqualsDeclaration"
  | ModuleDeclaration _ => "ModuleDeclaration"
  | VariableStatement _ => "VariableStatement"
  | EnumDeclaration _ => "EnumDeclaration"
  | ClassDeclaration _ => "ClassDeclaration"
  | FunctionDeclaration _ => "FunctionDeclaration"
  | InterfaceDeclaration _ => "InterfaceDeclaration"
  | TypeAliasDeclaration _ => "TypeAliasDeclaration"
  | NamespaceExportDeclaration _ => "NamespaceExportDeclaration"
  | ExportAssignment => "ExportAssignment"
  | OtherStatement k => k
  end.

(** What the parser makes of the text of one file. *)
Record FileContent := {
  contentReferencedFiles : list string;
  contentTypeReferenceDirectives : list string;
  contentStatements : list Statement;
  contentExternalModuleIndicator : bool
}.

(** [ts.SourceFile] *)
Record SourceFile := {
  fileName : string;
  referencedFiles_ : list string;
  typeReferenceDirectives : list string;
  statements : list Statement;
  externalModuleIndicator : bool
}.

(** [createSourceFile(filename, content)].  The parser keeps the name it is
    given in [fileName]; [ts.createSourceFile] stores it in a normalized
    spelling (a leading [./] is dropped), which is left out here.  The
    statements below therefore name [fileName src] wherever the code reads
    [src.fileName], and none takes it to be the name the file was read
    under. *)
Definition createSourceFile (filename : string) (content : FileContent) : SourceFile :=
  {| fileName := filename;
     referencedFiles_ := contentReferencedFiles content;
     typeReferenceDirectives := contentTypeReferenceDirectives content;
     statements := contentStatements content;
     externalModuleIndicator := contentExternalModuleIndicator content |}.

(** [ts.isExternalModule] *)
Definition isExternalModule (src : SourceFile) : bool := externalModuleIndicator src.

(** ** Exceptions, results and generators *)

(** One constructor for each [throw] the code can reach, with the values its
    message is built from. *)
Inductive Error :=
| ReadFailure (directory filename : string)
| ParentReference (directory fileName text : string)
| WindowsSlashes (packageName fileName : string)
| ShorthandAmbientModule
| UnknownAmbientStatement (kindName : string)
| AssertionError
| TypeError
| TestPathReference (filePath ref : string)
| TestRedundantReference (filePath referencedPackage : string)
| TestSelfReference (filePath : string).

Inductive Result (A : Type) :=
| Ok (a : A)
| Throw (e : Error).
Arguments Ok {A} a.
Arguments Throw {A} e.

Global Instance Result_bind : MBind Result := fun A B k r =>
  match r with Ok a => k a | Throw e => Throw e end.

Definition isOk {A} (r : Result A) : bool :=
  match r with Ok _ => true | Throw _ => false end.

(** A generator that ends: the values it yields, in order, until it returns
    or throws. *)
Inductive Gen (A : Type) :=
| GDone
| GYield (a : A) (rest : Gen A)
| GThrow (e : Error).
Arguments GDone {A}.
Arguments GYield {A} a rest.
Arguments GThrow {A} e.

(** running one generator after another *)
Fixpoint gseq {A} (g1 g2 : Gen A) : Gen A :=
  match g1 with
  | GDone => g2
  | GYield a rest => GYield a (gseq rest g2)
  | GThrow e => GThrow e
  end.

Fixpoint yieldAll {A} (l : list A) : Gen A :=
  match l with
  | [] => GDone
  | a :: l' => GYield a (yieldAll l')
  end.

(** the values yielded before the generator stops *)
Fixpoint yielded {A} (g : Gen A) : list A :=
  match g with
  | GYield a rest => a :: yielded rest
  | _ => []
  end.

(** [Array.from(g)] *)
Fixpoint arrayFrom {A} (g : Gen A) : Result (list A) :=
  match g with
  | GDone => Ok []
  | GYield a rest => l ← arrayFrom rest; Ok (a :: l)
  | GThrow e => Throw e
  end.

(** [for (const x of g) { s = body(x, s) }] where the body may throw *)
Fixpoint forOf {A S} (g : Gen A) (body : A -> S -> Result S) (s : S) : Result S :=
  match g with
  | GDone => Ok s
  | GYield a rest => s' ← body a s; forOf rest body s'
  | GThrow e => Throw e
  end.

(** the same over an array *)
Fixpoint forEach {A S} (l : list A) (body : A -> S -> Result S) (s : S) : Result S :=
  match l with
  | [] => Ok s
  | a :: l' => s' ← body a s; forEach l' body s'
  end.

(** ** [util/util] *)

(** Modelled from the spec: [joinPaths] of [util/util] is not part of the
    sources at hand.  The spec reads the fallback [joinPaths(text, "index.d.ts")]
    as [<text-without-trailing-slash>/index.d.ts], and the source compares
    [joinPaths(".", "index.d.ts")] with ["./index.d.ts"]: the arguments are
    joined with a forward slash and nothing else is done. *)
Definition joinPaths (a b : string) : string := a +:+ "/" +:+ b.

(** Modelled from the spec: [normalizeSlashes] of [util/util] brings a path to
    the canonical forward-slash form: every backslash becomes a slash. *)
Definition normalizeSlashes (p : string) : string :=
  JS.replaceAll p JS.backslash JS.slash.

(** Modelled from the spec: [hasWindowsSlashes] of [util/util] tells whether a
    name contains a backslash path separator. *)
Definition hasWindowsSlashes (p : string) : bool := JS.includes p JS.backslash.

(** Modelled from the spec: [sort] of [util/util] gives the values as a sorted
    array (the stable, sorted presentation at the boundary). *)
Definition sort (l : list string) : list string := merge_sort String.le l.

(** ** Pure helpers of [module-info.ts] *)

Definition assertNoWindowsSlashes (packageName fileName : string) : Result string :=
  if hasWindowsSlashes fileName then Throw (WindowsSlashes packageName fileName)
  else Ok fileName.

Definition withoutExtension (s ext : string) : Result string :=
  if JS.endsWith s ext then Ok (JS.slice0 s (String.length s - String.length ext))
  else Throw AssertionError.

Definition properModuleName (folderName fileName : string) : Result string :=
  part ← (if String.eqb (path.basename fileName) "index.d.ts"
          then Ok (path.dirname fileName)
          else withoutExtension fileName ".d.ts");
  Ok (if String.eqb part "." then folderName else joinPaths folderName part).

Definition rootName (importText : string) : string :=
  let slash := JS.indexOf importText JS.slash 0 in
  let slash :=
    if JS.startsWith importText "@"
    then JS.indexOf importText JS.slash
           (match slash with None => 0 | Some i => i + 1 end)
    else slash in
  match slash with
  | None => importText
  | Some i => JS.slice0 importText i
  end.

Definition sourceFileExportsSomething (src : SourceFile) : bool :=
  existsb (fun statement =>
    match statement with
    | ImportEqualsDeclaration _ | ImportDeclaration _ => false
    | ModuleDeclaration decl =>
        match declName decl with Identifier _ => true | StringLiteral _ => false end
    | _ => true
    end) (statements src).

(** [parseRequire].  The message of its error is built with
    [reference.getText()], which looks for the source file along the parent
    pointers of the node; [createSourceFile] makes the tree without them
    ([setParentNodes] is [false]), so building the message is a [TypeError]
    and the error itself is never made. *)
Definition parseRequire (expression : option Expression) : Result string :=
  match expression with
  | Some (StringLiteralExpression text) => Ok text
  | _ => Throw TypeError
  end.

(** [imports]: the generator over the statements of a source file or of a
    module block.  Reading [statements] off a body that is absent, or that is
    not a block, is a [TypeError]. *)
Fixpoint importsOfStatement (node : Statement) : Gen string :=
  match node with
  | ImportDeclaration (StringLiteralExpression text)
  | ExportDeclaration (Some (StringLiteralExpression text)) => GYield text GDone
  | ImportEqualsDeclaration (ExternalModuleReference expression) =>
      match parseRequire expression with
      | Ok text => GYield text GDone
      | Throw e => GThrow e
      end
  | ModuleDeclaration (MkModuleDecl (StringLiteral _) body) =>
      match body with
      | Some (ModuleBlock statements) =>
          (fix imports (l : list Statement) : Gen string :=
             match l with
             | [] => GDone
             | node' :: l' => gseq (importsOfStatement node') (imports l')
             end) statements
      | _ => GThrow TypeError
      end
  | _ => GDone
  end.

Fixpoint imports (statements : list Statement) : Gen string :=
  match statements with
  | [] => GDone
  | node :: l => gseq (importsOfStatement node) (imports l)
  end.

(** [statements.some(f)] for an [f] that may throw: the first statement for
    which [f] gives [true] ends the search. *)
Fixpoint some {A} (f : A -> Result bool) (l : list A) : Result bool :=
  match l with
  | [] => Ok false
  | a :: l' => f a ≫= λ b : bool, if b then Ok true else some f l'
  end.

Fixpoint statementDeclaresValue (statement : Statement) : Result bool :=
  match statement with
  | VariableStatement _ | ClassDeclaration _ | FunctionDeclaration _ | EnumDeclaration _ =>
      Ok true
  | ModuleDeclaration decl => isValueNamespace decl
  | InterfaceDeclaration _ | TypeAliasDeclaration _ | ImportEqualsDeclaration _ =>
      Ok false
  | _ => Throw (UnknownAmbientStatement (kindName statement))
  end
with isValueNamespace (ns : ModuleDecl) : Result bool :=
  match ns with
  | MkModuleDecl _ None => Throw ShorthandAmbientModule
  | MkModuleDecl _ (Some (NestedModule decl)) => isValueNamespace decl
  | MkModuleDecl _ (Some (ModuleBlock statements)) =>
      (fix some_ (l : list Statement) : Result bool :=
         match l with
         | [] => Ok false
         | a :: l' => statementDeclaresValue a ≫= λ b : bool, if b then Ok true else some_ l'
         end) statements
  end.

(** ** Reading declaration files *)

(** The files below [directory], keyed by their path relative to it, each
    with what the parser makes of its text.  A file that cannot be read, or
    that starts with a byte-order mark, is not in the map. *)
Abbreviation Disk := (gmap string FileContent).

(** Modelled from the spec: [readFileAndThrowOnBOM] of [definition-parser] is
    the injected capability [readDeclarationFile(directory, relativePath)],
    which gives the text of the file or fails. *)
Definition readFileAndThrowOnBOM (disk : Disk) (directory filename : string)
  : Result FileContent :=
  match disk !! filename with
  | Some content => Ok content
  | None => Throw (ReadFailure directory filename)
  end.

(** A computation that writes lines to [console.error] on its way: the lines
    written and the result. *)
Definition Logged (A : Type) : Type := list string * Result A.

Definition cantBeRead (directory referencedFrom referenceText : string) : string :=
  "In " +:+ directory +:+ ", " +:+ referencedFrom +:+ " references "
    +:+ referenceText +:+ ", which can't be read.".

Definition readFileAndReportErrors (disk : Disk)
    (referencedFrom directory referenceText filename : string) : Logged FileContent :=
  match readFileAndThrowOnBOM disk directory filename with
  | Ok content => ([], Ok content)
  | Throw err => ([cantBeRead directory referencedFrom referenceText], Throw err)
  end.

Definition resolveModule (disk : Disk) (referencedFrom directory filename : string)
  : Logged (string * FileContent) :=
  let dts := filename +:+ ".d.ts" in
  match readFileAndThrowOnBOM disk directory dts with
  | Ok content => ([], Ok (dts, content))
  | Throw _ =>
      let index :=
        joinPaths (if JS.endsWith filename "/"
                   then JS.slice0 filename (String.length filename - 1)
                   else filename) "index.d.ts" in
      let resolvedFilename := if String.eqb index "./index.d.ts" then "index.d.ts" else index in
      let '(lines, r) := readFileAndReportErrors disk referencedFrom directory filename index in
      (lines, content ← r; Ok (resolvedFilename, content))
  end.

(** ** References between files *)

Record Reference := { exact : bool; text : string }.

Global Instance Reference_eq_dec : EqDecision Reference.
Proof. solve_decision. Defined.

Definition addReference (src : SourceFile) (subDirectory directory : string)
    (ref : Reference) : Result Reference :=
  text' ← assertNoWindowsSlashes (fileName src) (text ref);
  let full := normalizeSlashes (path.normalize (joinPaths subDirectory text')) in
  if JS.startsWith full ".."
  then Throw (ParentReference directory (fileName src) (text ref))
  else Ok {| exact := exact ref; text := full |}.

(** a generator that passes on [f x] for the values [x] of [g] that [keep]
    accepts, and throws when [f] does *)
Fixpoint yieldEach {A B} (keep : A -> bool) (f : A -> Result B) (g : Gen A) : Gen B :=
  match g with
  | GDone => GDone
  | GYield a rest =>
      if keep a then
        match f a with
        | Ok b => GYield b (yieldEach keep f rest)
        | Throw e => GThrow e
        end
      else yieldEach keep f rest
  | GThrow e => GThrow e
  end.

Definition referencedFiles (src : SourceFile) (subDirectory directory : string)
  : Gen Reference :=
  gseq
    (yieldEach (fun _ => true)
       (fun ref => addReference src subDirectory directory {| exact := true; text := ref |})
       (yieldAll (referencedFiles_ src)))
    (yieldEach (fun ref => JS.startsWith ref ".")
       (fun ref => addReference src subDirectory directory {| exact := false; text := ref |})
       (imports (statements src))).

(** ** [allReferencedFiles]

    [recur] runs without interruption from its start to the read it awaits,
    and again from the completion of that read to its end; the reads of the
    calls under way complete in an order the code does not control.  A state
    of the walk holds the two shared objects, the calls whose read is under
    way, and the lines written to [console.error]. *)

Record Task := { referencedFrom : string; reference : Reference }.

(** [Map<string, ts.SourceFile>], in insertion order *)
Abbreviation FileMap := (list (string * SourceFile)).

(** [all.set(key, value)] *)
Fixpoint mapSet (key : string) (value : SourceFile) (m : FileMap) : FileMap :=
  match m with
  | [] => [(key, value)]
  | (k, v) :: m' => if String.eqb k key then (key, value) :: m' else (k, v) :: mapSet key value m'
  end.

(** [all.keys()], [all.values()] *)
Definition keys (m : FileMap) : list string := map fst m.
Definition values (m : FileMap) : list SourceFile := map snd m.

Record Walk := {
  seenReferences : gset string;
  all : FileMap;
  pending : list Task;
  console : list string
}.

(** [recur], up to the read it awaits *)
Definition recurEnter (from : string) (w : Walk) (ref : Reference) : Walk :=
  if decide (text ref ∈ seenReferences w) then w
  else {| seenReferences := {[text ref]} ∪ seenReferences w;
          all := all w;
          pending := pending w ++ [{| referencedFrom := from; reference := ref |}];
          console := console w |}.

(** [Array.from(refs).map(ref => recur(from, ref))], up to the reads *)
Definition recurAll (from : string) (refs : list Reference) (w : Walk) : Walk :=
  fold_left (recurEnter from) refs w.

(** the read of one call: the resolved file name and the content *)
Definition readReference (disk : Disk) (directory : string) (t : Task)
  : Logged (string * FileContent) :=
  let text := text (reference t) in
  if exact (reference t) then
    let '(lines, r) := readFileAndReportErrors disk (referencedFrom t) directory text text in
    (lines, content ← r; Ok (text, content))
  else resolveModule disk (referencedFrom t) directory text.

(** [recur], from the completion of its read on *)
Definition recurResume (disk : Disk) (directory : string) (t : Task) (w : Walk)
  : Logged Walk :=
  let '(lines, r) := readReference disk directory t in
  (console w ++ lines,
   '(resolvedFilename, content) ← r;
   let src := createSourceFile resolvedFilename content in
   let w' := {| seenReferences := seenReferences w;
                all := mapSet resolvedFilename src (all w);
                pending := pending w;
                console := console w ++ lines |} in
   refs ← arrayFrom (referencedFiles src (path.dirname resolvedFilename) directory);
   Ok (recurAll resolvedFilename refs w')).

(** the call at position [k] among those under way leaves them *)
Definition takeTask (k : nat) (w : Walk) : Walk :=
  {| seenReferences := seenReferences w;
     all := all w;
     pending := delete k (pending w);
     console := console w |}.

(** The walk under a schedule, up to the moment the promise of
    [allReferencedFiles] is settled: each number of [sched] picks, among the
    calls under way, the one whose read completes next.  The first call to
    throw rejects the whole ([Promise.all] rejects with the first error): the
    result is that error, with the lines written until then.  The calls still
    under way at that moment are not stopped; they have no part in the result
    any more, and [runOn] follows them to their end.  When no call is under
    way the map is returned.  [None] means the schedule ended with calls
    still under way. *)
Fixpoint run (disk : Disk) (directory : string) (sched : list nat) (w : Walk)
  : option (Logged FileMap) :=
  match pending w with
  | [] => Some (console w, Ok (all w))
  | t0 :: _ =>
      match sched with
      | [] => None
      | i :: sched' =>
          let k := i mod length (pending w) in
          match recurResume disk directory (nth k (pending w) t0) (takeTask k w) with
          | (lines, Throw e) => Some (lines, Throw e)
          | (_, Ok w') => run disk directory sched' w'
          end
      end
  end.

Definition emptyWalk : Walk :=
  {| seenReferences := ∅; all := []; pending := []; console := [] |}.

Definition entryReference (filename : string) : Reference :=
  {| exact := true; text := filename |}.

Definition allReferencedFiles (disk : Disk) (sched : list nat)
    (directory : string) (entryFilenames : list string) : option (Logged FileMap) :=
  run disk directory sched
    (recurAll "tsconfig.json" (map entryReference entryFilenames) emptyWalk).

(** ** [getModuleInfo] *)

Record ModuleInfo := {
  declFiles : list string;
  dependencies : gset string;
  declaredModules : list string;
  globals : list string
}.

(** the three collections [getModuleInfo] fills *)
Record Collected := {
  cDependencies : gset string;
  cDeclaredModules : list string;
  cGlobals : gset string
}.

Definition addDependency (packageName dependency : string) (c : Collected) : Collected :=
  if decide (dependency ≠ packageName)
  then {| cDependencies := {[dependency]} ∪ cDependencies c;
          cDeclaredModules := cDeclaredModules c;
          cGlobals := cGlobals c |}
  else c.

Definition pushDeclaredModule (name : string) (c : Collected) : Collected :=
  {| cDependencies := cDependencies c;
     cDeclaredModules := cDeclaredModules c ++ [name];
     cGlobals := cGlobals c |}.

Definition addGlobal (name : string) (c : Collected) : Collected :=
  {| cDependencies := cDependencies c;
     cDeclaredModules := cDeclaredModules c;
     cGlobals := {[name]} ∪ cGlobals c |}.

Definition isNamespaceExportDeclaration (s : Statement) : bool :=
  match s with NamespaceExportDeclaration _ => true | _ => false end.

(** the body of the loop over the statements of a file that is not an
    external module *)
Definition visitGlobalStatement (packageName : string) (node : Statement) (c : Collected)
  : Result Collected :=
  match node with
  | ModuleDeclaration decl =>
      let name := nameText (declName decl) in
      match declName decl with
      | StringLiteral _ =>
          name' ← assertNoWindowsSlashes packageName name;
          Ok (pushDeclaredModule name' c)
      | Identifier _ =>
          isValueNamespace decl ≫= λ b : bool, Ok (if b then addGlobal name c else c)
      end
  | VariableStatement declarations =>
      Ok (fold_left (fun c decl =>
            match decl with
            | BindingIdentifier text => addGlobal text c
            | BindingPattern => c
            end) declarations c)
  | EnumDeclaration name
  | ClassDeclaration (Some name)
  | FunctionDeclaration (Some name) => Ok (addGlobal name c)
  | _ => Ok c
  end.

(** the body of the loop over [all.values()] *)
Definition visitSourceFile (packageName : string) (sourceFile : SourceFile) (c : Collected)
  : Result Collected :=
  c ← forOf (imports (statements sourceFile))
        (fun ref c =>
           Ok (if negb (JS.startsWith ref ".")
               then addDependency packageName (rootName ref) c else c)) c;
  let c := fold_left (fun c ref => addDependency packageName ref c)
             (typeReferenceDirectives sourceFile) c in
  if isExternalModule sourceFile then
    if sourceFileExportsSomething sourceFile then
      name ← properModuleName packageName (fileName sourceFile);
      let c := pushDeclaredModule name c in
      Ok (match find isNamespaceExportDeclaration (statements sourceFile) with
          | Some (NamespaceExportDeclaration name) => addGlobal name c
          | _ => c
          end)
    else Ok c
  else forEach (statements sourceFile) (visitGlobalStatement packageName) c.

Definition emptyCollected : Collected :=
  {| cDependencies := ∅; cDeclaredModules := []; cGlobals := ∅ |}.

(** [getModuleInfo], from the map of all referenced files on *)
Definition moduleInfoOf (packageName : string) (all : FileMap) : Result ModuleInfo :=
  c ← forEach (values all) (visitSourceFile packageName) emptyCollected;
  Ok {| declFiles := sort (keys all);
        dependencies := cDependencies c;
        declaredModules := cDeclaredModules c;
        globals := sort (elements (cGlobals c)) |}.

Definition getModuleInfo (disk : Disk) (sched : list nat)
    (packageName directory : string) (allEntryFilenames : list string)
  : option (Result ModuleInfo) :=
  match allReferencedFiles disk sched directory allEntryFilenames with
  | None => None
  | Some (_, r) => Some (all ← r; moduleInfoOf packageName all)
  end.

(** ** [getTestDependencies] *)

Definition visitTestFile (disk : Disk) (pkgName directory : string)
    (dependencies : gset string) (filename : string) (testDependencies : gset string)
  : Result (gset string) :=
  content ← readFileAndThrowOnBOM disk directory filename;
  let sourceFile := createSourceFile filename content in
  let filePath := path.join pkgName (fileName sourceFile) in
  _ ← match referencedFiles_ sourceFile with
      | ref :: _ => Throw (TestPathReference filePath ref)
      | [] => Ok tt
      end;
  testDependencies ←
    forEach (typeReferenceDirectives sourceFile)
      (fun referencedPackage testDependencies =>
         if decide (referencedPackage ∈ dependencies)
         then Throw (TestRedundantReference filePath referencedPackage)
         else if decide (referencedPackage = pkgName)
         then Throw (TestSelfReference filePath)
         else Ok ({[referencedPackage]} ∪ testDependencies))
      testDependencies;
  forOf (imports (statements sourceFile))
    (fun imported testDependencies =>
       Ok (if negb (JS.startsWith imported ".")
              && negb (bool_decide (imported ∈ dependencies))
              && negb (bool_decide (imported = pkgName))
           then {[imported]} ∪ testDependencies else testDependencies))
    testDependencies.

Definition getTestDependencies (disk : Disk) (pkgName directory : string)
    (testFiles : list string) (dependencies : gset string) : Result (gset string) :=
  forEach testFiles (visitTestFile disk pkgName directory dependencies) ∅.

(** * The specification's notions *)

(** ** Induction over the nesting of module declarations *)

(** what a property of module declarations says of a statement *)
Definition onModuleDecl (Q : ModuleDecl -> Prop) (s : Statement) : Prop :=
  match s with ModuleDeclaration d => Q d | _ => True end.

Definition ModuleDecl_nested_ind (Q : ModuleDecl -> Prop)
    (Hnone : forall n, Q (MkModuleDecl n None))
    (Hnested : forall n d, Q d -> Q (MkModuleDecl n (Some (NestedModule d))))
    (Hblock : forall n sts, Forall (onModuleDecl Q) sts ->
                            Q (MkModuleDecl n (Some (ModuleBlock sts))))
  : forall d, Q d :=
  fix F (d : ModuleDecl) : Q d :=
    match d with
    | MkModuleDecl n None => Hnone n
    | MkModuleDecl n (Some (NestedModule d')) => Hnested n d' (F d')
    | MkModuleDecl n (Some (ModuleBlock sts)) =>
        Hblock n sts
          ((fix G (l : list Statement) : Forall (onModuleDecl Q) l :=
              match l with
              | [] => @List.Forall_nil _ (onModuleDecl Q)
              | s :: l' =>
                  @List.Forall_cons _ (onModuleDecl Q) s l'
                    (match s return onModuleDecl Q s with
                     | ModuleDeclaration d' => F d'
                     | _ => I
                     end)
                    (G l')
              end) sts)
    end.

(** ** Value namespaces, in the specification's words *)

(** the statement kinds the classification knows *)
Definition recognizedKind (s : Statement) : bool :=
  match s with
  | VariableStatement _ | ClassDeclaration _ | FunctionDeclaration _ | EnumDeclaration _
  | ModuleDeclaration _
  | InterfaceDeclaration _ | TypeAliasDeclaration _ | ImportEqualsDeclaration _ => true
  | _ => false
  end.

Definition hasBody (ns : ModuleDecl) : bool :=
  match declBody ns with Some _ => true | None => false end.

(** every statement, at every nesting level, is of a recognized kind, and
    every nested namespace has a body *)
Fixpoint wellFormedStatement (s : Statement) : bool :=
  match s with
  | ModuleDeclaration d => hasBody d && wellFormedNamespace d
  | _ => recognizedKind s
  end
with wellFormedNamespace (ns : ModuleDecl) : bool :=
  match ns with
  | MkModuleDecl _ None => true
  | MkModuleDecl _ (Some (NestedModule d)) => hasBody d && wellFormedNamespace d
  | MkModuleDecl _ (Some (ModuleBlock sts)) =>
      (fix all_ (l : list Statement) : bool :=
         match l with
         | [] => true
         | s :: l' => wellFormedStatement s && all_ l'
         end) sts
  end.

(** the body that is left when the nested single-child namespace bodies are
    unwrapped *)
Fixpoint innermostStatements (ns : ModuleDecl) : list Statement :=
  match ns with
  | MkModuleDecl _ None => []
  | MkModuleDecl _ (Some (NestedModule d)) => innermostStatements d
  | MkModuleDecl _ (Some (ModuleBlock sts)) => sts
  end.

(** a variable statement, a class, a function or an enum declaration, or a
    nested namespace that is a value namespace; a value namespace is one whose
    innermost body contains such a statement *)
Fixpoint producesValue (s : Statement) : bool :=
  match s with
  | VariableStatement _ | ClassDeclaration _ | FunctionDeclaration _ | EnumDeclaration _ => true
  | ModuleDeclaration d => valueNamespace d
  | _ => false
  end
with valueNamespace (ns : ModuleDecl) : bool :=
  match ns with
  | MkModuleDecl _ None => false
  | MkModuleDecl _ (Some (NestedModule d)) => valueNamespace d
  | MkModuleDecl _ (Some (ModuleBlock sts)) =>
      (fix any_ (l : list Statement) : bool :=
         match l with
         | [] => false
         | s :: l' => producesValue s || any_ l'
         end) sts
  end.

(** ** Declared modules, in the specification's words *)

Definition isImportStatement (s : Statement) : bool :=
  match s with
  | ImportDeclaration _ | ImportEqualsDeclaration _ => true
  | _ => false
  end.

(** an ambient module declaration keyed by a string literal *)
Definition isStringKeyedModule (s : Statement) : bool :=
  match s with
  | ModuleDeclaration (MkModuleDecl (StringLiteral _) _) => true
  | _ => false
  end.

(** a file exports something when it has a top-level statement that is
    neither an import statement nor an ambient module declaration keyed by a
    string literal *)
Definition exportsSomething (sts : list Statement) : bool :=
  existsb (fun s => negb (isImportStatement s) && negb (isStringKeyedModule s)) sts.

(** the string literals that key the top-level ambient module declarations *)
Definition stringKeyedModuleNames (sts : list Statement) : list string :=
  flat_map (fun s =>
    match s with
    | ModuleDeclaration (MkModuleDecl (StringLiteral t) _) => [t]
    | _ => []
    end) sts.

(** ** Imports, in the specification's words *)

(** the target of an import declaration, an export-from, or an
    import-equals with [require] *)
Definition importTarget (s : Statement) : option string :=
  match s with
  | ImportDeclaration (StringLiteralExpression t)
  | ExportDeclaration (Some (StringLiteralExpression t))
  | ImportEqualsDeclaration (ExternalModuleReference (Some (StringLiteralExpression t))) =>
      Some t
  | _ => None
  end.

(** [declare module "x" { body }] *)
Definition declareModule (x : string) (body : list Statement) : Statement :=
  ModuleDeclaration (MkModuleDecl (StringLiteral x) (Some (ModuleBlock body))).

(** a statement written among [sts], at the top level or inside the body of
    string-named module declarations, at any depth *)
Inductive WrittenIn (s : Statement) : list Statement -> Prop :=
| written_here sts : s ∈ sts -> WrittenIn s sts
| written_inside x body sts :
    declareModule x body ∈ sts -> WrittenIn s body -> WrittenIn s sts.

(** the module names one file gives to [declaredModules] *)
Definition declaredBy (packageName : string) (src : SourceFile) : list string :=
  if isExternalModule src then
    if exportsSomething (statements src) then
      match properModuleName packageName (fileName src) with
      | Ok name => [name]
      | Throw _ => []
      end
    else []
  else stringKeyedModuleNames (statements src).

(** ** Resolution, in the specification's words *)

(** the reference text minus a trailing slash *)
Definition withoutTrailingSlash (t : string) : string :=
  if JS.endsWith t "/" then JS.slice0 t (String.length t - 1) else t.

(** the call made for a reference with the given text, from the given file *)
Definition taskFor (from : string) (exact : bool) (text : string) : Task :=
  {| referencedFrom := from; reference := {| exact := exact; text := text |} |}.

(** ** Test dependencies, in the specification's words *)

(** a test file with a path-style reference directive, or with a
    type-reference directive whose target is a known dependency or the
    package itself *)
Definition testFileViolation (pkgName : string) (dependencies : gset string)
    (c : FileContent) : bool :=
  match contentReferencedFiles c with _ :: _ => true | [] => false end
  || existsb (fun r => bool_decide (r ∈ dependencies) || bool_decide (r = pkgName))
       (contentTypeReferenceDirectives c).

(** an import target that counts: not relative, not a known dependency, not
    the package itself *)
Definition novelImport (pkgName : string) (dependencies : gset string) (t : string) : bool :=
  negb (JS.startsWith t ".")
  && negb (bool_decide (t ∈ dependencies))
  && negb (bool_decide (t = pkgName)).

(** the type-reference-directive targets of a test file, and its import
    targets that count *)
Definition testFileTargets (pkgName : string) (dependencies : gset string)
    (c : FileContent) : list string :=
  contentTypeReferenceDirectives c
  ++ filter (fun t => novelImport pkgName dependencies t = true)
       (yielded (imports (contentStatements c))).

(** the test file can be read and its imports can be collected *)
Definition testFileReadable (disk : Disk) (filename : string) : bool :=
  match disk !! filename with
  | Some c => isOk (arrayFrom (imports (contentStatements c)))
  | None => false
  end.

(** ** The reference graph, in the specification's words *)

(** a reference text joined against the directory of the referencing file
    and normalized *)
Definition fullReference (subDirectory text : string) : string :=
  normalizeSlashes (path.normalize (joinPaths subDirectory text)).


(** the references written in a file: its path-reference directives, and
    its relative imports as far as they can be collected *)
Definition discovered (src : SourceFile) : list Reference :=
  map (fun t => {| exact := true; text := t |}) (referencedFiles_ src)
  ++ map (fun t => {| exact := false; text := t |})
       (filter (fun t => JS.startsWith t "." = true) (yielded (imports (statements src)))).

(** the file a reference resolves to, whoever refers to it *)
Definition resolveReference (disk : Disk) (directory : string) (ref : Reference)
  : Result (string * FileContent) :=
  snd (readReference disk directory {| referencedFrom := EmptyString; reference := ref |}).

(** the outgoing references of a resolved file *)
Definition referencesOf (directory resolvedFilename : string) (content : FileContent)
  : Result (list Reference) :=
  arrayFrom (referencedFiles (createSourceFile resolvedFilename content)
               (path.dirname resolvedFilename) directory).

(** the references that can be reached from the entry files: each entry file
    name, as an exact reference, and each outgoing reference of a file that a
    reachable reference resolves to *)
Inductive Reachable (disk : Disk) (directory : string) (entryFilenames : list string)
  : Reference -> Prop :=
| reach_entry f :
    f ∈ entryFilenames -> Reachable disk directory entryFilenames (entryReference f)
| reach_reference r f c refs r' :
    Reachable disk directory entryFilenames r ->
    resolveReference disk directory r = Ok (f, c) ->
    referencesOf directory f c = Ok refs ->
    r' ∈ refs ->
    Reachable disk directory entryFilenames r'.

(** the files that can be reached from the entry files *)
Definition ReachableFile (disk : Disk) (directory : string) (entryFilenames : list string)
    (f : string) : Prop :=
  exists r c, Reachable disk directory entryFilenames r
              /\ resolveReference disk directory r = Ok (f, c).

(** no text is reached both as a path reference or entry file name and as a
    relative import *)
Definition Unambiguous (disk : Disk) (directory : string) (entryFilenames : list string)
  : Prop :=
  forall r1 r2,
    Reachable disk directory entryFilenames r1 ->
    Reachable disk directory entryFilenames r2 ->
    text r1 = text r2 -> exact r1 = exact r2.

(** every reference there is: the entry file names and the outgoing
    references of every file on the disk *)
Definition referencesOn (disk : Disk) (directory : string) (entryFilenames : list string)
  : list Reference :=
  map entryReference entryFilenames
  ++ flat_map (fun fc =>
       match referencesOf directory (fst fc) (snd fc) with
       | Ok refs => refs
       | Throw _ => []
       end) (map_to_list disk).

(** a check that implies [Unambiguous] *)
Definition unambiguous (disk : Disk) (directory : string) (entryFilenames : list string)
  : bool :=
  let refs := referencesOn disk directory entryFilenames in
  forallb (fun r1 =>
    forallb (fun r2 =>
      implb (String.eqb (text r1) (text r2)) (Bool.eqb (exact r1) (exact r2))) refs) refs.

(** a number of completed reads after which no call can be under way *)
Definition walkBound (disk : Disk) (directory : string) (entryFilenames : list string)
  : nat :=
  length (referencesOn disk directory entryFilenames).

(** the texts of a list that have not been seen *)
Definition unseen (seen : gset string) (texts : list string) : nat :=
  length (filter (fun t => t ∉ seen) texts).

(** what is left to do in a walk: the texts not seen yet, of those there
    are, and the calls under way *)
Definition measure (texts : list string) (w : Walk) : nat :=
  unseen (seenReferences w) texts + length (pending w).

(** the texts of all the references there are *)
Definition allTexts (disk : Disk) (directory : string) (entryFilenames : list string)
  : list string :=
  map text (referencesOn disk directory entryFilenames).

(** every reachable reference resolves to a file whose references can be
    collected *)
Definition Resolvable (disk : Disk) (directory : string) (entryFilenames : list string)
  : Prop :=
  forall r, Reachable disk directory entryFilenames r ->
    exists f c refs, resolveReference disk directory r = Ok (f, c)
                     /\ referencesOf directory f c = Ok refs.

(** ** Invariants of the walk *)

(** what the walk holds is reachable, and no key is held twice *)
Record Sound (disk : Disk) (directory : string) (entryFilenames : list string)
    (w : Walk) : Prop := {
  sound_pending : forall t, t ∈ pending w ->
    Reachable disk directory entryFilenames (reference t);
  sound_keys : forall f, f ∈ keys (all w) ->
    ReachableFile disk directory entryFilenames f;
  sound_nodup : NoDup (keys (all w));
  sound_seen : forall x, x ∈ seenReferences w ->
    x ∈ allTexts disk directory entryFilenames
}.

(** the call for a reference has run to its end *)
Definition Finished (disk : Disk) (directory : string) (w : Walk) (r : Reference) : Prop :=
  exists f c refs,
    resolveReference disk directory r = Ok (f, c)
    /\ f ∈ keys (all w)
    /\ referencesOf directory f c = Ok refs
    /\ forall r', r' ∈ refs -> text r' ∈ seenReferences w.

(** every entry file has been seen, and every reachable reference whose text
    has been seen is under way or finished *)
Record Complete (disk : Disk) (directory : string) (entryFilenames : list string)
    (w : Walk) : Prop := {
  complete_entries : forall f, f ∈ entryFilenames -> f ∈ seenReferences w;
  complete_seen : forall r,
    Reachable disk directory entryFilenames r -> text r ∈ seenReferences w ->
    (exists t, t ∈ pending w /\ reference t = r) \/ Finished disk directory w r
}.


(** the walk when every entry file has been entered *)
Definition initialWalk (entryFilenames : list string) : Walk :=
  recurAll "tsconfig.json" (map entryReference entryFilenames) emptyWalk.

(** * Example packages *)

Definition fileContent (refs types : list string) (sts : list Statement)
    (externalModule : bool) : FileContent :=
  {| contentReferencedFiles := refs;
     contentTypeReferenceDirectives := types;
     contentStatements := sts;
     contentExternalModuleIndicator := externalModule |}.

Definition importFrom (target : string) : Statement :=
  ImportDeclaration (StringLiteralExpression target).

(** [declare namespace N { body }] *)
Definition declareNamespace (name : string) (body : list Statement) : Statement :=
  ModuleDeclaration (MkModuleDecl (Identifier name) (Some (ModuleBlock body))).

(** a package whose entry file names the package itself in a type-reference
    directive and imports from it *)
Definition selfReferringDisk : Disk :=
  {[ "index.d.ts" :=
       fileContent [] ["jquery"; "node"]
         [importFrom "jquery/ui"; importFrom "@types/sizzle/lib"; ExportAssignment] true ]}.

(** a script file, not an external module, with the given statements *)
Definition scriptFile (fileName : string) (sts : list Statement) : SourceFile :=
  createSourceFile fileName (fileContent [] [] sts false).

(** [declare namespace N { interface I {} }] and
    [declare namespace N { class C {} }] *)
Definition typeOnlyNamespace : Statement :=
  declareNamespace "N" [InterfaceDeclaration "I"].
Definition classNamespace : Statement :=
  declareNamespace "N" [ClassDeclaration (Some "C")].

(** [declare namespace N { class C {} export = C; }] *)
Definition classThenExportAssignment : ModuleDecl :=
  MkModuleDecl (Identifier "N")
    (Some (ModuleBlock [ClassDeclaration (Some "C"); ExportAssignment])).

(** [declare namespace Outer.Inner { type T = number; namespace Deep { var x; } }] *)
Definition dottedNamespace : ModuleDecl :=
  MkModuleDecl (Identifier "Outer")
    (Some (NestedModule
       (MkModuleDecl (Identifier "Inner")
          (Some (ModuleBlock
             [TypeAliasDeclaration "T";
              declareNamespace "Deep" [VariableStatement [BindingIdentifier "x"]]]))))).

(** a package whose only file is the script [declare module "x" { }] *)
Definition ambientModuleDisk : Disk :=
  {[ "index.d.ts" := fileContent [] [] [declareModule "x" []] false ]}.

(** a package of two external modules; the second one only imports *)
Definition augmentationDisk : Disk :=
  {[ "index.d.ts" := fileContent [] [] [importFrom "./extra"; ExportAssignment] true;
     "extra.d.ts" := fileContent [] [] [importFrom "./index"] true ]}.

(** [declare module "outer" { interface I {}
      declare module "inner" { import d = require("./deep"); import "lodash/fp"; } }] *)
Definition requireDeep : Statement :=
  ImportEqualsDeclaration (ExternalModuleReference (Some (StringLiteralExpression "./deep"))).
Definition innerModule : list Statement := [requireDeep; importFrom "lodash/fp"].
Definition outerModule : list Statement :=
  [InterfaceDeclaration "I"; declareModule "inner" innerModule].
Definition nestedImportsFile : SourceFile :=
  scriptFile "index.d.ts" [declareModule "outer" outerModule].

Definition augmentationInfo : ModuleInfo :=
  {| declFiles := ["extra.d.ts"; "index.d.ts"];
     dependencies := ∅;
     declaredModules := ["pkg"];
     globals := [] |}.

(** a package whose entry file is the only file *)
Definition loneIndexDisk : Disk :=
  {[ "./index.d.ts" := fileContent [] [] [] false ]}.

(** a test file with [import x = require(y)], which [parseRequire] rejects *)
Definition badRequireContent : FileContent :=
  fileContent [] []
    [ImportEqualsDeclaration (ExternalModuleReference (Some OtherExpression))] true.
Definition badRequireTestDisk : Disk := {[ "pkg-tests.ts" := badRequireContent ]}.

(** test files with a type-reference directive and imports, one target
    being a dependency of the package already *)
Definition someTestsContent : FileContent :=
  fileContent [] ["mocha"] [importFrom "known"; importFrom "chai"; importFrom "./helper"] true.
Definition someTestsDisk : Disk := {[ "pkg-tests.ts" := someTestsContent ]}.

(** two files that import each other *)
Definition cyclicDisk : Disk :=
  {[ "a.d.ts" := fileContent [] [] [importFrom "./b"] true;
     "b.d.ts" := fileContent [] [] [importFrom "./a"] true ]}.

(** an entry file that refers to the text [a] both by path and by import,
    next to the files [a] and [a.d.ts] *)
Definition ambiguousDisk : Disk :=
  {[ "index.d.ts" := fileContent ["a"] [] [importFrom "./a"; ExportAssignment] true;
     "a" := fileContent [] [] [] false;
     "a.d.ts" := fileContent [] [] [ExportAssignment] true ]}.



(** the map of the two files that import each other *)
Definition cyclicFiles : FileMap :=
  [("a.d.ts", createSourceFile "a.d.ts" (fileContent [] [] [importFrom "./b"] true));
   ("b.d.ts", createSourceFile "b.d.ts" (fileContent [] [] [importFrom "./a"] true))].

(** what the walk returns for [ambiguousDisk]: the file [a.d.ts] is missing *)
Definition ambiguousFiles : FileMap :=
  [("index.d.ts",
    createSourceFile "index.d.ts"
      (fileContent ["a"] [] [importFrom "./a"; ExportAssignment] true));
   ("a", createSourceFile "a" (fileContent [] [] [] false))].

(** what [getModuleInfo] returns for [selfReferringDisk] *)
Definition selfReferringInfo : ModuleInfo :=
  {| declFiles := ["index.d.ts"];
     dependencies := {["node"; "@types/sizzle"]};
     declaredModules := ["jquery"];
     globals := [] |}.

(** the error a generator ends with, if it throws *)
Fixpoint thrown {A} (g : Gen A) : option Error :=
  match g with
  | GDone => None
  | GYield _ rest => thrown rest
  | GThrow e => Some e
  end.

(** the errors that collecting the references of a file can raise *)
Definition referenceError (e : Error) : bool :=
  match e with
  | ParentReference _ _ _ | WindowsSlashes _ _ | TypeError => true
  | _ => false
  end.

(** a package whose entry file imports a module that is not there *)
Definition missingImportDisk : Disk :=
  {[ "index.d.ts" := fileContent [] [] [importFrom "./gone"; ExportAssignment] true ]}.

(** the text a call is for *)
Definition taskText (t : Task) : string := text (reference t).

(** the calls whose read completes in the course of a walk, in the order of
    the schedule; it follows [run] step by step *)
Fixpoint completed (disk : Disk) (directory : string) (sched : list nat) (w : Walk)
  : list Task :=
  match pending w with
  | [] => []
  | t0 :: _ =>
      match sched with
      | [] => []
      | i :: sched' =>
          let k := i mod length (pending w) in
          let t := nth k (pending w) t0 in
          t :: match recurResume disk directory t (takeTask k w) with
               | (_, Ok w') => completed disk directory sched' w'
               | (_, Throw _) => []
               end
      end
  end.

(** the calls under way are for different texts, all of them seen *)
Definition Distinct (w : Walk) : Prop :=
  NoDup (map taskText (pending w))
  /\ forall t, t ∈ pending w -> taskText t ∈ seenReferences w.

(** [declare module "x";], a string-named module declaration without a body *)
Definition shorthandModule (x : string) : Statement :=
  ModuleDeclaration (MkModuleDecl (StringLiteral x) None).

(** a script with [declare namespace N { import a = require("./a"); }],
    [import b = A.B;] and [declare module "x";] *)
Definition namespaceWithRequire : Statement :=
  declareNamespace "N"
    [ImportEqualsDeclaration (ExternalModuleReference (Some (StringLiteralExpression "./a")))].
Definition shorthandFile : SourceFile :=
  scriptFile "index.d.ts"
    [namespaceWithRequire; ImportEqualsDeclaration EntityName; shorthandModule "x"].

(** two test files of a package *)
Definition twoTestsDisk : Disk :=
  {[ "a-tests.ts" := fileContent [] ["mocha"] [importFrom "pkg"] true;
     "b-tests.ts" := fileContent [] [] [importFrom "chai"; importFrom "./a-tests"] true ]}.

(** a top-level statement of a file that is not an external module gives the
    global [g]: a variable declared by an identifier, a named enum, class or
    function, or a namespace that [isValueNamespace] accepts *)
Inductive DeclaresGlobal : Statement -> string -> Prop :=
| global_variable declarations g :
    BindingIdentifier g ∈ declarations -> DeclaresGlobal (VariableStatement declarations) g
| global_enum g : DeclaresGlobal (EnumDeclaration g) g
| global_class g : DeclaresGlobal (ClassDeclaration (Some g)) g
| global_function g : DeclaresGlobal (FunctionDeclaration (Some g)) g
| global_namespace g body :
    isValueNamespace (MkModuleDecl (Identifier g) body) = Ok true ->
    DeclaresGlobal (ModuleDeclaration (MkModuleDecl (Identifier g) body)) g.

(** what one file gives to [globals] *)
Definition GivesGlobal (src : SourceFile) (g : string) : Prop :=
  if isExternalModule src
  then find isNamespaceExportDeclaration (statements src) = Some (NamespaceExportDeclaration g)
  else exists s, s ∈ statements src /\ DeclaresGlobal s g.

(** a script with a variable, a destructuring pattern, an interface, an
    anonymous class, a type-only namespace and a value namespace *)
Definition globalsDisk : Disk :=
  {[ "index.d.ts" :=
       fileContent [] []
         [VariableStatement [BindingIdentifier "zeta"; BindingPattern];
          InterfaceDeclaration "Options";
          ClassDeclaration None;
          declareNamespace "Types" [TypeAliasDeclaration "T"];
          declareNamespace "alpha" [FunctionDeclaration (Some "f")];
          VariableStatement [BindingIdentifier "alpha"]] false ]}.
Definition globalsInfo : ModuleInfo :=
  {| declFiles := ["index.d.ts"]; dependencies := ∅;
     declaredModules := []; globals := ["alpha"; "zeta"] |}.

(** an entry of the map is the parse of what a reachable reference resolves
    to, stored under the resolved file name *)
Definition Parsed (disk : Disk) (directory : string) (entryFilenames : list string)
    (kv : string * SourceFile) : Prop :=
  exists r c, Reachable disk directory entryFilenames r
              /\ resolveReference disk directory r = Ok (kv.1, c)
              /\ kv.2 = createSourceFile kv.1 c.

(** two entry files that both export, the first importing the second *)
Definition twoModulesDisk : Disk :=
  {[ "a.d.ts" := fileContent [] [] [importFrom "./b"; ExportAssignment] true;
     "b.d.ts" := fileContent [] ["node"] [importFrom "dep/sub"; ExportAssignment] true ]}.
Definition twoModulesInfo : ModuleInfo :=
  {| declFiles := ["a.d.ts"; "b.d.ts"]; dependencies := {["node"; "dep"]};
     declaredModules := ["pkg/a"; "pkg/b"]; globals := [] |}.
Definition twoModulesInfoSwapped : ModuleInfo :=
  {| declFiles := ["a.d.ts"; "b.d.ts"]; dependencies := {["node"; "dep"]};
     declaredModules := ["pkg/b"; "pkg/a"]; globals := [] |}.

(** a file [lib/a.d.ts] with a path reference, a relative import and an
    import of a package *)
Definition referringFile : SourceFile :=
  createSourceFile "lib/a.d.ts"
    (fileContent ["./b.d.ts"] [] [importFrom "../c"; importFrom "lodash"] true).
Definition referringFileReferences : list Reference :=
  [{| exact := true; text := "lib/b.d.ts" |}; {| exact := false; text := "c" |}].

(** ** The calls that run on after a rejection *)

(** the walk after a call that throws: what the call did before it threw,
    the line it wrote and the file it recorded, stays done *)
Definition recurThrown (disk : Disk) (directory : string) (t : Task) (w : Walk) : Walk :=
  let '(lines, r) := readReference disk directory t in
  {| seenReferences := seenReferences w;
     all := match r with
            | Ok (resolvedFilename, content) =>
                mapSet resolvedFilename (createSourceFile resolvedFilename content) (all w)
            | Throw _ => all w
            end;
     pending := pending w;
     console := console w ++ lines |}.

(** The walk under a schedule, to its very end.  A call that throws rejects
    the promise of [allReferencedFiles], or finds it rejected already; either
    way the other calls under way are not stopped: each still reads its file,
    writes its line when the read fails, and enters the calls for the
    references it finds.  What is given is the console when no call is under
    way any more; [None] means the schedule ended before that. *)
Fixpoint runOn (disk : Disk) (directory : string) (sched : list nat) (w : Walk)
  : option (list string) :=
  match pending w with
  | [] => Some (console w)
  | t0 :: _ =>
      match sched with
      | [] => None
      | i :: sched' =>
          let k := i mod length (pending w) in
          let t := nth k (pending w) t0 in
          match recurResume disk directory t (takeTask k w) with
          | (_, Throw _) =>
              runOn disk directory sched' (recurThrown disk directory t (takeTask k w))
          | (_, Ok w') => runOn disk directory sched' w'
          end
      end
  end.

(** all that [allReferencedFiles] writes to [console.error] *)
Definition consoleAtEnd (disk : Disk) (sched : list nat)
    (directory : string) (entryFilenames : list string) : option (list string) :=
  runOn disk directory sched (initialWalk entryFilenames).

(** a line written for a reachable reference that cannot be read *)
Definition ReportsUnreadable (disk : Disk) (directory : string) (entryFilenames : list string)
    (line : string) : Prop :=
  exists from ref,
    Reachable disk directory entryFilenames ref
    /\ isOk (resolveReference disk directory ref) = false
    /\ line = cantBeRead directory from (text ref).

(** a package whose entry file imports two modules that are not there *)
Definition twoMissingDisk : Disk :=
  {[ "index.d.ts" :=
       fileContent [] [] [importFrom "./gone"; importFrom "./lost"; ExportAssignment] true ]}.

(** the package of [nestedImportsFile], with the module its inner import
    names *)
Definition nestedImportsDisk : Disk :=
  {[ "index.d.ts" := fileContent [] [] [declareModule "outer" outerModule] false;
     "deep.d.ts" := fileContent [] [] [ExportAssignment] true ]}.
Definition nestedImportsFiles : FileMap :=
  [("index.d.ts", nestedImportsFile);
   ("deep.d.ts", createSourceFile "deep.d.ts" (fileContent [] [] [ExportAssignment] true))].
Definition nestedImportsInfo : ModuleInfo :=
  {| declFiles := ["deep.d.ts"; "index.d.ts"]; dependencies := {["lodash"]};
     declaredModules := ["outer"; "pkg/deep"]; globals := [] |}.

(** every text seen is that of a call under way or of one of the texts
    [done] *)
Definition Accounted (w : Walk) (done : list string) : Prop :=
  forall x, x ∈ seenReferences w -> x ∈ map taskText (pending w) \/ x ∈ done.

(** * Properties *)

(** ** Strings *)

Lemma substring_all (s : string) : String.substring 0 (String.length s) s = s.
Proof. induction s as [|c s IH]; simpl; [done | by rewrite IH]. Qed.

Lemma substring_prefix (s t : string) :
  String.substring 0 (String.length s) (s +:+ t) = s.
Proof.
  induction s as [|c s IH]; simpl.
  - by destruct t.
  - by rewrite IH.
Qed.

Lemma substring_suffix (s t : string) :
  String.substring (String.length s) (String.length t) (s +:+ t) = t.
Proof.
  induction s as [|c s IH]; simpl; [apply substring_all | exact IH].
Qed.

Lemma length_append (s t : string) :
  String.length (s +:+ t) = String.length s + String.length t.
Proof. induction s as [|c s IH]; simpl; [done | by rewrite IH]. Qed.

Lemma endsWith_append (s ext : string) : JS.endsWith (s +:+ ext) ext = true.
Proof.
  unfold JS.endsWith. rewrite length_append.
  replace (String.length s + String.length ext - String.length ext) with (String.length s) by lia.
  rewrite substring_suffix, String.eqb_refl, andb_true_r.
  apply Nat.leb_le. lia.
Qed.

Lemma withoutExtension_append (stem ext : string) :
  withoutExtension (stem +:+ ext) ext = Ok stem.
Proof.
  unfold withoutExtension. rewrite endsWith_append. f_equal.
  unfold JS.slice0. rewrite length_append.
  replace (String.length stem + String.length ext - String.length ext) with (String.length stem) by lia.
  apply substring_prefix.
Qed.

(** ** Loops *)

Lemma bind_Ok {A B} (r : Result A) (k : A -> Result B) (b : B) :
  r ≫= k = Ok b -> exists a, r = Ok a /\ k a = Ok b.
Proof. destruct r as [a|e]; [eauto | discriminate]. Qed.

Lemma forEach_invariant {A S} (P : S -> Prop) (body : A -> S -> Result S) l :
  (forall a s s', a ∈ l -> P s -> body a s = Ok s' -> P s') ->
  forall s s', P s -> forEach l body s = Ok s' -> P s'.
Proof.
  induction l as [|a l IH]; intros Hbody s s' Hs Hrun; simpl in Hrun.
  - by inversion Hrun; subst.
  - apply bind_Ok in Hrun as (s1 & H1 & H2).
    eapply IH; [ | | exact H2].
    + intros b t t' Hb. apply Hbody. by right.
    + eapply Hbody; [by left | exact Hs | exact H1].
Qed.

Lemma forOf_invariant {A S} (P : S -> Prop) (body : A -> S -> Result S) (g : Gen A) :
  (forall a s s', P s -> body a s = Ok s' -> P s') ->
  forall s s', P s -> forOf g body s = Ok s' -> P s'.
Proof.
  intros Hbody. induction g as [|a g IH|e]; intros s s' Hs Hrun; simpl in Hrun.
  - by inversion Hrun; subst.
  - apply bind_Ok in Hrun as (s1 & H1 & H2). eauto.
  - discriminate.
Qed.

Lemma fold_left_invariant {A S} (P : S -> Prop) (f : S -> A -> S) l :
  (forall a s, P s -> P (f s a)) -> forall s, P s -> P (fold_left f l s).
Proof. intros Hf. induction l as [|a l IH]; simpl; eauto. Qed.

(** ** Generators *)

Lemma gseq_done_r {A} (g : Gen A) : gseq g GDone = g.
Proof. induction g as [|a g IH|e]; simpl; [done | by rewrite IH | done]. Qed.

Lemma gseq_assoc {A} (g1 g2 g3 : Gen A) : gseq (gseq g1 g2) g3 = gseq g1 (gseq g2 g3).
Proof. induction g1 as [|a g IH|e]; simpl; [done | by rewrite IH | done]. Qed.

Lemma arrayFrom_gseq {A} (g1 g2 : Gen A) l :
  arrayFrom (gseq g1 g2) = Ok l <->
  exists l1 l2, arrayFrom g1 = Ok l1 /\ arrayFrom g2 = Ok l2 /\ l = l1 ++ l2.
Proof.
  revert l. induction g1 as [|a g IH|e]; intros l; simpl.
  - split; [intros H; by exists [], l | by intros (l1 & l2 & [= <-] & H & ->)].
  - split.
    + intros H. apply bind_Ok in H as (l' & H & [= <-]).
      apply IH in H as (l1 & l2 & H1 & H2 & ->).
      exists (a :: l1), l2. by rewrite H1.
    + intros (l1 & l2 & H1 & H2 & ->).
      apply bind_Ok in H1 as (l1' & H1 & [= <-]).
      assert (H : arrayFrom (gseq g g2) = Ok (l1' ++ l2)) by (apply IH; eauto).
      by rewrite H.
  - split; [done | by intros (l1 & l2 & ? & _)].
Qed.

Lemma arrayFrom_yielded {A} (g : Gen A) l : arrayFrom g = Ok l -> yielded g = l.
Proof.
  revert l. induction g as [|a g IH|e]; intros l H; simpl in *.
  - by inversion H.
  - apply bind_Ok in H as (l' & H & [= <-]). by rewrite (IH l').
  - done.
Qed.

Lemma forOf_arrayFrom {A S} (g : Gen A) (body : A -> S -> Result S) s s' :
  forOf g body s = Ok s' ->
  exists l, arrayFrom g = Ok l /\ forEach l body s = Ok s'.
Proof.
  revert s. induction g as [|a g IH|e]; intros s H; simpl in *.
  - by exists [].
  - apply bind_Ok in H as (s1 & H1 & H2). apply IH in H2 as (l & Hl & H2).
    exists (a :: l). rewrite Hl. simpl. by rewrite H1.
  - done.
Qed.

(** ** Imports *)

Lemma imports_app l1 l2 : imports (l1 ++ l2) = gseq (imports l1) (imports l2).
Proof. induction l1 as [|s l1 IH]; simpl; [done | by rewrite IH, gseq_assoc]. Qed.

Lemma importsOfStatement_declareModule x body :
  importsOfStatement (declareModule x body) = imports body.
Proof. simpl. induction body as [|s body IH]; simpl; [done | by rewrite IH]. Qed.

Lemma imports_declareModule pre x body post :
  imports (pre ++ declareModule x body :: post) = imports (pre ++ body ++ post).
Proof.
  rewrite !imports_app.
  change (imports (declareModule x body :: post))
    with (gseq (importsOfStatement (declareModule x body)) (imports post)).
  by rewrite importsOfStatement_declareModule.
Qed.

Lemma importsOfStatement_target s t :
  importTarget s = Some t -> importsOfStatement s = GYield t GDone.
Proof.
  destruct s as [[]|[[]|]|[[[]|]|]|[[] []]| | | | | | | | |]; simpl; try done;
    by intros [= ->].
Qed.

Lemma imports_elem sts s l :
  s ∈ sts -> arrayFrom (imports sts) = Ok l ->
  exists l', arrayFrom (importsOfStatement s) = Ok l' /\ l' ⊆ l.
Proof.
  intros Hs. apply list_elem_of_split in Hs as (pre & post & ->).
  rewrite imports_app. simpl. intros H.
  apply arrayFrom_gseq in H as (l1 & l2 & _ & H & ->).
  apply arrayFrom_gseq in H as (l' & l3 & H & _ & ->).
  exists l'. split; [done|]. set_solver.
Qed.

Lemma imports_written sts s t l :
  WrittenIn s sts -> importTarget s = Some t ->
  arrayFrom (imports sts) = Ok l -> t ∈ l.
Proof.
  intros Hw Ht. revert l. induction Hw as [sts Hs|x body sts Hm Hw IH]; intros l Hl.
  - destruct (imports_elem _ _ _ Hs Hl) as (l' & Hl' & Hsub).
    rewrite (importsOfStatement_target _ _ Ht) in Hl'. simpl in Hl'.
    injection Hl' as <-. set_solver.
  - destruct (imports_elem _ _ _ Hm Hl) as (l' & Hl' & Hsub).
    rewrite importsOfStatement_declareModule in Hl'. apply Hsub. by apply IH.
Qed.

(** ** The path functions on Node's documented examples *)

Example normalize_documented :
  path.normalize "/foo/bar//baz/asdf/quux/.." = "/foo/bar/baz/asdf".
Proof. reflexivity. Qed.

Example normalize_parent : path.normalize "./../x.d.ts" = "../x.d.ts".
Proof. reflexivity. Qed.

Example normalize_trailing : path.normalize "a/b/../../c/./d/" = "c/d/".
Proof. reflexivity. Qed.

Example normalize_here : path.normalize "./." = ".".
Proof. reflexivity. Qed.

Example normalize_above : path.normalize "a/../.." = "..".
Proof. reflexivity. Qed.

Example normalize_root : path.normalize "/../a//b" = "/a/b".
Proof. reflexivity. Qed.

Example dirname_documented : path.dirname "/foo/bar/baz/asdf/quux" = "/foo/bar/baz/asdf".
Proof. reflexivity. Qed.

Example dirname_plain : path.dirname "index.d.ts" = ".".
Proof. reflexivity. Qed.

Example dirname_trailing : path.dirname "a/b/" = "a".
Proof. reflexivity. Qed.

Example basename_documented : path.basename "/foo/bar/baz/asdf/quux.html" = "quux.html".
Proof. reflexivity. Qed.

Example basename_trailing : path.basename "foo/bar/" = "bar".
Proof. reflexivity. Qed.

Example join_documented : path.join "/foo/bar" "baz/asdf/.." = "/foo/bar/baz".
Proof. reflexivity. Qed.

(** ** Dependency roots *)

Example rootName_scoped : rootName "@scope/pkg/sub" = "@scope/pkg".
Proof. reflexivity. Qed.

Example rootName_path : rootName "foo/bar/baz" = "foo".
Proof. reflexivity. Qed.

Example rootName_plain : rootName "foo" = "foo".
Proof. reflexivity. Qed.

Example rootName_scope_only : rootName "@scope" = "@scope".
Proof. reflexivity. Qed.

(** ** Derived module names *)

Lemma properModuleName_index folderName fileName :
  path.basename fileName = "index.d.ts" ->
  properModuleName folderName fileName =
    Ok (if decide (path.dirname fileName = ".") then folderName
        else folderName +:+ "/" +:+ path.dirname fileName).
Proof.
  intros Hb. unfold properModuleName. rewrite Hb. simpl.
  destruct (String.eqb_spec (path.dirname fileName) "."); case_decide; done.
Qed.

Lemma properModuleName_other folderName stem :
  path.basename (stem +:+ ".d.ts") <> "index.d.ts" ->
  properModuleName folderName (stem +:+ ".d.ts") =
    Ok (if decide (stem = ".") then folderName else folderName +:+ "/" +:+ stem).
Proof.
  intros Hb. unfold properModuleName.
  destruct (String.eqb_spec (path.basename (stem +:+ ".d.ts")) "index.d.ts"); [done|].
  rewrite withoutExtension_append. simpl.
  destruct (String.eqb_spec stem "."); case_decide; done.
Qed.

Lemma properModuleName_no_extension folderName fileName :
  path.basename fileName <> "index.d.ts" ->
  JS.endsWith fileName ".d.ts" = false ->
  properModuleName folderName fileName = Throw AssertionError.
Proof.
  intros Hb He. unfold properModuleName, withoutExtension.
  destruct (String.eqb_spec (path.basename fileName) "index.d.ts"); [done|].
  by rewrite He.
Qed.

(** C3, as stated, fails: with the file path given below the package's own
    folder, as the claim writes it, the package name is joined in front once
    more, and ["foo/index.d.ts"] in package ["foo"] is named ["foo/foo"]. *)
Lemma properModuleName_claimed_examples_fail :
  properModuleName "foo" "foo/index.d.ts" = Ok "foo/foo"
  /\ properModuleName "foo" "foo/bar.d.ts" = Ok "foo/foo/bar"
  /\ properModuleName "foo" "foo/bar/index.d.ts" = Ok "foo/foo/bar"
  /\ ~ (properModuleName "foo" "foo/index.d.ts" = Ok "foo"
        /\ properModuleName "foo" "foo/bar.d.ts" = Ok "foo/bar"
        /\ properModuleName "foo" "foo/bar/index.d.ts" = Ok "foo/bar").
Proof.
  split; [reflexivity|]. split; [reflexivity|]. split; [reflexivity|].
  intros [H _]. vm_compute in H. discriminate.
Qed.

(** C3, amended: file paths are relative to the package directory.  In
    package ["foo"] the file ["index.d.ts"] declares ["foo"], ["bar.d.ts"]
    declares ["foo/bar"] and ["bar/index.d.ts"] declares ["foo/bar"].  In
    general the part of the name that comes from the file is its parent
    directory when its base name is ["index.d.ts"], and otherwise its path
    with the extension [".d.ts"] stripped; the module name is the package
    name when that part is ["."], and otherwise the package name, a slash,
    and that part.  A path that has neither form fails the assertion. *)
Theorem properModuleName_relative_to_package :
  properModuleName "foo" "index.d.ts" = Ok "foo"
  /\ properModuleName "foo" "bar.d.ts" = Ok "foo/bar"
  /\ properModuleName "foo" "bar/index.d.ts" = Ok "foo/bar"
  /\ (forall folderName fileName,
        path.basename fileName = "index.d.ts" ->
        properModuleName folderName fileName =
          Ok (if decide (path.dirname fileName = ".") then folderName
              else folderName +:+ "/" +:+ path.dirname fileName))
  /\ (forall folderName stem,
        path.basename (stem +:+ ".d.ts") <> "index.d.ts" ->
        properModuleName folderName (stem +:+ ".d.ts") =
          Ok (if decide (stem = ".") then folderName
              else folderName +:+ "/" +:+ stem))
  /\ (forall folderName fileName,
        path.basename fileName <> "index.d.ts" ->
        JS.endsWith fileName ".d.ts" = false ->
        properModuleName folderName fileName = Throw AssertionError).
Proof.
  split; [reflexivity|]. split; [reflexivity|]. split; [reflexivity|].
  split; [exact properModuleName_index|].
  split; [exact properModuleName_other | exact properModuleName_no_extension].
Qed.

Lemma properModuleName_relative_to_package_witness :
  properModuleName "jquery" "plugins/index.d.ts" = Ok "jquery/plugins"
  /\ properModuleName "jquery" ("plugins/tabs" +:+ ".d.ts") = Ok "jquery/plugins/tabs"
  /\ properModuleName "jquery" "plugins/tabs.ts" = Throw AssertionError.
Proof.
  destruct properModuleName_relative_to_package as (_ & _ & _ & Hi & Ho & Hn).
  split; [exact (Hi "jquery" "plugins/index.d.ts" eq_refl)|].
  split.
  - apply (Ho "jquery" "plugins/tabs"). vm_compute. discriminate.
  - apply (Hn "jquery" "plugins/tabs.ts"); [vm_compute; discriminate | reflexivity].
Defined.

(** ** Dependencies *)

Lemma addDependency_self packageName c : addDependency packageName packageName c = c.
Proof. unfold addDependency. case_decide; done. Qed.

Lemma addDependency_keeps_out packageName dependency c :
  packageName ∉ cDependencies c ->
  packageName ∉ cDependencies (addDependency packageName dependency c).
Proof.
  intros Hc. unfold addDependency.
  destruct (decide (dependency ≠ packageName)) as [Hne|]; simpl; [|done].
  rewrite not_elem_of_union, not_elem_of_singleton. split; [congruence | done].
Qed.

Lemma visitGlobalStatement_dependencies packageName node c c' :
  visitGlobalStatement packageName node c = Ok c' ->
  cDependencies c' = cDependencies c.
Proof.
  destruct node as [| | |[n b]| | |[]|[]| | | | |]; simpl; intros H;
    try (by inversion H).
  - destruct n as [t|t]; simpl in H.
    + apply bind_Ok in H as (b' & ? & H). inversion H; subst. by destruct b'.
    + apply bind_Ok in H as (b' & ? & H). by inversion H; subst.
  - inversion H; subst. clear H.
    apply (fold_left_invariant (fun c' => cDependencies c' = cDependencies c)); [|done].
    intros [t|] s Hs; done.
Qed.

Lemma visitSourceFile_keeps_out packageName sourceFile c c' :
  packageName ∉ cDependencies c ->
  visitSourceFile packageName sourceFile c = Ok c' ->
  packageName ∉ cDependencies c'.
Proof.
  intros Hc H. unfold visitSourceFile in H.
  apply bind_Ok in H as (c1 & H1 & H).
  assert (Hc1 : packageName ∉ cDependencies c1).
  { eapply (forOf_invariant (fun c => packageName ∉ cDependencies c)); [ | exact Hc | exact H1].
    intros ref s s' Hs Hb. inversion Hb; subst.
    destruct (negb _); [by apply addDependency_keeps_out | done]. }
  remember (fold_left (fun c ref => addDependency packageName ref c)
              (typeReferenceDirectives sourceFile) c1) as c2 eqn:E.
  assert (Hc2 : packageName ∉ cDependencies c2).
  { subst c2. apply (fold_left_invariant (fun c => packageName ∉ cDependencies c)); [|done].
    intros. by apply addDependency_keeps_out. }
  clear E.
  destruct (isExternalModule sourceFile).
  - destruct (sourceFileExportsSomething sourceFile).
    + apply bind_Ok in H as (name & ? & H). inversion H; subst.
      by destruct (find _ _) as [[]|].
    + by inversion H; subst.
  - eapply (forEach_invariant (fun c => packageName ∉ cDependencies c)); [ | exact Hc2 | exact H].
    intros node s s' _ Hs Hv. by rewrite (visitGlobalStatement_dependencies _ _ _ _ Hv).
Qed.

(** C9: when [getModuleInfo] succeeds, under any schedule of the reads, the
    dependencies it returns do not contain the package's own name: recording
    the package's name itself as a dependency, be it from a type-reference
    directive or as the root of an import, changes nothing and raises no
    error. *)
Theorem getModuleInfo_never_depends_on_itself
    (disk : Disk) (sched : list nat) (packageName directory : string)
    (entryFilenames : list string) (info : ModuleInfo) :
  getModuleInfo disk sched packageName directory entryFilenames = Some (Ok info) ->
  (packageName ∉ dependencies info)
  /\ (forall c, addDependency packageName packageName c = c)
  /\ (forall c ref, rootName ref = packageName ->
        addDependency packageName (rootName ref) c = c).
Proof.
  intros H. split; [|split].
  - unfold getModuleInfo in H.
    destruct (allReferencedFiles _ _ _ _) as [[lines [all|e]]|]; [|done..].
    simpl in H. injection H as H. unfold moduleInfoOf in H.
    apply bind_Ok in H as (c & Hc & H). inversion H; subst; simpl.
    eapply (forEach_invariant (fun c => packageName ∉ cDependencies c)); [ | | exact Hc].
    + intros src s s' _. apply visitSourceFile_keeps_out.
    + simpl. apply not_elem_of_empty.
  - apply addDependency_self.
  - intros c ref ->. apply addDependency_self.
Qed.

Lemma getModuleInfo_never_depends_on_itself_witness :
  exists info,
    getModuleInfo selfReferringDisk [0] "jquery" "jquery" ["index.d.ts"] = Some (Ok info)
    /\ "jquery" ∉ dependencies info.
Proof.
  eexists. split; [reflexivity|].
  eapply (getModuleInfo_never_depends_on_itself selfReferringDisk [0] "jquery" "jquery" ["index.d.ts"]).
  reflexivity.
Defined.

(** ** Value namespaces *)

Lemma isValueNamespace_block n sts :
  isValueNamespace (MkModuleDecl n (Some (ModuleBlock sts))) = some statementDeclaresValue sts.
Proof.
  simpl. induction sts as [|s sts IH]; simpl; [done|].
  destruct (statementDeclaresValue s) as [[]|]; simpl; done.
Qed.

Lemma isValueNamespace_nested n d :
  isValueNamespace (MkModuleDecl n (Some (NestedModule d))) = isValueNamespace d.
Proof. done. Qed.

Lemma valueNamespace_block n sts :
  valueNamespace (MkModuleDecl n (Some (ModuleBlock sts))) = existsb producesValue sts.
Proof. simpl. induction sts as [|s sts IH]; simpl; [done | by rewrite IH]. Qed.

Lemma valueNamespace_innermost ns :
  valueNamespace ns = existsb producesValue (innermostStatements ns).
Proof.
  induction ns as [n|n d IH|n sts _] using ModuleDecl_nested_ind.
  - done.
  - exact IH.
  - apply valueNamespace_block.
Qed.

Lemma wellFormedNamespace_block n sts :
  wellFormedNamespace (MkModuleDecl n (Some (ModuleBlock sts))) = forallb wellFormedStatement sts.
Proof. simpl. induction sts as [|s sts IH]; simpl; [done | by rewrite IH]. Qed.

(** [some] stops at the first element for which the function gives [true]
    or throws *)
Lemma some_app_false {A} (f : A -> Result bool) pre l :
  Forall (fun x => f x = Ok false) pre -> some f (pre ++ l) = some f l.
Proof.
  induction 1 as [|x pre Hx _ IH]; simpl; [done|]. by rewrite Hx.
Qed.

Lemma some_first_true {A} (f : A -> Result bool) pre x post :
  Forall (fun x => f x = Ok false) pre -> f x = Ok true ->
  some f (pre ++ x :: post) = Ok true.
Proof. intros Hpre Hx. rewrite some_app_false by done. simpl. by rewrite Hx. Qed.

Lemma some_first_throw {A} (f : A -> Result bool) pre x post e :
  Forall (fun x => f x = Ok false) pre -> f x = Throw e ->
  some f (pre ++ x :: post) = Throw e.
Proof. intros Hpre Hx. rewrite some_app_false by done. simpl. by rewrite Hx. Qed.

Lemma some_existsb {A} (f : A -> Result bool) (g : A -> bool) l :
  Forall (fun x => f x = Ok (g x)) l -> some f l = Ok (existsb g l).
Proof.
  induction 1 as [|x l Hx _ IH]; simpl; [done|].
  rewrite Hx. simpl. destruct (g x); simpl; done.
Qed.

Lemma isValueNamespace_wellFormed ns :
  wellFormedNamespace ns = true -> hasBody ns = true ->
  isValueNamespace ns = Ok (valueNamespace ns).
Proof.
  induction ns as [n|n d IH|n sts IH] using ModuleDecl_nested_ind; intros Hwf Hb.
  - discriminate.
  - simpl in Hwf. apply andb_true_iff in Hwf as [Hb' Hwf].
    rewrite isValueNamespace_nested. simpl. by apply IH.
  - rewrite isValueNamespace_block, valueNamespace_block.
    rewrite wellFormedNamespace_block in Hwf.
    apply some_existsb.
    rewrite forallb_forall in Hwf. apply Forall_forall. intros s Hs.
    rewrite Forall_forall in IH. specialize (IH s Hs).
    specialize (Hwf s (proj1 (list_elem_of_In _ _) Hs)).
    destruct s; simpl in *; try done.
    apply andb_true_iff in Hwf as [Hb' Hwf]. by apply IH.
Qed.

Lemma unrecognized_throws s :
  recognizedKind s = false ->
  statementDeclaresValue s = Throw (UnknownAmbientStatement (kindName s)).
Proof. destruct s; simpl; done. Qed.

Lemma visitGlobalStatement_namespace packageName name body c :
  visitGlobalStatement packageName (ModuleDeclaration (MkModuleDecl (Identifier name) body)) c
  = isValueNamespace (MkModuleDecl (Identifier name) body)
      ≫= λ b : bool, Ok (if b then addGlobal name c else c).
Proof. reflexivity. Qed.

(** C5: for an ambient namespace whose statements, at every nesting level,
    are of recognized kinds and whose nested namespaces all have bodies,
    [isValueNamespace] answers [true] exactly when the body left after
    unwrapping the nested single-child namespace bodies contains a variable
    statement, a class, a function or an enum declaration, or a nested
    namespace that is itself a value namespace; interface, type-alias and
    import-equals declarations give [false].  When the namespace is declared
    with a plain identifier in a file that is not an external module, its
    name is added to the globals in exactly that case: the namespace with
    only an interface adds nothing, the one with a class adds its name. *)
Theorem isValueNamespace_classifies (ns : ModuleDecl) :
  wellFormedNamespace ns = true ->
  (isValueNamespace ns = Ok true <->
     existsb producesValue (innermostStatements ns) = true)
  /\ (hasBody ns = true ->
      isValueNamespace ns = Ok (existsb producesValue (innermostStatements ns)))
  /\ (forall packageName name c,
        hasBody ns = true -> declName ns = Identifier name ->
        visitGlobalStatement packageName (ModuleDeclaration ns) c =
          Ok (if existsb producesValue (innermostStatements ns)
              then addGlobal name c else c))
  /\ (forall n, statementDeclaresValue (InterfaceDeclaration n) = Ok false
                /\ statementDeclaresValue (TypeAliasDeclaration n) = Ok false)
  /\ (forall r, statementDeclaresValue (ImportEqualsDeclaration r) = Ok false)
  /\ (exists info,
        moduleInfoOf "pkg" [("index.d.ts", scriptFile "index.d.ts" [typeOnlyNamespace])]
          = Ok info /\ globals info = [])
  /\ (exists info,
        moduleInfoOf "pkg" [("index.d.ts", scriptFile "index.d.ts" [classNamespace])]
          = Ok info /\ globals info = ["N"]).
Proof.
  intros Hwf. rewrite <- valueNamespace_innermost.
  split; [|split; [by apply isValueNamespace_wellFormed|split; [|split; [done|split; [done|split]]]]].
  - destruct (hasBody ns) eqn:E.
    + rewrite (isValueNamespace_wellFormed ns Hwf E).
      split; [by intros [= ->] | by intros ->].
    + destruct ns as [n [b|]]; [discriminate|]. simpl. split; discriminate.
  - intros packageName name c Hbody Hname.
    pose proof (isValueNamespace_wellFormed ns Hwf Hbody) as Hv.
    destruct ns as [n b]. simpl in Hname. subst n.
    rewrite visitGlobalStatement_namespace. by rewrite Hv.
  - eexists. split; reflexivity.
  - eexists. split; reflexivity.
Qed.

Lemma isValueNamespace_classifies_witness :
  isValueNamespace dottedNamespace = Ok true
  /\ visitGlobalStatement "pkg" (ModuleDeclaration dottedNamespace) emptyCollected
     = Ok (addGlobal "Outer" emptyCollected).
Proof.
  destruct (isValueNamespace_classifies dottedNamespace eq_refl) as (_ & H & Hg & _).
  split; [exact (H eq_refl)|].
  exact (Hg "pkg" "Outer" emptyCollected eq_refl eq_refl).
Defined.

(** C8, as stated, fails: a statement of a kind the classification does not
    know, placed after a statement that declares a value, is never looked at;
    the namespace is classified, and [getModuleInfo] goes on without an
    error. *)
Lemma unrecognized_statement_after_value_is_skipped :
  recognizedKind ExportAssignment = false
  /\ isValueNamespace classThenExportAssignment = Ok true
  /\ exists info,
       moduleInfoOf "pkg"
         [("index.d.ts",
           scriptFile "index.d.ts" [ModuleDeclaration classThenExportAssignment])]
       = Ok info /\ globals info = ["N"].
Proof.
  split; [reflexivity|]. split; [reflexivity|]. eexists. split; reflexivity.
Qed.

(** C8, amended: a namespace with no body is an error whenever it is
    classified, and a body-less nested namespace or a statement of a kind
    that is not recognized is an error when the classification reaches it.
    The statements of a body are examined in order, up to the first one that
    declares a value: when no statement before the offending one declares a
    value the error is raised, and when one does the answer is [true] and
    nothing after it is examined.  In a file that is not an external module
    the error of an identifier-named namespace ends the visit of the file. *)
Theorem classification_errors_when_reached :
  (forall n, isValueNamespace (MkModuleDecl n None) = Throw ShorthandAmbientModule)
  /\ (forall n pre s post,
        Forall (fun x => statementDeclaresValue x = Ok false) pre ->
        recognizedKind s = false ->
        isValueNamespace (MkModuleDecl n (Some (ModuleBlock (pre ++ s :: post))))
          = Throw (UnknownAmbientStatement (kindName s)))
  /\ (forall n pre m post,
        Forall (fun x => statementDeclaresValue x = Ok false) pre ->
        isValueNamespace
          (MkModuleDecl n
             (Some (ModuleBlock (pre ++ ModuleDeclaration (MkModuleDecl m None) :: post))))
          = Throw ShorthandAmbientModule)
  /\ (forall n pre s post,
        Forall (fun x => statementDeclaresValue x = Ok false) pre ->
        statementDeclaresValue s = Ok true ->
        isValueNamespace (MkModuleDecl n (Some (ModuleBlock (pre ++ s :: post)))) = Ok true)
  /\ (forall n d e,
        isValueNamespace d = Throw e ->
        isValueNamespace (MkModuleDecl n (Some (NestedModule d))) = Throw e)
  /\ (forall packageName name body c e,
        isValueNamespace (MkModuleDecl (Identifier name) body) = Throw e ->
        visitGlobalStatement packageName
          (ModuleDeclaration (MkModuleDecl (Identifier name) body)) c = Throw e).
Proof.
  split; [done|]. split; [|split; [|split; [|split]]].
  - intros n pre s post Hpre Hs. rewrite isValueNamespace_block.
    apply some_first_throw; [done | by apply unrecognized_throws].
  - intros n pre m post Hpre. rewrite isValueNamespace_block.
    by apply some_first_throw.
  - intros n pre s post Hpre Hs. rewrite isValueNamespace_block.
    by apply some_first_true.
  - done.
  - intros packageName name body c e H. rewrite visitGlobalStatement_namespace. by rewrite H.
Qed.

Lemma classification_errors_when_reached_witness :
  isValueNamespace
    (MkModuleDecl (Identifier "N")
       (Some (ModuleBlock ([InterfaceDeclaration "I"] ++ ExportAssignment
                             :: [ClassDeclaration (Some "C")]))))
  = Throw (UnknownAmbientStatement "ExportAssignment").
Proof.
  destruct classification_errors_when_reached as (_ & H & _).
  apply (H (Identifier "N") [InterfaceDeclaration "I"] ExportAssignment
           [ClassDeclaration (Some "C")]); [|reflexivity].
  by repeat constructor.
Defined.

(** ** Declared modules *)

Lemma sourceFileExportsSomething_spec src :
  sourceFileExportsSomething src = exportsSomething (statements src).
Proof.
  unfold sourceFileExportsSomething, exportsSomething.
  induction (statements src) as [|s sts IH]; simpl; [done|]. rewrite IH. f_equal.
  destruct s as [| | |[[] ?]| | | | | | | | |]; done.
Qed.

Lemma addDependency_declaredModules packageName dependency c :
  cDeclaredModules (addDependency packageName dependency c) = cDeclaredModules c.
Proof. unfold addDependency. by destruct (decide _). Qed.

Lemma visitGlobalStatement_declaredModules packageName node c c' :
  visitGlobalStatement packageName node c = Ok c' ->
  cDeclaredModules c' = cDeclaredModules c ++ stringKeyedModuleNames [node].
Proof.
  destruct node as [| | |[n b]| | |[]|[]| | | | |]; simpl; intros H;
    try (injection H as <-; simpl; by rewrite app_nil_r).
  - destruct n as [t|t]; simpl in H.
    + apply bind_Ok in H as (b' & ? & H). injection H as <-.
      destruct b'; simpl; by rewrite app_nil_r.
    + apply bind_Ok in H as (t' & Ht & H). injection H as <-. simpl.
      unfold assertNoWindowsSlashes in Ht. destruct (hasWindowsSlashes t); [done|].
      by injection Ht as <-.
  - injection H as <-. rewrite app_nil_r.
    apply (fold_left_invariant (fun c' => cDeclaredModules c' = cDeclaredModules c)); [|done].
    intros [t|] s Hs; done.
Qed.

Lemma forEach_visitGlobalStatement_declaredModules packageName sts c c' :
  forEach sts (visitGlobalStatement packageName) c = Ok c' ->
  cDeclaredModules c' = cDeclaredModules c ++ stringKeyedModuleNames sts.
Proof.
  revert c. induction sts as [|s sts IH]; intros c H; simpl in H.
  - injection H as <-. simpl. by rewrite app_nil_r.
  - apply bind_Ok in H as (c1 & H1 & H).
    rewrite (IH _ H), (visitGlobalStatement_declaredModules _ _ _ _ H1).
    rewrite <- app_assoc. f_equal. unfold stringKeyedModuleNames. simpl.
    by rewrite app_nil_r.
Qed.

Lemma visitSourceFile_declaredModules packageName src c c' :
  visitSourceFile packageName src c = Ok c' ->
  cDeclaredModules c' = cDeclaredModules c ++ declaredBy packageName src.
Proof.
  intros H. unfold visitSourceFile in H.
  apply bind_Ok in H as (c1 & H1 & H).
  assert (Hc1 : cDeclaredModules c1 = cDeclaredModules c).
  { eapply (forOf_invariant (fun s => cDeclaredModules s = cDeclaredModules c));
      [ | reflexivity | exact H1].
    intros ref s s' Hs [= <-].
    destruct (negb _); [by rewrite addDependency_declaredModules | done]. }
  remember (fold_left (fun c ref => addDependency packageName ref c)
              (typeReferenceDirectives src) c1) as c2 eqn:E.
  assert (Hc2 : cDeclaredModules c2 = cDeclaredModules c).
  { subst c2.
    apply (fold_left_invariant (fun s => cDeclaredModules s = cDeclaredModules c)); [|done].
    intros a s Hs. by rewrite addDependency_declaredModules. }
  clear E. unfold declaredBy. rewrite <- Hc2.
  rewrite sourceFileExportsSomething_spec in H.
  destruct (isExternalModule src).
  - destruct (exportsSomething (statements src)).
    + apply bind_Ok in H as (name & Hn & H). rewrite Hn. injection H as <-.
      by destruct (find _ _) as [[]|].
    + injection H as <-. by rewrite app_nil_r.
  - by apply (forEach_visitGlobalStatement_declaredModules packageName).
Qed.

Lemma forEach_visitSourceFile_declaredModules packageName files c c' :
  forEach files (visitSourceFile packageName) c = Ok c' ->
  cDeclaredModules c' = cDeclaredModules c ++ flat_map (declaredBy packageName) files.
Proof.
  revert c. induction files as [|src files IH]; intros c H; simpl in H.
  - injection H as <-. simpl. by rewrite app_nil_r.
  - apply bind_Ok in H as (c1 & H1 & H).
    rewrite (IH _ H), (visitSourceFile_declaredModules _ _ _ _ H1).
    simpl. by rewrite <- app_assoc.
Qed.

Lemma only_imports_exports_nothing sts :
  forallb isImportStatement sts = true ->
  exportsSomething sts = false /\ stringKeyedModuleNames sts = [].
Proof.
  induction sts as [|s sts IH]; simpl; [done|].
  intros [Hs Hsts]%andb_true_iff. destruct (IH Hsts) as [IH1 IH2].
  unfold exportsSomething in *. simpl. rewrite IH1, IH2, Hs. simpl.
  destruct s; simpl in *; done.
Qed.

Lemma exportsSomething_iff sts :
  exportsSomething sts = true <->
  exists s, s ∈ sts /\ isImportStatement s = false /\ isStringKeyedModule s = false.
Proof.
  unfold exportsSomething. rewrite existsb_exists. split.
  - intros (s & Hs & H). exists s. apply andb_true_iff in H as [H1 H2].
    apply negb_true_iff in H1, H2. by rewrite list_elem_of_In.
  - intros (s & Hs & H1 & H2). exists s. rewrite <- list_elem_of_In, H1, H2. done.
Qed.

Lemma visitSourceFile_ok_properModuleName packageName src c c' :
  visitSourceFile packageName src c = Ok c' ->
  isExternalModule src = true -> exportsSomething (statements src) = true ->
  exists name, properModuleName packageName (fileName src) = Ok name.
Proof.
  intros H He Hx. unfold visitSourceFile in H.
  apply bind_Ok in H as (c1 & H1 & H).
  rewrite He, sourceFileExportsSomething_spec, Hx in H.
  apply bind_Ok in H as (name & Hn & H). eauto.
Qed.

Lemma forEach_elem_ok {A S} (body : A -> S -> Result S) l s s' a :
  forEach l body s = Ok s' -> a ∈ l -> exists t t', body a t = Ok t'.
Proof.
  revert s. induction l as [|b l IH]; intros s H Ha; [by apply elem_of_nil in Ha|].
  simpl in H. apply bind_Ok in H as (s1 & H1 & H).
  apply elem_of_cons in Ha as [->|Ha]; eauto.
Qed.

(** C2, as stated, fails: a file that is not an external module, and
    exports nothing, still gives names to [declaredModules]: the string
    literals of its top-level ambient module declarations. *)
Lemma script_file_declares_modules :
  let src := createSourceFile "index.d.ts" (fileContent [] [] [declareModule "x" []] false) in
  isExternalModule src = false
  /\ sourceFileExportsSomething src = false
  /\ exists info,
       getModuleInfo ambientModuleDisk [0] "pkg" "pkg" ["index.d.ts"] = Some (Ok info)
       /\ declFiles info = ["index.d.ts"]
       /\ declaredModules info = ["x"].
Proof.
  split; [reflexivity|]. split; [reflexivity|]. eexists. split; [reflexivity|]. split; reflexivity.
Qed.

(** C2, amended: when [getModuleInfo] succeeds, [declaredModules] is made,
    file by file, of the following names.  A file that is an external module
    gives its derived module name if and only if it exports something, where
    a file exports something exactly when it has a top-level statement that
    is neither an import statement nor an ambient module declaration keyed
    by a string literal.  A file that is not an external module gives the
    string literals that key its top-level ambient module declarations.  A
    file that contains only import statements gives nothing. *)
Theorem declaredModules_by_file
    (disk : Disk) (sched : list nat) (packageName directory : string)
    (entryFilenames : list string) (info : ModuleInfo) :
  getModuleInfo disk sched packageName directory entryFilenames = Some (Ok info) ->
  exists lines all,
    allReferencedFiles disk sched directory entryFilenames = Some (lines, Ok all)
    /\ declaredModules info = flat_map (declaredBy packageName) (values all)
    /\ forall src, src ∈ values all ->
         sourceFileExportsSomething src = exportsSomething (statements src)
         /\ (exportsSomething (statements src) = true <->
             exists s, s ∈ statements src
                       /\ isImportStatement s = false /\ isStringKeyedModule s = false)
         /\ (isExternalModule src = true -> exportsSomething (statements src) = true ->
             exists name, properModuleName packageName (fileName src) = Ok name
                          /\ declaredBy packageName src = [name])
         /\ (isExternalModule src = true -> exportsSomething (statements src) = false ->
             declaredBy packageName src = [])
         /\ (isExternalModule src = false ->
             declaredBy packageName src = stringKeyedModuleNames (statements src))
         /\ (forallb isImportStatement (statements src) = true ->
             declaredBy packageName src = []).
Proof.
  intros H. unfold getModuleInfo in H.
  destruct (allReferencedFiles _ _ _ _) as [[lines [all|e]]|]; [|done..].
  simpl in H. injection H as H. unfold moduleInfoOf in H.
  apply bind_Ok in H as (c & Hc & H). injection H as <-. simpl.
  exists lines, all. split; [done|]. split.
  - by rewrite (forEach_visitSourceFile_declaredModules _ _ _ _ Hc).
  - intros src Hsrc.
    split; [apply sourceFileExportsSomething_spec|].
    split; [apply exportsSomething_iff|].
    unfold declaredBy. split; [|split; [|split]].
    + intros He Hx. rewrite He, Hx.
      destruct (forEach_elem_ok _ _ _ _ _ Hc Hsrc) as (t & t' & Ht).
      destruct (visitSourceFile_ok_properModuleName _ _ _ _ Ht He Hx) as (name & Hn).
      exists name. by rewrite Hn.
    + by intros -> ->.
    + by intros ->.
    + intros Hi. destruct (only_imports_exports_nothing _ Hi) as [-> ->].
      by destruct (isExternalModule src).
Qed.

Lemma declaredModules_by_file_witness :
  getModuleInfo augmentationDisk [0; 0; 0] "pkg" "pkg" ["index.d.ts"]
  = Some (Ok augmentationInfo)
  /\ declaredModules augmentationInfo
     = flat_map (declaredBy "pkg")
         [createSourceFile "index.d.ts"
            (fileContent [] [] [importFrom "./extra"; ExportAssignment] true);
          createSourceFile "extra.d.ts" (fileContent [] [] [importFrom "./index"] true)].
Proof.
  assert (Hrun : getModuleInfo augmentationDisk [0; 0; 0] "pkg" "pkg" ["index.d.ts"]
                 = Some (Ok augmentationInfo)) by (vm_compute; reflexivity).
  split; [exact Hrun|].
  destruct (declaredModules_by_file _ _ _ _ _ _ Hrun) as (lines & all & Hall & Hd & _).
  rewrite Hd. f_equal.
  vm_compute in Hall. by injection Hall as _ <-.
Defined.

(** ** Imports inside string-named modules *)

Lemma arrayFrom_yieldEach {A B} (keep : A -> bool) (f : A -> Result B) (g : Gen A) refs :
  arrayFrom (yieldEach keep f g) = Ok refs ->
  exists l, arrayFrom g = Ok l
    /\ forall a, a ∈ l -> keep a = true -> exists b, f a = Ok b /\ b ∈ refs.
Proof.
  revert refs. induction g as [|a g IH|e]; intros refs H; simpl in H.
  - exists []. split; [done|]. intros a Ha. by apply elem_of_nil in Ha.
  - destruct (keep a) eqn:Hk.
    + destruct (f a) as [b|e] eqn:Hf; [|done]. simpl in H.
      apply bind_Ok in H as (refs' & H & [= <-]).
      destruct (IH _ H) as (l & Hl & Hall).
      exists (a :: l). simpl. rewrite Hl. split; [done|].
      intros a' [->|Ha]%elem_of_cons Hk'.
      * exists b. split; [done | by left].
      * destruct (Hall a' Ha Hk') as (b' & ? & ?). exists b'. split; [done | by right].
    + destruct (IH _ H) as (l & Hl & Hall).
      exists (a :: l). simpl. rewrite Hl. split; [done|].
      intros a' [->|Ha]%elem_of_cons Hk'; [congruence | eauto].
  - done.
Qed.

Lemma referencedFiles_import src sub dir refs l t :
  arrayFrom (referencedFiles src sub dir) = Ok refs ->
  arrayFrom (imports (statements src)) = Ok l ->
  t ∈ l -> JS.startsWith t "." = true ->
  exists r, addReference src sub dir {| exact := false; text := t |} = Ok r /\ r ∈ refs.
Proof.
  intros H Hl Ht Hrel. unfold referencedFiles in H.
  apply arrayFrom_gseq in H as (l1 & l2 & _ & H & ->).
  apply arrayFrom_yieldEach in H as (l' & Hl' & Hall).
  rewrite Hl in Hl'. injection Hl' as <-.
  destruct (Hall t Ht Hrel) as (r & Hr & Hin). exists r. split; [done|].
  apply elem_of_app. by right.
Qed.

Lemma referencedFiles_ok_imports src sub dir refs :
  arrayFrom (referencedFiles src sub dir) = Ok refs ->
  exists l, arrayFrom (imports (statements src)) = Ok l.
Proof.
  intros H. unfold referencedFiles in H.
  apply arrayFrom_gseq in H as (l1 & l2 & _ & H & ->).
  apply arrayFrom_yieldEach in H as (l' & Hl' & _). eauto.
Qed.

(** the dependencies after the first loop of [visitSourceFile] *)
Lemma forEach_import_dependencies packageName l c c' :
  forEach l (fun ref c =>
     Ok (if negb (JS.startsWith ref ".")
         then addDependency packageName (rootName ref) c else c)) c = Ok c' ->
  forall d, d ∈ cDependencies c' <->
    d ∈ cDependencies c
    \/ (d <> packageName /\
        exists t, t ∈ l /\ JS.startsWith t "." = false /\ rootName t = d).
Proof.
  revert c. induction l as [|t l IH]; intros c H d; simpl in H.
  - injection H as <-. split; [by left|]. intros [?|(_ & t & Ht & _)]; [done|].
    by apply elem_of_nil in Ht.
  - rewrite (IH _ H d). clear IH H. destruct (JS.startsWith t ".") eqn:Hrel; simpl.
    + split.
      * intros [?|(? & t' & Ht' & ? & ?)]; [by left|].
        right. split; [done|]. exists t'. split; [by right | done].
      * intros [?|(? & t' & [->|Ht']%elem_of_cons & ? & ?)]; [by left | congruence |].
        right. split; [done|]. by exists t'.
    + unfold addDependency. destruct (decide (rootName t ≠ packageName)) as [Hne|Heq]; simpl.
      * rewrite elem_of_union, elem_of_singleton. split.
        -- intros [[->|?]|(? & t' & Ht' & ? & ?)].
           ++ right. split; [done|]. exists t. split; [by left | done].
           ++ by left.
           ++ right. split; [done|]. exists t'. split; [by right | done].
        -- intros [?|(? & t' & [->|Ht']%elem_of_cons & ? & ?)].
           ++ left. by right.
           ++ left. by left.
           ++ right. split; [done|]. by exists t'.
      * apply dec_stable in Heq. split.
        -- intros [?|(? & t' & Ht' & ? & ?)]; [by left|].
           right. split; [done|]. exists t'. split; [by right | done].
        -- intros [?|(? & t' & [->|Ht']%elem_of_cons & ? & ?)]; [by left | congruence |].
           right. split; [done|]. by exists t'.
Qed.

Lemma fold_addDependency_dependencies packageName l c :
  forall d, d ∈ cDependencies (fold_left (fun c ref => addDependency packageName ref c) l c) <->
    d ∈ cDependencies c \/ (d <> packageName /\ d ∈ l).
Proof.
  revert c. induction l as [|t l IH]; intros c d; simpl.
  - split; [by left|]. intros [?|[_ H]]; [done|]. by apply elem_of_nil in H.
  - rewrite IH. unfold addDependency. destruct (decide (t ≠ packageName)) as [Hne|Heq]; simpl.
    + rewrite elem_of_union, elem_of_singleton, elem_of_cons. naive_solver.
    + apply dec_stable in Heq. rewrite elem_of_cons. naive_solver.
Qed.

Lemma visitSourceFile_dependencies packageName src c c' :
  visitSourceFile packageName src c = Ok c' ->
  exists l, arrayFrom (imports (statements src)) = Ok l /\
  forall d, d ∈ cDependencies c' <->
    d ∈ cDependencies c
    \/ (d <> packageName /\
        ((exists t, t ∈ l /\ JS.startsWith t "." = false /\ rootName t = d)
         \/ d ∈ typeReferenceDirectives src)).
Proof.
  intros H. unfold visitSourceFile in H.
  apply bind_Ok in H as (c1 & H1 & H).
  apply forOf_arrayFrom in H1 as (l & Hl & H1).
  exists l. split; [done|]. intros d.
  pose proof (forEach_import_dependencies _ _ _ _ H1 d) as Hd1.
  pose proof (fold_addDependency_dependencies packageName (typeReferenceDirectives src) c1 d) as Hd2.
  remember (fold_left (fun c ref => addDependency packageName ref c)
              (typeReferenceDirectives src) c1) as c2 eqn:E. clear E.
  assert (Hc' : cDependencies c' = cDependencies c2).
  { destruct (isExternalModule src).
    - destruct (sourceFileExportsSomething src).
      + apply bind_Ok in H as (name & ? & H). injection H as <-.
        by destruct (find _ _) as [[]|].
      + by injection H as <-.
    - eapply (forEach_invariant (fun s => cDependencies s = cDependencies c2));
        [ | reflexivity | exact H].
      intros node s s' _ Hs Hv. by rewrite (visitGlobalStatement_dependencies _ _ _ _ Hv). }
  rewrite Hc', Hd2, Hd1. naive_solver.
Qed.

(** ** Resolving one reference *)

Lemma withoutTrailingSlash_slash s : withoutTrailingSlash (s +:+ "/") = s.
Proof.
  unfold withoutTrailingSlash. rewrite endsWith_append.
  unfold JS.slice0. rewrite length_append. simpl.
  replace (String.length s + 1 - 1) with (String.length s) by lia.
  apply substring_prefix.
Qed.

Lemma resolveModule_direct disk from dir t c :
  readFileAndThrowOnBOM disk dir (t +:+ ".d.ts") = Ok c ->
  resolveModule disk from dir t = ([], Ok (t +:+ ".d.ts", c)).
Proof. intros H. unfold resolveModule. by rewrite H. Qed.

Lemma resolveModule_index disk from dir t e c :
  readFileAndThrowOnBOM disk dir (t +:+ ".d.ts") = Throw e ->
  readFileAndThrowOnBOM disk dir (joinPaths (withoutTrailingSlash t) "index.d.ts") = Ok c ->
  resolveModule disk from dir t =
    ([], Ok (if decide (joinPaths (withoutTrailingSlash t) "index.d.ts" = "./index.d.ts")
             then "index.d.ts" else joinPaths (withoutTrailingSlash t) "index.d.ts", c)).
Proof.
  intros H1 H2. unfold resolveModule, readFileAndReportErrors. rewrite H1.
  fold (withoutTrailingSlash t). rewrite H2. simpl.
  destruct (String.eqb_spec (joinPaths (withoutTrailingSlash t) "index.d.ts") "./index.d.ts");
    case_decide; done.
Qed.

Lemma resolveModule_unreadable disk from dir t e e' :
  readFileAndThrowOnBOM disk dir (t +:+ ".d.ts") = Throw e ->
  readFileAndThrowOnBOM disk dir (joinPaths (withoutTrailingSlash t) "index.d.ts") = Throw e' ->
  resolveModule disk from dir t = ([cantBeRead dir from t], Throw e').
Proof.
  intros H1 H2. unfold resolveModule, readFileAndReportErrors. rewrite H1.
  fold (withoutTrailingSlash t). by rewrite H2.
Qed.

Lemma readReference_exact_ok disk from dir t c :
  readFileAndThrowOnBOM disk dir t = Ok c ->
  readReference disk dir (taskFor from true t) = ([], Ok (t, c)).
Proof. intros H. unfold readReference, readFileAndReportErrors. simpl. by rewrite H. Qed.

Lemma readReference_exact_unreadable disk from dir t e :
  readFileAndThrowOnBOM disk dir t = Throw e ->
  readReference disk dir (taskFor from true t) = ([cantBeRead dir from t], Throw e).
Proof. intros H. unfold readReference, readFileAndReportErrors. simpl. by rewrite H. Qed.

Lemma recurResume_unreadable disk dir task w lines e :
  readReference disk dir task = (lines, Throw e) ->
  recurResume disk dir task w = (console w ++ lines, Throw e).
Proof. intros H. unfold recurResume. by rewrite H. Qed.

(** C7, as stated, fails.  A failed read of an exact target is treated like
    the failed fallback read of a module-style reference: in both cases a
    line naming the referencing file and the reference text is written to
    [console.error] and the error of the read itself is thrown again, as it
    is.  And for the reference text ["."] the fallback reads
    ["./index.d.ts"] but the resolved file name is ["index.d.ts"]. *)
Lemma exact_and_module_read_failures_alike :
  readReference ∅ "pkg" (taskFor "index.d.ts" true "gone.d.ts")
    = (["In pkg, index.d.ts references gone.d.ts, which can't be read."],
       Throw (ReadFailure "pkg" "gone.d.ts"))
  /\ readReference ∅ "pkg" (taskFor "index.d.ts" false "gone")
    = (["In pkg, index.d.ts references gone, which can't be read."],
       Throw (ReadFailure "pkg" "gone/index.d.ts"))
  /\ readFileAndThrowOnBOM ∅ "pkg" "gone.d.ts" = Throw (ReadFailure "pkg" "gone.d.ts")
  /\ readFileAndThrowOnBOM ∅ "pkg" "gone/index.d.ts" = Throw (ReadFailure "pkg" "gone/index.d.ts")
  /\ resolveModule loneIndexDisk "sub/a.d.ts" "pkg" "."
    = ([], Ok ("index.d.ts", fileContent [] [] [] false))
  /\ joinPaths (withoutTrailingSlash ".") "index.d.ts" = "./index.d.ts".
Proof. repeat split; vm_compute; reflexivity. Qed.

(** C7, amended: for a module-style reference with text [t], resolution
    first reads [t + ".d.ts"]; if that read fails, with whatever error, it
    reads [t] minus a trailing slash joined with ["index.d.ts"], and the
    resolved file name is that path, except that ["./index.d.ts"] is resolved
    as ["index.d.ts"].  If the fallback read fails too, one line naming the
    directory, the referencing file and the reference text is written to
    [console.error] and the error of that read is thrown again unchanged.  A
    failed read of an exact target is handled in the same way, and a read
    that succeeds writes nothing.  The error rejects the walk with the lines
    written so far. *)
Theorem resolveModule_fallback_and_report (disk : Disk) (from dir t : string) :
  let dts := t +:+ ".d.ts" in
  let index := joinPaths (withoutTrailingSlash t) "index.d.ts" in
  (forall c, readFileAndThrowOnBOM disk dir dts = Ok c ->
             readReference disk dir (taskFor from false t) = ([], Ok (dts, c)))
  /\ (forall e c,
        readFileAndThrowOnBOM disk dir dts = Throw e ->
        readFileAndThrowOnBOM disk dir index = Ok c ->
        readReference disk dir (taskFor from false t)
        = ([], Ok (if decide (index = "./index.d.ts") then "index.d.ts" else index, c)))
  /\ (forall e e',
        readFileAndThrowOnBOM disk dir dts = Throw e ->
        readFileAndThrowOnBOM disk dir index = Throw e' ->
        readReference disk dir (taskFor from false t)
        = (["In " +:+ dir +:+ ", " +:+ from +:+ " references " +:+ t
              +:+ ", which can't be read."], Throw e'))
  /\ (forall c, readFileAndThrowOnBOM disk dir t = Ok c ->
                readReference disk dir (taskFor from true t) = ([], Ok (t, c)))
  /\ (forall e, readFileAndThrowOnBOM disk dir t = Throw e ->
                readReference disk dir (taskFor from true t)
                = (["In " +:+ dir +:+ ", " +:+ from +:+ " references " +:+ t
                      +:+ ", which can't be read."], Throw e))
  /\ (forall s, withoutTrailingSlash (s +:+ "/") = s)
  /\ (forall task w lines e,
        readReference disk dir task = (lines, Throw e) ->
        recurResume disk dir task w = (console w ++ lines, Throw e)).
Proof.
  intros dts index. split; [|split; [|split; [|split; [|split; [|split]]]]].
  - intros c H. by apply resolveModule_direct.
  - intros e c H1 H2. by apply (resolveModule_index _ _ _ _ e).
  - intros e e' H1 H2. by apply (resolveModule_unreadable _ _ _ _ e).
  - intros c H. by apply readReference_exact_ok.
  - intros e H. by apply readReference_exact_unreadable.
  - exact withoutTrailingSlash_slash.
  - intros task w lines e H. by apply recurResume_unreadable.
Qed.

Lemma resolveModule_fallback_and_report_witness :
  readReference augmentationDisk "pkg" (taskFor "index.d.ts" false "extra")
    = ([], Ok ("extra.d.ts", fileContent [] [] [importFrom "./index"] true))
  /\ readReference loneIndexDisk "pkg" (taskFor "a.d.ts" false "./")
    = ([], Ok ("index.d.ts", fileContent [] [] [] false))
  /\ readReference loneIndexDisk "pkg" (taskFor "a.d.ts" false "lib/")
    = (["In pkg, a.d.ts references lib/, which can't be read."],
       Throw (ReadFailure "pkg" "lib/index.d.ts")).
Proof.
  split; [|split].
  - destruct (resolveModule_fallback_and_report augmentationDisk "index.d.ts" "pkg" "extra")
      as (H & _).
    apply H. vm_compute. reflexivity.
  - destruct (resolveModule_fallback_and_report loneIndexDisk "a.d.ts" "pkg" "./")
      as (_ & H & _).
    apply (H (ReadFailure "pkg" "./.d.ts")); vm_compute; reflexivity.
  - destruct (resolveModule_fallback_and_report loneIndexDisk "a.d.ts" "pkg" "lib/")
      as (_ & _ & H & _).
    apply (H (ReadFailure "pkg" "lib/.d.ts") (ReadFailure "pkg" "lib/index.d.ts"));
      vm_compute; reflexivity.
Defined.

(** ** Test dependencies *)

Lemma forEach_app {A S} (body : A -> S -> Result S) l1 l2 s :
  forEach (l1 ++ l2) body s = forEach l1 body s ≫= forEach l2 body.
Proof.
  revert s. induction l1 as [|a l1 IH]; intros s; simpl; [done|].
  destruct (body a s) as [s'|e]; simpl; [apply IH | done].
Qed.

Lemma isOk_false {A} (r : Result A) : isOk r = false <-> exists e, r = Throw e.
Proof. destruct r; simpl; split; try done; [by intros [? ?] | eauto]. Qed.

(** the loop over the type-reference directives of a test file *)
Lemma testTypeReferences_ok pkgName (dependencies : gset string) filePath l (s : gset string) :
  existsb (fun r => bool_decide (r ∈ dependencies) || bool_decide (r = pkgName)) l = false ->
  exists s',
    forEach l
      (fun referencedPackage testDependencies =>
         if decide (referencedPackage ∈ dependencies)
         then Throw (TestRedundantReference filePath referencedPackage)
         else if decide (referencedPackage = pkgName)
         then Throw (TestSelfReference filePath)
         else Ok ({[referencedPackage]} ∪ testDependencies)) s = Ok s'
    /\ forall x, x ∈ s' <-> x ∈ s \/ x ∈ l.
Proof.
  revert s. induction l as [|r l IH]; intros s H; simpl in *.
  - exists s. split; [done|]. intros x. rewrite elem_of_nil. tauto.
  - apply orb_false_iff in H as [Hr Hl]. apply orb_false_iff in Hr as [Hr1 Hr2].
    apply bool_decide_eq_false in Hr1, Hr2.
    destruct (decide (r ∈ dependencies)); [done|].
    destruct (decide (r = pkgName)); [done|]. simpl.
    destruct (IH ({[r]} ∪ s) Hl) as (s' & Hs' & Hx). exists s'. split; [done|].
    intros x. rewrite Hx, elem_of_union, elem_of_singleton, elem_of_cons. tauto.
Qed.

Lemma testTypeReferences_violation pkgName (dependencies : gset string) filePath l (s : gset string) :
  existsb (fun r => bool_decide (r ∈ dependencies) || bool_decide (r = pkgName)) l = true ->
  exists e,
    forEach l
      (fun referencedPackage testDependencies =>
         if decide (referencedPackage ∈ dependencies)
         then Throw (TestRedundantReference filePath referencedPackage)
         else if decide (referencedPackage = pkgName)
         then Throw (TestSelfReference filePath)
         else Ok ({[referencedPackage]} ∪ testDependencies)) s = Throw e
    /\ (exists r, r ∈ l /\ (e = TestRedundantReference filePath r \/ e = TestSelfReference filePath)).
Proof.
  revert s. induction l as [|r l IH]; intros s H; simpl in *; [done|].
  destruct (decide (r ∈ dependencies)) as [Hin|Hnin].
  { eexists. split; [done|]. exists r. split; [by left | by left]. }
  destruct (decide (r = pkgName)) as [Heq|Hne].
  { eexists. split; [done|]. exists r. split; [by left | by right]. }
  rewrite (bool_decide_eq_false_2 _ Hnin), (bool_decide_eq_false_2 _ Hne) in H.
  simpl in H. destruct (IH ({[r]} ∪ s) H) as (e & He & r' & Hr' & Hk).
  exists e. split; [done|]. exists r'. split; [by right | done].
Qed.

(** the loop over the imports of a test file *)
Lemma testImports_ok pkgName (dependencies : gset string) g l (s : gset string) :
  arrayFrom g = Ok l ->
  exists s',
    forOf g
      (fun imported testDependencies =>
         Ok (if negb (JS.startsWith imported ".")
                && negb (bool_decide (imported ∈ dependencies))
                && negb (bool_decide (imported = pkgName))
             then {[imported]} ∪ testDependencies else testDependencies)) s = Ok s'
    /\ forall x, x ∈ s' <->
         x ∈ s \/ x ∈ filter (fun t => novelImport pkgName dependencies t = true) l.
Proof.
  revert l s. induction g as [|t g IH|e]; intros l s Hl; simpl in *.
  - injection Hl as <-. exists s. split; [done|]. intros x.
    rewrite filter_nil, elem_of_nil. tauto.
  - apply bind_Ok in Hl as (l' & Hl' & [= <-]).
    match goal with |- context [forOf g ?b ?s0] => destruct (IH l' s0 Hl') as (s' & Hs' & Hx) end.
    exists s'. split; [done|]. intros x. rewrite Hx. clear Hx Hs'.
    rewrite filter_cons. fold (novelImport pkgName dependencies t).
    destruct (novelImport pkgName dependencies t) eqn:Hn.
    + rewrite decide_True by done.
      rewrite elem_of_union, elem_of_singleton, elem_of_cons. tauto.
    + rewrite decide_False by done. tauto.
  - done.
Qed.

Lemma testImports_throw pkgName (dependencies : gset string) g e (s : gset string) :
  arrayFrom g = Throw e ->
  forOf g
    (fun imported testDependencies =>
       Ok (if negb (JS.startsWith imported ".")
              && negb (bool_decide (imported ∈ dependencies))
              && negb (bool_decide (imported = pkgName))
           then {[imported]} ∪ testDependencies else testDependencies)) s = Throw e.
Proof.
  revert s. induction g as [|t g IH|e']; intros s H; simpl in *.
  - discriminate.
  - destruct (arrayFrom g) as [l|e'] eqn:Hg; simpl in H; [discriminate|].
    injection H as ->. by apply IH.
  - by injection H as ->.
Qed.

Lemma visitTestFile_ok disk pkgName directory dependencies filename c l s :
  disk !! filename = Some c ->
  arrayFrom (imports (contentStatements c)) = Ok l ->
  testFileViolation pkgName dependencies c = false ->
  exists s',
    visitTestFile disk pkgName directory dependencies filename s = Ok s'
    /\ forall x, x ∈ s' <-> x ∈ s \/ x ∈ testFileTargets pkgName dependencies c.
Proof.
  intros Hc Hl Hv. unfold visitTestFile, readFileAndThrowOnBOM. rewrite Hc. simpl.
  unfold testFileViolation in Hv. apply orb_false_iff in Hv as [Hr Ht].
  destruct (contentReferencedFiles c); [|done]. simpl.
  destruct (testTypeReferences_ok pkgName dependencies
              (path.join pkgName filename) _ s Ht) as (s1 & Hs1 & Hx1).
  rewrite Hs1. simpl.
  destruct (testImports_ok pkgName dependencies _ _ s1 Hl) as (s2 & Hs2 & Hx2).
  exists s2. split; [exact Hs2|]. intros x. rewrite Hx2, Hx1.
  unfold testFileTargets. rewrite (arrayFrom_yielded _ _ Hl), elem_of_app. tauto.
Qed.

Lemma visitTestFile_violation disk pkgName directory dependencies filename c s :
  disk !! filename = Some c ->
  testFileViolation pkgName dependencies c = true ->
  exists e, visitTestFile disk pkgName directory dependencies filename s = Throw e.
Proof.
  intros Hc Hv. unfold visitTestFile, readFileAndThrowOnBOM. rewrite Hc. simpl.
  unfold testFileViolation in Hv.
  destruct (contentReferencedFiles c) as [|ref refs]; [|by eexists]. simpl in *.
  destruct (testTypeReferences_violation pkgName dependencies
              (path.join pkgName filename) _ s Hv) as (e & He & _).
  rewrite He. by eexists.
Qed.

Lemma visitTestFile_path_reference disk pkgName directory dependencies filename c ref refs s :
  disk !! filename = Some c ->
  contentReferencedFiles c = ref :: refs ->
  visitTestFile disk pkgName directory dependencies filename s
  = Throw (TestPathReference
            (path.join pkgName (fileName (createSourceFile filename c))) ref).
Proof.
  intros Hc Hr. unfold visitTestFile, readFileAndThrowOnBOM. rewrite Hc. simpl.
  by rewrite Hr.
Qed.

Lemma getTestDependencies_violation disk pkgName directory testFiles dependencies filename c :
  filename ∈ testFiles -> disk !! filename = Some c ->
  testFileViolation pkgName dependencies c = true ->
  isOk (getTestDependencies disk pkgName directory testFiles dependencies) = false.
Proof.
  intros Hf Hc Hv. unfold getTestDependencies.
  apply list_elem_of_split in Hf as (pre & post & ->).
  rewrite forEach_app.
  destruct (forEach pre _ ∅) as [s|e]; simpl; [|done].
  destruct (visitTestFile_violation disk pkgName directory dependencies filename c s Hc Hv)
    as (e & He).
  by rewrite He.
Qed.

Lemma forEach_visitTestFile disk pkgName directory dependencies testFiles s :
  forallb (testFileReadable disk) testFiles = true ->
  (forall f c, f ∈ testFiles -> disk !! f = Some c ->
               testFileViolation pkgName dependencies c = false) ->
  exists s',
    forEach testFiles (visitTestFile disk pkgName directory dependencies) s = Ok s'
    /\ forall x, x ∈ s' <->
         x ∈ s \/ exists f c, f ∈ testFiles /\ disk !! f = Some c
                              /\ x ∈ testFileTargets pkgName dependencies c.
Proof.
  revert s. induction testFiles as [|f fs IH]; intros s Hr Hv; simpl in *.
  - exists s. split; [done|]. intros x. split; [by left|].
    intros [?|(f & c & Hf & _)]; [done | by apply elem_of_nil in Hf].
  - apply andb_true_iff in Hr as [Hf Hfs]. unfold testFileReadable in Hf.
    destruct (disk !! f) as [c|] eqn:Hc; [|done].
    destruct (arrayFrom (imports (contentStatements c))) as [l|] eqn:Hl; [|done].
    destruct (visitTestFile_ok disk pkgName directory dependencies f c l s Hc Hl)
      as (s1 & Hs1 & Hx1).
    { apply (Hv f c); [by left | done]. }
    rewrite Hs1. simpl.
    destruct (IH s1 Hfs) as (s2 & Hs2 & Hx2).
    { intros f' c' Hf' Hc'. apply (Hv f' c'); [by right | done]. }
    exists s2. split; [done|]. intros x. rewrite Hx2, Hx1. split.
    + intros [[?|Hx]|(f' & c' & Hf' & Hc' & Hx)].
      * by left.
      * right. exists f, c. split; [by left | done].
      * right. exists f', c'. split; [by right | done].
    + intros [?|(f' & c' & [->|Hf']%elem_of_cons & Hc' & Hx)].
      * left. by left.
      * left. right. by rewrite Hc in Hc'; injection Hc' as <-.
      * right. by exists f', c'.
Qed.

(** C6, as stated, fails: [getTestDependencies] also fails when the imports
    of a test file cannot be collected (here [import x = require(y)], which
    [parseRequire] rejects) and when a test file cannot be read, although no
    test file has a path-style reference or an offending type-reference
    directive. *)
Lemma malformed_import_fails_test_dependencies :
  getTestDependencies badRequireTestDisk "pkg" "pkg" ["pkg-tests.ts"] ∅ = Throw TypeError
  /\ testFileViolation "pkg" ∅ badRequireContent = false
  /\ badRequireTestDisk !! "pkg-tests.ts" = Some badRequireContent
  /\ getTestDependencies ∅ "pkg" "pkg" ["pkg-tests.ts"] ∅
     = Throw (ReadFailure "pkg" "pkg-tests.ts").
Proof. repeat split; vm_compute; reflexivity. Qed.

(** C6, amended.  Whenever some test file has a path-style reference
    directive, or a type-reference directive whose target is a known
    dependency or the package's own name, [getTestDependencies] fails; the
    path-style reference is reported with the path of the file and the
    target.  When every test file can be read and its imports can be
    collected, these are the only failures, and on success the returned set
    is exactly the type-reference-directive targets together with the import
    targets that are not relative, not known dependencies and not the
    package's own name: an import of a known dependency is skipped without an
    error. *)
Theorem getTestDependencies_fails_iff_violation
    (disk : Disk) (pkgName directory : string) (testFiles : list string)
    (dependencies : gset string) :
  (forall f c, f ∈ testFiles -> disk !! f = Some c ->
     testFileViolation pkgName dependencies c = true ->
     isOk (getTestDependencies disk pkgName directory testFiles dependencies) = false)
  /\ (forall f c ref refs s,
        disk !! f = Some c -> contentReferencedFiles c = ref :: refs ->
        visitTestFile disk pkgName directory dependencies f s
        = Throw (TestPathReference
                   (path.join pkgName (fileName (createSourceFile f c))) ref))
  /\ (forallb (testFileReadable disk) testFiles = true ->
      (isOk (getTestDependencies disk pkgName directory testFiles dependencies) = false <->
         exists f c, f ∈ testFiles /\ disk !! f = Some c
                     /\ testFileViolation pkgName dependencies c = true)
      /\ (forall s,
            getTestDependencies disk pkgName directory testFiles dependencies = Ok s ->
            forall x, x ∈ s <->
              exists f c, f ∈ testFiles /\ disk !! f = Some c
                          /\ x ∈ testFileTargets pkgName dependencies c)).
Proof.
  split; [|split].
  - intros f c. apply getTestDependencies_violation.
  - intros f c ref refs s. apply visitTestFile_path_reference.
  - intros Hr.
    set (bad := fun f => match disk !! f with
                         | Some c => testFileViolation pkgName dependencies c
                         | None => false
                         end).
    assert (Hgood : existsb bad testFiles = false ->
              exists s, getTestDependencies disk pkgName directory testFiles dependencies = Ok s
                /\ forall x, x ∈ s <->
                     exists f c, f ∈ testFiles /\ disk !! f = Some c
                                 /\ x ∈ testFileTargets pkgName dependencies c).
    { intros Hb.
      destruct (forEach_visitTestFile disk pkgName directory dependencies testFiles ∅ Hr)
        as (s & Hs & Hx).
      - intros f c Hf Hc. destruct (testFileViolation pkgName dependencies c) eqn:Hv; [|done].
        assert (existsb bad testFiles = true); [|congruence].
        apply existsb_exists. exists f. split; [by apply list_elem_of_In|].
        unfold bad. by rewrite Hc.
      - exists s. split; [exact Hs|]. intros x. rewrite Hx, elem_of_empty. tauto. }
    assert (Hbad : existsb bad testFiles = true ->
              exists f c, f ∈ testFiles /\ disk !! f = Some c
                          /\ testFileViolation pkgName dependencies c = true).
    { intros (f & Hf & Hb)%existsb_exists. unfold bad in Hb.
      destruct (disk !! f) as [c|] eqn:Hc; [|done].
      exists f, c. by rewrite <- list_elem_of_In in Hf. }
    split.
    + split.
      * intros Hfail. destruct (existsb bad testFiles) eqn:Hb; [by apply Hbad|].
        destruct (Hgood eq_refl) as (s & Hs & _). by rewrite Hs in Hfail.
      * intros (f & c & Hf & Hc & Hv). by apply (getTestDependencies_violation _ _ _ _ _ f c).
    + intros s Hs. destruct (existsb bad testFiles) eqn:Hb.
      * destruct (Hbad eq_refl) as (f & c & Hf & Hc & Hv).
        pose proof (getTestDependencies_violation _ pkgName directory _ _ f c Hf Hc Hv) as Hfail.
        by rewrite Hs in Hfail.
      * destruct (Hgood eq_refl) as (s' & Hs' & Hx). rewrite Hs in Hs'. by injection Hs' as <-.
Qed.

Lemma getTestDependencies_fails_iff_violation_witness :
  getTestDependencies someTestsDisk "pkg" "pkg" ["pkg-tests.ts"] {["known"]}
  = Ok {["mocha"; "chai"]}
  /\ ("chai" ∈ ({["mocha"; "chai"]} : gset string) <->
      exists f c, f ∈ ["pkg-tests.ts"] /\ someTestsDisk !! f = Some c
                  /\ "chai" ∈ testFileTargets "pkg" {["known"]} c).
Proof.
  assert (Hrun : getTestDependencies someTestsDisk "pkg" "pkg" ["pkg-tests.ts"] {["known"]}
                 = Ok {["mocha"; "chai"]}) by (vm_compute; reflexivity).
  split; [exact Hrun|].
  destruct (getTestDependencies_fails_iff_violation
              someTestsDisk "pkg" "pkg" ["pkg-tests.ts"] {["known"]}) as (_ & _ & H).
  destruct H as [_ H]; [vm_compute; reflexivity|].
  exact (H _ Hrun "chai").
Defined.

(** ** The shared map *)

Lemma elem_of_keys_mapSet key value (m : FileMap) x :
  x ∈ keys (mapSet key value m) <-> x = key \/ x ∈ keys m.
Proof.
  unfold keys. induction m as [|[k v] m IH]; simpl.
  - rewrite elem_of_cons, elem_of_nil. tauto.
  - destruct (String.eqb_spec k key) as [->|Hne]; simpl.
    + rewrite !elem_of_cons. tauto.
    + rewrite !elem_of_cons, IH. tauto.
Qed.

Lemma NoDup_keys_mapSet key value (m : FileMap) :
  NoDup (keys m) -> NoDup (keys (mapSet key value m)).
Proof.
  unfold keys. induction m as [|[k v] m IH]; simpl; intros Hnd.
  - apply NoDup_singleton.
  - apply NoDup_cons in Hnd as [Hk Hnd].
    destruct (String.eqb_spec k key) as [->|Hne]; simpl.
    + by apply NoDup_cons.
    + apply NoDup_cons. split; [|by apply IH].
      intros Hin. apply (elem_of_keys_mapSet key value m k) in Hin as [?|?]; done.
Qed.

(** ** Entering calls *)

Lemma recurEnter_all from w ref : all (recurEnter from w ref) = all w.
Proof. unfold recurEnter. by destruct (decide _). Qed.

Lemma recurEnter_console from w ref : console (recurEnter from w ref) = console w.
Proof. unfold recurEnter. by destruct (decide _). Qed.

Lemma recurAll_all from refs w : all (recurAll from refs w) = all w.
Proof.
  unfold recurAll. revert w. induction refs as [|r refs IH]; intros w; simpl; [done|].
  by rewrite IH, recurEnter_all.
Qed.

Lemma recurAll_console from refs w : console (recurAll from refs w) = console w.
Proof.
  unfold recurAll. revert w. induction refs as [|r refs IH]; intros w; simpl; [done|].
  by rewrite IH, recurEnter_console.
Qed.

Lemma recurAll_seen from refs w x :
  x ∈ seenReferences (recurAll from refs w) <->
  x ∈ seenReferences w \/ x ∈ map text refs.
Proof.
  unfold recurAll. revert w. induction refs as [|r refs IH]; intros w; simpl.
  - rewrite elem_of_nil. tauto.
  - rewrite IH, elem_of_cons. unfold recurEnter.
    destruct (decide (text r ∈ seenReferences w)) as [Hin|Hnin]; simpl.
    + split; [tauto|]. intros [?|[->|?]]; tauto.
    + rewrite elem_of_union, elem_of_singleton. tauto.
Qed.

(** the calls that [recurAll] adds: one for each text that was not seen *)
Lemma recurAll_pending from refs w :
  exists new,
    pending (recurAll from refs w) = pending w ++ new
    /\ (forall t, t ∈ new ->
          reference t ∈ refs /\ text (reference t) ∉ seenReferences w)
    /\ (forall r, r ∈ refs -> text r ∉ seenReferences w ->
          exists t, t ∈ new /\ text (reference t) = text r).
Proof.
  unfold recurAll. revert w. induction refs as [|r refs IH]; intros w; simpl.
  - exists []. rewrite app_nil_r. split; [done|]. split.
    + intros t Ht. by apply elem_of_nil in Ht.
    + intros r Hr. by apply elem_of_nil in Hr.
  - destruct (IH (recurEnter from w r)) as (new & Hp & Hnew & Hall). clear IH.
    unfold recurEnter in *.
    destruct (decide (text r ∈ seenReferences w)) as [Hin|Hnin]; simpl in *.
    + exists new. split; [done|]. split.
      * intros t Ht. destruct (Hnew t Ht). split; [by right | done].
      * intros r' [->|Hr']%elem_of_cons Hs; [done | by apply Hall].
    + exists ({| referencedFrom := from; reference := r |} :: new).
      split; [by rewrite Hp, <- app_assoc|]. split.
      * intros t [->|Ht]%elem_of_cons; simpl; [split; [by left | done]|].
        destruct (Hnew t Ht) as [? Hs]. split; [by right|].
        intros ?. apply Hs. apply elem_of_union. by right.
      * intros r' [->|Hr']%elem_of_cons Hs.
        -- eexists. split; [by left | done].
        -- destruct (decide (text r' = text r)) as [Heq|Hne].
           ++ eexists. split; [by left | done].
           ++ destruct (Hall r' Hr') as (t & Ht & Htext).
              { rewrite elem_of_union, elem_of_singleton. tauto. }
              exists t. split; [by right | done].
Qed.

(** ** The measure of a walk *)

Lemma unseen_mono (seen seen' : gset string) texts :
  seen ⊆ seen' -> unseen seen' texts <= unseen seen texts.
Proof.
  intros Hsub. unfold unseen. induction texts as [|t texts IH]; simpl; [done|].
  rewrite !filter_cons.
  destruct (decide (t ∉ seen')) as [H'|H'], (decide (t ∉ seen)) as [H|H]; simpl; try lia.
  exfalso. apply H. intros ?. apply H'. by apply Hsub.
Qed.

Lemma unseen_insert (seen : gset string) texts t :
  t ∈ texts -> t ∉ seen -> unseen ({[t]} ∪ seen) texts < unseen seen texts.
Proof.
  intros Hin Hnin. unfold unseen. induction texts as [|x texts IH]; [by apply elem_of_nil in Hin|].
  rewrite !filter_cons.
  pose proof (unseen_mono seen ({[t]} ∪ seen) texts) as Hm. unfold unseen in Hm.
  assert (Hsub : seen ⊆ {[t]} ∪ seen) by (intros y ?; apply elem_of_union; by right).
  specialize (Hm Hsub).
  apply elem_of_cons in Hin as [<-|Hin].
  - rewrite (decide_False (P := t ∉ {[t]} ∪ seen)).
    + rewrite decide_True by done. simpl. lia.
    + intros H. apply H. apply elem_of_union. left. by apply elem_of_singleton.
  - specialize (IH Hin).
    destruct (decide (x ∉ {[t]} ∪ seen)) as [H'|H'], (decide (x ∉ seen)) as [H|H]; simpl; try lia.
    exfalso. apply H. intros ?. apply H'. by apply Hsub.
Qed.

Lemma recurAll_measure texts from refs w :
  (forall r, r ∈ refs -> text r ∈ texts) ->
  measure texts (recurAll from refs w) <= measure texts w.
Proof.
  unfold recurAll. revert w. induction refs as [|r refs IH]; intros w Hin; simpl; [done|].
  etransitivity; [apply IH; intros r' Hr'; apply Hin; by right|].
  unfold measure, recurEnter.
  destruct (decide (text r ∈ seenReferences w)) as [Hs|Hs]; simpl; [done|].
  rewrite length_app. simpl.
  pose proof (unseen_insert (seenReferences w) texts (text r) (Hin r ltac:(by left)) Hs).
  lia.
Qed.

(** ** References of a file *)

Lemma addReference_Ok src sub dir ref r :
  addReference src sub dir ref = Ok r <->
  hasWindowsSlashes (text ref) = false
  /\ JS.startsWith (fullReference sub (text ref)) ".." = false
  /\ r = {| exact := exact ref; text := fullReference sub (text ref) |}.
Proof.
  unfold addReference, assertNoWindowsSlashes, fullReference.
  destruct (hasWindowsSlashes (text ref)); simpl; [split; [done | by intros [? _]]|].
  destruct (JS.startsWith _ ".."); split; try done.
  - by intros (_ & ? & _).
  - by intros [= <-].
  - by intros (_ & _ & ->).
Qed.






(** the references a file yields do not depend on its name or on the name
    of the package directory, which only go into the errors *)
Lemma arrayFrom_yieldEach_ext {A B} (keep : A -> bool) (f f' : A -> Result B) g refs :
  (forall a b, f a = Ok b -> f' a = Ok b) ->
  arrayFrom (yieldEach keep f g) = Ok refs ->
  arrayFrom (yieldEach keep f' g) = Ok refs.
Proof.
  intros Hf. revert refs. induction g as [|a g IH|e]; intros refs H; simpl in *; [done| |done].
  destruct (keep a); [|by apply IH].
  destruct (f a) as [b|] eqn:Hb; [|done]. rewrite (Hf _ _ Hb). simpl in *.
  apply bind_Ok in H as (l & Hl & [= <-]). by rewrite (IH _ Hl).
Qed.

Lemma referencedFiles_name_irrelevant src src' sub dir dir' refs :
  referencedFiles_ src = referencedFiles_ src' -> statements src = statements src' ->
  arrayFrom (referencedFiles src sub dir) = Ok refs ->
  arrayFrom (referencedFiles src' sub dir') = Ok refs.
Proof.
  intros Hr Hs H. unfold referencedFiles in *. rewrite <- Hr, <- Hs.
  apply arrayFrom_gseq in H as (l1 & l2 & H1 & H2 & ->).
  apply arrayFrom_gseq. exists l1, l2. split; [|split; [|done]].
  - eapply arrayFrom_yieldEach_ext; [|exact H1].
    intros a b Hb. apply addReference_Ok in Hb. by apply addReference_Ok.
  - eapply arrayFrom_yieldEach_ext; [|exact H2].
    intros a b Hb. apply addReference_Ok in Hb. by apply addReference_Ok.
Qed.

Lemma referencesOf_dirname dir dir' f f' c refs :
  path.dirname f = path.dirname f' ->
  referencesOf dir f c = Ok refs -> referencesOf dir' f' c = Ok refs.
Proof.
  unfold referencesOf. intros <-. by apply referencedFiles_name_irrelevant.
Qed.

(** ** Reading a reference *)

Lemma readFileAndThrowOnBOM_Ok disk dir f c :
  readFileAndThrowOnBOM disk dir f = Ok c <-> disk !! f = Some c.
Proof.
  unfold readFileAndThrowOnBOM. destruct (disk !! f); split; try done; by intros [= ->].
Qed.

Lemma readReference_from disk dir t :
  snd (readReference disk dir t) = resolveReference disk dir (reference t).
Proof.
  unfold resolveReference, readReference, resolveModule, readFileAndReportErrors. simpl.
  destruct (exact (reference t)).
  - by destruct (readFileAndThrowOnBOM _ _ _).
  - destruct (readFileAndThrowOnBOM _ _ _); [done|].
    by destruct (readFileAndThrowOnBOM _ _ _).
Qed.

(** a reference resolves to a file of the disk, under its own name or, for
    ["./index.d.ts"], under a name of the same directory *)
Lemma resolveReference_on_disk disk dir ref f c :
  resolveReference disk dir ref = Ok (f, c) ->
  exists key, disk !! key = Some c /\ path.dirname key = path.dirname f.
Proof.
  unfold resolveReference, readReference, resolveModule, readFileAndReportErrors. simpl.
  destruct (exact ref).
  - destruct (readFileAndThrowOnBOM disk dir (text ref)) as [c'|] eqn:Hc; [|done].
    simpl. intros [= <- <-]. exists (text ref). by apply readFileAndThrowOnBOM_Ok in Hc.
  - destruct (readFileAndThrowOnBOM disk dir (text ref +:+ ".d.ts")) as [c'|] eqn:Hc.
    + simpl. intros [= <- <-]. eexists. by apply readFileAndThrowOnBOM_Ok in Hc.
    + match goal with |- context [readFileAndThrowOnBOM disk dir ?i] =>
        destruct (readFileAndThrowOnBOM disk dir i) as [c'|] eqn:Hi;
        [|done]; apply readFileAndThrowOnBOM_Ok in Hi; set (index := i) in *
      end.
      simpl. intros [= <- <-]. exists index. split; [done|].
      destruct (String.eqb_spec index "./index.d.ts") as [->|]; done.
Qed.

Lemma references_on disk dir dir' entries ref f c refs r' :
  resolveReference disk dir ref = Ok (f, c) ->
  referencesOf dir f c = Ok refs -> r' ∈ refs ->
  r' ∈ referencesOn disk dir' entries.
Proof.
  intros Hres Hrefs Hr'.
  destruct (resolveReference_on_disk _ _ _ _ _ Hres) as (key & Hkey & Hdir).
  unfold referencesOn. apply elem_of_app. right.
  apply list_elem_of_In, in_flat_map. exists (key, c). split.
  - apply list_elem_of_In. by apply elem_of_map_to_list.
  - simpl. rewrite (referencesOf_dirname dir dir' f key c refs); [|done|done].
    by apply list_elem_of_In.
Qed.

Lemma reachable_on disk dir entries r :
  Reachable disk dir entries r -> r ∈ referencesOn disk dir entries.
Proof.
  induction 1 as [f Hf|r f c refs r' _ _ Hres Hrefs Hr'].
  - unfold referencesOn. apply elem_of_app. left. by apply list_elem_of_fmap_2.
  - by eapply references_on.
Qed.

Lemma unambiguous_sound disk dir entries :
  unambiguous disk dir entries = true -> Unambiguous disk dir entries.
Proof.
  unfold unambiguous. intros H r1 r2 H1 H2 Ht.
  apply reachable_on, list_elem_of_In in H1, H2.
  rewrite forallb_forall in H. specialize (H r1 H1).
  rewrite forallb_forall in H. specialize (H r2 H2).
  rewrite Ht, String.eqb_refl in H. simpl in H. by apply Bool.eqb_prop.
Qed.

(** ** One step of the walk *)

Lemma elem_of_delete_nth {A} (l : list A) k d x :
  x ∈ l -> x = nth k l d \/ x ∈ delete k l.
Proof.
  revert k. induction l as [|a l IH]; intros k Hx; [by apply elem_of_nil in Hx|].
  destruct k as [|k]; simpl.
  - apply elem_of_cons in Hx as [->|Hx]; [by left | by right].
  - apply elem_of_cons in Hx as [->|Hx]; [right; by left|].
    destruct (IH k Hx) as [->|H]; [by left | right; by right].
Qed.

Lemma elem_of_delete {A} (l : list A) k x : x ∈ delete k l -> x ∈ l.
Proof.
  revert k. induction l as [|a l IH]; intros k Hx; [done|].
  destruct k as [|k]; simpl in Hx; [by right|].
  apply elem_of_cons in Hx as [->|Hx]; [by left | right; by apply (IH k)].
Qed.

Lemma length_delete_lt {A} (l : list A) k :
  k < length l -> length (delete k l) < length l.
Proof.
  revert k. induction l as [|a l IH]; intros k Hk; simpl in *; [lia|].
  destruct k as [|k]; simpl; [lia|]. specialize (IH k). lia.
Qed.

Lemma elem_of_nth {A} (l : list A) k d : k < length l -> nth k l d ∈ l.
Proof. intros Hk. apply list_elem_of_In. by apply nth_In. Qed.

Lemma recurResume_Ok disk dir t w lines' w' :
  recurResume disk dir t w = (lines', Ok w') ->
  exists lines f c refs,
    readReference disk dir t = (lines, Ok (f, c))
    /\ resolveReference disk dir (reference t) = Ok (f, c)
    /\ referencesOf dir f c = Ok refs
    /\ w' = recurAll f refs
              {| seenReferences := seenReferences w;
                 all := mapSet f (createSourceFile f c) (all w);
                 pending := pending w;
                 console := console w ++ lines |}.
Proof.
  unfold recurResume. intros H.
  pose proof (readReference_from disk dir t) as Hres.
  destruct (readReference disk dir t) as [lines [[f c]|e]]; simpl in *; [|by injection H].
  injection H as _ H.
  apply bind_Ok in H as (refs & Hrefs & [= <-]).
  by exists lines, f, c, refs.
Qed.

Section Walk.

Variables (disk : Disk) (directory : string) (entryFilenames : list string).

Lemma Finished_mono w w' r :
  (forall f, f ∈ keys (all w) -> f ∈ keys (all w')) ->
  (forall x, x ∈ seenReferences w -> x ∈ seenReferences w') ->
  Finished disk directory w r -> Finished disk directory w' r.
Proof.
  intros Hk Hs (f & c & refs & Hres & Hf & Hrefs & Hall).
  exists f, c, refs. split; [done|]. split; [by apply Hk|]. split; [done|].
  intros r' Hr'. by apply Hs, Hall.
Qed.

(** entering reachable references keeps what the walk holds reachable *)
Lemma recurAll_sound from refs w :
  (forall r, r ∈ refs -> Reachable disk directory entryFilenames r) ->
  Sound disk directory entryFilenames w ->
  Sound disk directory entryFilenames (recurAll from refs w).
Proof.
  intros Hrefs [Hp Hk Hn Hs].
  destruct (recurAll_pending from refs w) as (new & Hpending & Hnew & _).
  split.
  - intros t. rewrite Hpending. intros [Ht|Ht]%elem_of_app; [by apply Hp|].
    apply Hrefs. by apply Hnew.
  - rewrite recurAll_all. exact Hk.
  - rewrite recurAll_all. exact Hn.
  - intros x [Hx|Hx]%recurAll_seen; [by apply Hs|].
    apply list_elem_of_fmap in Hx as (r & -> & Hr).
    apply list_elem_of_fmap_2. by apply reachable_on, Hrefs.
Qed.

(** entering references keeps a seen reference under way or finished, when
    no text stands for two references *)
Lemma recurAll_complete from refs w r :
  Unambiguous disk directory entryFilenames ->
  (forall r', r' ∈ refs -> Reachable disk directory entryFilenames r') ->
  Reachable disk directory entryFilenames r ->
  (text r ∈ seenReferences w ->
     (exists t, t ∈ pending w /\ reference t = r) \/ Finished disk directory w r) ->
  text r ∈ seenReferences (recurAll from refs w) ->
  (exists t, t ∈ pending (recurAll from refs w) /\ reference t = r)
  \/ Finished disk directory (recurAll from refs w) r.
Proof.
  intros Hu Hrefs Hr Hw Hseen.
  destruct (recurAll_pending from refs w) as (new & Hpending & Hnew & Hall).
  destruct (decide (text r ∈ seenReferences w)) as [Hold|Hfresh].
  - destruct (Hw Hold) as [(t & Ht & <-)|Hfin].
    + left. exists t. split; [|done]. rewrite Hpending. apply elem_of_app. by left.
    + right. eapply Finished_mono; [ | |exact Hfin].
      * by rewrite recurAll_all.
      * intros x Hx. apply recurAll_seen. by left.
  - apply recurAll_seen in Hseen as [?|Hin]; [done|].
    apply list_elem_of_fmap in Hin as (r' & Htext & Hr').
    destruct (Hall r' Hr') as (t & Ht & Htt); [by rewrite <- Htext|].
    left. exists t. split; [rewrite Hpending; apply elem_of_app; by right|].
    destruct (Hnew t Ht) as [Hin _].
    assert (Hex : exact (reference t) = exact r).
    { apply Hu; [by apply Hrefs | done | congruence]. }
    destruct (reference t), r. simpl in *. congruence.
Qed.

Lemma step_sound w k t0 lines w' :
  Sound disk directory entryFilenames w ->
  k < length (pending w) ->
  recurResume disk directory (nth k (pending w) t0) (takeTask k w) = (lines, Ok w') ->
  Sound disk directory entryFilenames w'
  /\ measure (allTexts disk directory entryFilenames) w'
     < measure (allTexts disk directory entryFilenames) w.
Proof.
  intros Hsound Hk Hstep.
  pose proof (elem_of_nth (pending w) k t0 Hk) as Ht.
  set (t := nth k (pending w) t0) in *.
  apply recurResume_Ok in Hstep as (lines0 & f & c & refs & _ & Hres & Hrefs & ->).
  destruct Hsound as [Hp Hkeys Hn Hs].
  assert (Hreach : forall r, r ∈ refs -> Reachable disk directory entryFilenames r).
  { intros r Hr. eapply reach_reference; [apply (Hp t Ht) | exact Hres | exact Hrefs | exact Hr]. }
  split.
  - apply recurAll_sound; [exact Hreach|]. split; simpl.
    + intros t' Ht'. apply Hp. by apply elem_of_delete in Ht'.
    + intros f' [->|Hf']%elem_of_keys_mapSet; [|by apply Hkeys].
      exists (reference t), c. split; [by apply Hp | done].
    + by apply NoDup_keys_mapSet.
    + exact Hs.
  - eapply Nat.le_lt_trans.
    + apply recurAll_measure. intros r Hr. apply list_elem_of_fmap_2.
      by apply reachable_on, Hreach.
    + unfold measure. simpl. pose proof (length_delete_lt (pending w) k Hk). lia.
Qed.

Lemma step_complete w k t0 lines w' :
  Unambiguous disk directory entryFilenames ->
  Sound disk directory entryFilenames w ->
  Complete disk directory entryFilenames w ->
  k < length (pending w) ->
  recurResume disk directory (nth k (pending w) t0) (takeTask k w) = (lines, Ok w') ->
  Complete disk directory entryFilenames w'.
Proof.
  intros Hu Hsound [He Hc] Hk Hstep.
  pose proof (elem_of_nth (pending w) k t0 Hk) as Ht.
  set (t := nth k (pending w) t0) in *.
  apply recurResume_Ok in Hstep as (lines0 & f & c & refs & _ & Hres & Hrefs & ->).
  assert (Hreach : forall r, r ∈ refs -> Reachable disk directory entryFilenames r).
  { intros r Hr. eapply reach_reference;
      [apply (sound_pending _ _ _ _ Hsound t Ht) | exact Hres | exact Hrefs | exact Hr]. }
  set (w2 := {| seenReferences := seenReferences w;
                all := mapSet f (createSourceFile f c) (all w);
                pending := delete k (pending w);
                console := console w ++ lines0 |}).
  change (Complete disk directory entryFilenames (recurAll f refs w2)).
  split.
  - intros e Hin. apply recurAll_seen. left. by apply He.
  - intros r Hr Hseen.
    destruct (decide (r = reference t)) as [->|Hne].
    + right. exists f, c, refs. split; [done|]. split; [|split; [done|]].
      * rewrite recurAll_all. simpl. apply elem_of_keys_mapSet. by left.
      * intros r' Hr'. apply recurAll_seen. right. by apply list_elem_of_fmap_2.
    + apply recurAll_complete; try done. simpl. intros Hs0.
      destruct (Hc r Hr Hs0) as [(t' & Ht' & Heq)|Hfin].
      * left. exists t'. split; [|done].
        destruct (elem_of_delete_nth (pending w) k t0 t' Ht') as [->|Hd]; [|done].
        by destruct Hne.
      * right. eapply Finished_mono; [ | |exact Hfin]; simpl.
        -- intros f' Hf'. apply elem_of_keys_mapSet. by right.
        -- done.
Qed.

(** ** Runs of the walk *)

Lemma recurResume_resolvable t w f c refs :
  resolveReference disk directory (reference t) = Ok (f, c) ->
  referencesOf directory f c = Ok refs ->
  exists lines w', recurResume disk directory t w = (lines, Ok w').
Proof.
  intros Hres Hrefs. unfold recurResume.
  pose proof (readReference_from disk directory t) as Hfrom.
  destruct (readReference disk directory t) as [lines r]. simpl in Hfrom. subst r.
  rewrite Hres. simpl. unfold referencesOf in Hrefs. rewrite Hrefs. simpl. eauto.
Qed.


Lemma mod_pending_lt (i : nat) (t0 : Task) (rest : list Task) :
  i mod length (t0 :: rest) < length (t0 :: rest).
Proof. apply Nat.mod_upper_bound. simpl. lia. Qed.

Lemma run_terminates sched w :
  Sound disk directory entryFilenames w ->
  measure (allTexts disk directory entryFilenames) w <= length sched ->
  exists out, run disk directory sched w = Some out.
Proof.
  revert w. induction sched as [|i sched IH]; intros w Hsound Hm.
  - unfold measure in Hm. destruct w as [seen all [|t0 rest] console]; simpl in *; [eauto | lia].
  - simpl. destruct (pending w) as [|t0 rest] eqn:Hp; [eauto|].
    pose proof (mod_pending_lt i t0 rest) as Hk. rewrite <- Hp in *.
    destruct (recurResume _ _ _ _) as [lines [w'|e]] eqn:Hstep; [|eauto].
    destruct (step_sound _ _ _ _ _ Hsound Hk Hstep) as [Hsound' Hm'].
    apply IH; [done|]. simpl in Hm. lia.
Qed.

Lemma run_invariant sched w lines all' :
  Sound disk directory entryFilenames w ->
  run disk directory sched w = Some (lines, Ok all') ->
  exists w', Sound disk directory entryFilenames w'
    /\ pending w' = [] /\ all w' = all'
    /\ (Unambiguous disk directory entryFilenames ->
        Complete disk directory entryFilenames w ->
        Complete disk directory entryFilenames w').
Proof.
  revert w. induction sched as [|i sched IH]; intros w Hsound Hrun; simpl in Hrun.
  - destruct (pending w) eqn:Hp; [|done]. injection Hrun as _ <-. by exists w.
  - destruct (pending w) as [|t0 rest] eqn:Hp.
    { injection Hrun as _ <-. by exists w. }
    pose proof (mod_pending_lt i t0 rest) as Hk. rewrite <- Hp in *.
    destruct (recurResume _ _ _ _) as [lines' [w1|e]] eqn:Hstep; [|by injection Hrun].
    destruct (step_sound _ _ _ _ _ Hsound Hk Hstep) as [Hsound1 _].
    destruct (IH w1 Hsound1 Hrun) as (w' & Hsound' & Hp' & Hall & Hcomplete).
    exists w'. split; [done|]. split; [done|]. split; [done|].
    intros Hu Hc. apply Hcomplete; [done|].
    exact (step_complete _ _ _ _ _ Hu Hsound Hc Hk Hstep).
Qed.

Lemma run_resolvable sched w lines e :
  Resolvable disk directory entryFilenames ->
  Sound disk directory entryFilenames w ->
  run disk directory sched w <> Some (lines, Throw e).
Proof.
  intros Hres. revert w. induction sched as [|i sched IH]; intros w Hsound Hrun; simpl in Hrun.
  - by destruct (pending w).
  - destruct (pending w) as [|t0 rest] eqn:Hp; [done|].
    pose proof (mod_pending_lt i t0 rest) as Hk. rewrite <- Hp in *.
    pose proof (elem_of_nth (pending w) (i mod length (pending w)) t0 Hk) as Ht.
    destruct (Hres _ (sound_pending _ _ _ _ Hsound _ Ht)) as (f & c & refs & Hf & Hrefs).
    destruct (recurResume_resolvable _ (takeTask (i mod length (pending w)) w) _ _ _ Hf Hrefs)
      as (lines' & w' & Hstep).
    rewrite Hstep in Hrun.
    destruct (step_sound _ _ _ _ _ Hsound Hk Hstep) as [Hsound' _].
    by apply (IH w' Hsound').
Qed.


(** ** The walk from the entry files *)

Lemma entry_reachable r :
  r ∈ map entryReference entryFilenames -> Reachable disk directory entryFilenames r.
Proof. intros (f & -> & Hf)%list_elem_of_fmap. by apply reach_entry. Qed.

Lemma initial_sound : Sound disk directory entryFilenames (initialWalk entryFilenames).
Proof.
  apply recurAll_sound; [exact entry_reachable|]. split; simpl.
  - intros t Ht. by apply elem_of_nil in Ht.
  - intros f Hf. by apply elem_of_nil in Hf.
  - apply NoDup_nil_2.
  - intros x Hx. by apply elem_of_empty in Hx.
Qed.

Lemma initial_complete :
  Unambiguous disk directory entryFilenames ->
  Complete disk directory entryFilenames (initialWalk entryFilenames).
Proof.
  intros Hu. split.
  - intros f Hf. apply recurAll_seen. right.
    apply list_elem_of_fmap. exists (entryReference f). split; [done|].
    by apply list_elem_of_fmap_2.
  - intros r Hr. apply recurAll_complete; [done | exact entry_reachable | done |].
    simpl. intros H. by apply elem_of_empty in H.
Qed.

Lemma initial_measure :
  measure (allTexts disk directory entryFilenames) (initialWalk entryFilenames)
  <= walkBound disk directory entryFilenames.
Proof.
  etransitivity.
  - apply recurAll_measure. intros r Hr. apply list_elem_of_fmap_2.
    unfold referencesOn. apply elem_of_app. by left.
  - unfold measure, unseen, walkBound, allTexts. simpl. rewrite Nat.add_0_r.
    etransitivity; [apply length_filter|]. by rewrite length_map.
Qed.

Lemma initial_pending e :
  e ∈ entryFilenames ->
  exists t, t ∈ pending (initialWalk entryFilenames) /\ reference t = entryReference e.
Proof.
  intros He. unfold initialWalk.
  destruct (recurAll_pending "tsconfig.json" (map entryReference entryFilenames) emptyWalk)
    as (new & -> & Hnew & Hall).
  destruct (Hall (entryReference e)) as (t & Ht & Htext).
  - by apply list_elem_of_fmap_2.
  - simpl. apply not_elem_of_empty.
  - exists t. split; [simpl; done|].
    destruct (Hnew t Ht) as [(e' & Heq & _)%list_elem_of_fmap _].
    rewrite Heq in Htext. simpl in Htext. by rewrite Heq, Htext.
Qed.

(** when no call is under way, everything reachable has been finished *)
Lemma complete_finished w r :
  Complete disk directory entryFilenames w -> pending w = [] ->
  Reachable disk directory entryFilenames r ->
  Finished disk directory w r.
Proof.
  intros [He Hc] Hp.
  assert (Hdone : forall r, Reachable disk directory entryFilenames r ->
                    text r ∈ seenReferences w -> Finished disk directory w r).
  { intros r0 Hr0 Hs0. destruct (Hc r0 Hr0 Hs0) as [(t & Ht & _)|]; [|done].
    rewrite Hp in Ht. by apply elem_of_nil in Ht. }
  induction 1 as [f Hf|r0 f c refs r' Hr0 IH Hres Hrefs Hr'].
  - apply Hdone; [by apply reach_entry | by apply He].
  - apply Hdone; [by eapply reach_reference|].
    destruct IH as (f0 & c0 & refs0 & Hres0 & _ & Hrefs0 & Hall).
    rewrite Hres in Hres0. injection Hres0 as <- <-.
    rewrite Hrefs in Hrefs0. injection Hrefs0 as <-. by apply Hall.
Qed.

End Walk.

(** ** The files [allReferencedFiles] returns *)

Lemma sort_elem (l : list string) x : x ∈ sort l <-> x ∈ l.
Proof. unfold sort. by rewrite merge_sort_Permutation. Qed.

Lemma sort_NoDup (l : list string) : NoDup l -> NoDup (sort l).
Proof. unfold sort. by rewrite merge_sort_Permutation. Qed.

Lemma getModuleInfo_declFiles disk sched packageName directory entryFilenames info :
  getModuleInfo disk sched packageName directory entryFilenames = Some (Ok info) ->
  exists lines all,
    allReferencedFiles disk sched directory entryFilenames = Some (lines, Ok all)
    /\ declFiles info = sort (keys all).
Proof.
  unfold getModuleInfo. intros H.
  destruct (allReferencedFiles _ _ _ _) as [[lines [all|e]]|]; [|done..].
  simpl in H. injection H as H. unfold moduleInfoOf in H.
  apply bind_Ok in H as (c & _ & [= <-]). by exists lines, all.
Qed.

(** a schedule that is longer than needed gives the same result *)
Lemma run_app disk directory sched sched' w out :
  run disk directory sched w = Some out ->
  run disk directory (sched ++ sched') w = Some out.
Proof.
  revert w. induction sched as [|i sched IH]; intros w H; simpl in *.
  - destruct (pending w) eqn:Hp; [|done]. destruct sched'; simpl; by rewrite Hp.
  - destruct (pending w); [done|].
    destruct (recurResume _ _ _ _) as [lines [w'|e]]; [by apply IH | done].
Qed.

(** C1, as stated, fails: a text that is referred to both by path and by
    import is visited once only, in the way of whichever reference comes
    first.  Here the entry file has [<reference path="a">] and
    [import "./a"]; under every schedule the file [a] is read for the path
    reference, and the file [a.d.ts], which the import reaches, is not in
    the returned map. *)
Lemma reachable_file_left_out :
  (forall i j sched,
     allReferencedFiles ambiguousDisk (i :: j :: sched) "pkg" ["index.d.ts"]
     = Some ([], Ok ambiguousFiles))
  /\ keys ambiguousFiles = ["index.d.ts"; "a"]
  /\ ReachableFile ambiguousDisk "pkg" ["index.d.ts"] "a.d.ts".
Proof.
  split; [|split].
  - intros i j sched. unfold allReferencedFiles.
    apply (run_app _ _ [i; j] sched). vm_compute. reflexivity.
  - reflexivity.
  - exists {| exact := false; text := "a" |}, (fileContent [] [] [ExportAssignment] true).
    split; [|vm_compute; reflexivity].
    apply (reach_reference _ _ _ (entryReference "index.d.ts") "index.d.ts"
             (fileContent ["a"] [] [importFrom "./a"; ExportAssignment] true)
             [{| exact := true; text := "a" |}; {| exact := false; text := "a" |}]).
    + apply reach_entry. by left.
    + vm_compute. reflexivity.
    + vm_compute. reflexivity.
    + right. by left.
Qed.

(** C1, amended.  Under every schedule of the reads that is long enough
    (as long as there are references in the entry list and in the files of
    the package), [allReferencedFiles] comes to an end, cyclic references or
    not.  When it returns a map, no key occurs twice in it and every key is a
    file reachable from the entry files through path references and relative
    imports; if moreover no reference text is reached both as a path
    reference (or entry file name) and as a relative import, every reachable
    file is a key.  It returns a map whenever every reachable reference
    resolves to a file whose references can be collected.  The same holds of
    [declFiles]. *)
Theorem allReferencedFiles_terminates_and_reaches
    (disk : Disk) (sched : list nat) (directory : string) (entryFilenames : list string) :
  (walkBound disk directory entryFilenames <= length sched ->
   exists out, allReferencedFiles disk sched directory entryFilenames = Some out)
  /\ (forall lines all,
        allReferencedFiles disk sched directory entryFilenames = Some (lines, Ok all) ->
        NoDup (keys all)
        /\ (forall f, f ∈ keys all -> ReachableFile disk directory entryFilenames f)
        /\ (Unambiguous disk directory entryFilenames ->
            forall f, ReachableFile disk directory entryFilenames f -> f ∈ keys all))
  /\ (Resolvable disk directory entryFilenames ->
      forall lines e,
        allReferencedFiles disk sched directory entryFilenames <> Some (lines, Throw e))
  /\ (unambiguous disk directory entryFilenames = true ->
      Unambiguous disk directory entryFilenames)
  /\ (forall packageName info,
        getModuleInfo disk sched packageName directory entryFilenames = Some (Ok info) ->
        NoDup (declFiles info)
        /\ (forall f, f ∈ declFiles info -> ReachableFile disk directory entryFilenames f)
        /\ (Unambiguous disk directory entryFilenames ->
            forall f, ReachableFile disk directory entryFilenames f -> f ∈ declFiles info)).
Proof.
  assert (Hkeys : forall lines all,
    allReferencedFiles disk sched directory entryFilenames = Some (lines, Ok all) ->
    NoDup (keys all)
    /\ (forall f, f ∈ keys all -> ReachableFile disk directory entryFilenames f)
    /\ (Unambiguous disk directory entryFilenames ->
        forall f, ReachableFile disk directory entryFilenames f -> f ∈ keys all)).
  { intros lines all Hrun. unfold allReferencedFiles in Hrun.
    destruct (run_invariant disk directory entryFilenames sched _ lines all
                (initial_sound disk directory entryFilenames) Hrun)
      as (w & Hsound & Hp & <- & Hcomplete).
    split; [by apply (sound_nodup _ _ _ _ Hsound)|].
    split; [by apply (sound_keys _ _ _ _ Hsound)|].
    intros Hu f (r & c & Hr & Hres).
    specialize (Hcomplete Hu (initial_complete disk directory entryFilenames Hu)).
    destruct (complete_finished disk directory entryFilenames w r Hcomplete Hp Hr)
      as (f' & c' & refs & Hres' & Hf' & _).
    rewrite Hres in Hres'. by injection Hres' as <- <-. }
  split; [|split; [exact Hkeys|split; [|split]]].
  - intros Hb. apply (run_terminates disk directory entryFilenames); [apply initial_sound|].
    etransitivity; [apply initial_measure | exact Hb].
  - intros Hres lines e.
    apply (run_resolvable disk directory entryFilenames); [exact Hres | apply initial_sound].
  - apply unambiguous_sound.
  - intros packageName info Hinfo.
    apply getModuleInfo_declFiles in Hinfo as (lines & all & Hrun & ->).
    destruct (Hkeys lines all Hrun) as (Hnd & Hsub & Hsup).
    split; [by apply sort_NoDup|]. split.
    + intros f Hf. by apply Hsub, sort_elem.
    + intros Hu f Hf. by apply sort_elem, Hsup.
Qed.

Lemma allReferencedFiles_terminates_and_reaches_witness :
  allReferencedFiles cyclicDisk [0; 0; 0] "pkg" ["a.d.ts"] = Some ([], Ok cyclicFiles)
  /\ NoDup (keys cyclicFiles)
  /\ (forall f, ReachableFile cyclicDisk "pkg" ["a.d.ts"] f -> f ∈ keys cyclicFiles)
  /\ (exists out, allReferencedFiles cyclicDisk [1; 0; 2; 0] "pkg" ["a.d.ts"; "b.d.ts"]
                  = Some out).
Proof.
  assert (Hrun : allReferencedFiles cyclicDisk [0; 0; 0] "pkg" ["a.d.ts"]
                 = Some ([], Ok cyclicFiles)) by (vm_compute; reflexivity).
  split; [exact Hrun|].
  destruct (allReferencedFiles_terminates_and_reaches cyclicDisk [0; 0; 0] "pkg" ["a.d.ts"])
    as (_ & Hkeys & _ & Hu & _).
  destruct (Hkeys _ _ Hrun) as (Hnd & _ & Hsup).
  split; [exact Hnd|]. split.
  - apply Hsup, Hu. vm_compute. reflexivity.
  - destruct (allReferencedFiles_terminates_and_reaches
                cyclicDisk [1; 0; 2; 0] "pkg" ["a.d.ts"; "b.d.ts"]) as (Ht & _).
    apply Ht. vm_compute. lia.
Defined.

(** ** References that leave the package directory *)











Lemma resolveReference_entry disk dir e f c :
  resolveReference disk dir (entryReference e) = Ok (f, c) ->
  f = e /\ disk !! e = Some c.
Proof.
  unfold resolveReference, readReference, readFileAndReportErrors, readFileAndThrowOnBOM.
  simpl. destruct (disk !! e); simpl; [|done]. by intros [= <- <-].
Qed.








(** ** Dependency roots in general *)

Lemma chars_append (a b : string) : JS.chars (a +:+ b) = JS.chars a ++ JS.chars b.
Proof. unfold JS.chars. induction a as [|c a IH]; simpl; [done | by rewrite IH]. Qed.

Lemma length_chars (s : string) : length (JS.chars s) = String.length s.
Proof. unfold JS.chars. induction s as [|c s IH]; simpl; [done | by rewrite IH]. Qed.

Lemma includes_false s c : JS.includes s c = false <-> c ∉ JS.chars s.
Proof.
  unfold JS.includes. induction (JS.chars s) as [|x l IH]; simpl.
  - split; [intros _ H; by apply elem_of_nil in H | done].
  - rewrite orb_false_iff, IH, not_elem_of_cons. split.
    + intros [Hx Hl]. split; [|done]. intros ->. by rewrite Ascii.eqb_refl in Hx.
    + intros [Hx Hl]. split; [|done]. apply Ascii.eqb_neq. congruence.
Qed.

(** the search finds the first occurrence at or after [from] *)
Lemma indexOfFrom_found c l1 l2 pos from :
  (forall j x, l1 !! j = Some x -> from <= pos + j -> x <> c) ->
  from <= pos + length l1 ->
  JS.indexOfFrom c (l1 ++ c :: l2) pos from = Some (pos + length l1).
Proof.
  revert pos. induction l1 as [|x l1 IH]; intros pos Hno Hfrom; simpl in *.
  - rewrite Nat.add_0_r in *. apply Nat.leb_le in Hfrom. rewrite Hfrom, Ascii.eqb_refl.
    done.
  - destruct (Nat.leb from pos && Ascii.eqb x c) eqn:E.
    + apply andb_true_iff in E as [Hle Heq]. apply Nat.leb_le in Hle.
      apply Ascii.eqb_eq in Heq. destruct (Hno 0 x eq_refl ltac:(lia) Heq).
    + rewrite IH; [f_equal; lia | | lia].
      intros j y Hj Hle. apply (Hno (S j) y Hj). lia.
Qed.

Lemma indexOfFrom_missing c l pos from :
  (forall j x, l !! j = Some x -> from <= pos + j -> x <> c) ->
  JS.indexOfFrom c l pos from = None.
Proof.
  revert pos. induction l as [|x l IH]; intros pos Hno; simpl; [done|].
  destruct (Nat.leb from pos && Ascii.eqb x c) eqn:E.
  - apply andb_true_iff in E as [Hle Heq]. apply Nat.leb_le in Hle.
    apply Ascii.eqb_eq in Heq. destruct (Hno 0 x eq_refl ltac:(lia) Heq).
  - apply IH. intros j y Hj Hle. apply (Hno (S j) y Hj). lia.
Qed.

Lemma indexOf_first s rest from :
  JS.includes s JS.slash = false -> from <= String.length s ->
  JS.indexOf (s +:+ "/" +:+ rest) JS.slash from = Some (String.length s).
Proof.
  intros Hs Hfrom. unfold JS.indexOf. rewrite chars_append.
  change (JS.chars ("/" +:+ rest)) with (JS.slash :: JS.chars rest).
  rewrite indexOfFrom_found; [by rewrite length_chars | | by rewrite length_chars].
  intros j x Hj _ ->. apply includes_false in Hs. apply Hs.
  by apply list_elem_of_lookup_2 in Hj.
Qed.

Lemma indexOf_none s from :
  JS.includes s JS.slash = false -> JS.indexOf s JS.slash from = None.
Proof.
  intros Hs. unfold JS.indexOf. apply indexOfFrom_missing.
  intros j x Hj _ ->. apply includes_false in Hs. apply Hs.
  by apply list_elem_of_lookup_2 in Hj.
Qed.

(** the search from behind the first slash *)
Lemma indexOf_second a b rest :
  JS.includes a JS.slash = false -> JS.includes b JS.slash = false ->
  JS.indexOf (a +:+ "/" +:+ b +:+ "/" +:+ rest) JS.slash (String.length a + 1)
  = Some (String.length a + 1 + String.length b).
Proof.
  intros Ha Hb. unfold JS.indexOf.
  replace (JS.chars (a +:+ "/" +:+ b +:+ "/" +:+ rest))
    with ((JS.chars a ++ JS.slash :: JS.chars b) ++ JS.slash :: JS.chars rest).
  2:{ rewrite !chars_append. change (JS.chars "/") with [JS.slash].
      by rewrite <- !List.app_assoc. }
  rewrite indexOfFrom_found.
  - f_equal. rewrite length_app. simpl. rewrite !length_chars. lia.
  - intros j x Hj Hle ->. simpl in Hle.
    apply lookup_app_Some in Hj as [Hj|[Hlen Hj]].
    + apply lookup_lt_Some in Hj. rewrite length_chars in Hj. lia.
    + rewrite length_chars in *.
      destruct (j - String.length a) as [|k] eqn:Hk; [lia|]. simpl in Hj.
      apply includes_false in Hb. apply Hb. by apply list_elem_of_lookup_2 in Hj.
  - rewrite length_app. simpl. rewrite !length_chars. lia.
Qed.

Lemma indexOf_second_none a b :
  JS.includes a JS.slash = false -> JS.includes b JS.slash = false ->
  JS.indexOf (a +:+ "/" +:+ b) JS.slash (String.length a + 1) = None.
Proof.
  intros Ha Hb. unfold JS.indexOf. apply indexOfFrom_missing.
  intros j x Hj Hle ->. simpl in Hle. rewrite chars_append in Hj.
  change (JS.chars ("/" +:+ b)) with (JS.slash :: JS.chars b) in Hj.
  apply lookup_app_Some in Hj as [Hj|[Hlen Hj]].
  - apply lookup_lt_Some in Hj. rewrite length_chars in Hj. lia.
  - rewrite length_chars in *.
    destruct (j - String.length a) as [|k] eqn:Hk; [lia|]. simpl in Hj.
    apply includes_false in Hb. apply Hb. by apply list_elem_of_lookup_2 in Hj.
Qed.

Lemma append_assoc (a b c : string) : (a +:+ b) +:+ c = a +:+ b +:+ c.
Proof.
  induction a as [|x a IH]; [done|].
  change (String x ((a +:+ b) +:+ c) = String x (a +:+ b +:+ c)). by rewrite IH.
Qed.

Lemma includes_cons c s x :
  JS.includes (String c s) x = Ascii.eqb x c || JS.includes s x.
Proof. reflexivity. Qed.

(** a string has no slash, or a first one *)
Lemma first_slash s :
  JS.includes s JS.slash = false
  \/ exists a b, s = a +:+ "/" +:+ b /\ JS.includes a JS.slash = false.
Proof.
  induction s as [|c s IH]; [by left|].
  destruct (Ascii.eqb JS.slash c) eqn:Hc.
  - right. apply Ascii.eqb_eq in Hc as <-. by exists EmptyString, s.
  - destruct IH as [IH|(a & b & -> & Ha)].
    + left. by rewrite includes_cons, Hc.
    + right. exists (String c a), b. split; [done|].
      by rewrite includes_cons, Hc.
Qed.

(** [startsWith] of one character looks at the first character only *)
Lemma startsWith_first c s s' :
  JS.startsWith (String c s) "@" = JS.startsWith (String c s') "@".
Proof.
  unfold JS.startsWith. cbn -[ascii_dec].
  destruct (ascii_dec "@" c); [by destruct s, s' | done].
Qed.

Lemma rootName_unscoped pkg rest :
  JS.includes pkg JS.slash = false -> JS.startsWith pkg "@" = false ->
  rootName (pkg +:+ "/" +:+ rest) = pkg.
Proof.
  intros Hs Hat. unfold rootName.
  rewrite (indexOf_first pkg rest 0 Hs) by lia.
  assert (JS.startsWith (pkg +:+ "/" +:+ rest) "@" = false) as ->.
  { destruct pkg as [|c pkg]; [done|].
    change (String c pkg +:+ "/" +:+ rest) with (String c (pkg +:+ "/" +:+ rest)).
    by rewrite (startsWith_first c _ pkg). }
  apply substring_prefix.
Qed.

Lemma startsWith_at s : JS.startsWith ("@" +:+ s) "@" = true.
Proof. unfold JS.startsWith. simpl. by destruct s. Qed.

Lemma rootName_scoped_path scope name rest :
  JS.includes scope JS.slash = false -> JS.includes name JS.slash = false ->
  rootName ("@" +:+ scope +:+ "/" +:+ name +:+ "/" +:+ rest) = "@" +:+ scope +:+ "/" +:+ name.
Proof.
  intros Hs Hn. unfold rootName.
  assert (Ha : JS.includes ("@" +:+ scope) JS.slash = false).
  { change ("@" +:+ scope) with (String "@" scope). by rewrite includes_cons. }
  rewrite <- (append_assoc "@" scope).
  rewrite (indexOf_first ("@" +:+ scope) _ 0 Ha) by lia.
  rewrite (append_assoc "@" scope), startsWith_at, <- (append_assoc "@" scope).
  rewrite (indexOf_second ("@" +:+ scope) name rest Ha Hn).
  unfold JS.slice0.
  replace (("@" +:+ scope) +:+ "/" +:+ name +:+ "/" +:+ rest)
    with (("@" +:+ scope +:+ "/" +:+ name) +:+ "/" +:+ rest)
    by (by rewrite !append_assoc).
  replace (String.length ("@" +:+ scope) + 1 + String.length name)
    with (String.length ("@" +:+ scope +:+ "/" +:+ name)).
  - apply substring_prefix.
  - rewrite <- (append_assoc "@" scope), !length_append. simpl. lia.
Qed.

Lemma rootName_no_slash t : JS.includes t JS.slash = false -> rootName t = t.
Proof.
  intros Ht. unfold rootName. rewrite !(indexOf_none t) by done.
  by destruct (JS.startsWith t "@").
Qed.

Lemma rootName_scoped_name scope name :
  JS.includes scope JS.slash = false -> JS.includes name JS.slash = false ->
  rootName ("@" +:+ scope +:+ "/" +:+ name) = "@" +:+ scope +:+ "/" +:+ name.
Proof.
  intros Hs Hn. unfold rootName.
  assert (Ha : JS.includes ("@" +:+ scope) JS.slash = false).
  { change ("@" +:+ scope) with (String "@" scope). by rewrite includes_cons. }
  rewrite <- (append_assoc "@" scope).
  rewrite (indexOf_first ("@" +:+ scope) _ 0 Ha) by lia.
  rewrite (append_assoc "@" scope), startsWith_at, <- (append_assoc "@" scope).
  by rewrite (indexOf_second_none ("@" +:+ scope) name Ha Hn).
Qed.

Lemma startsWith_at_inv a : JS.startsWith a "@" = true -> exists scope, a = "@" +:+ scope.
Proof.
  destruct a as [|c a]; [done|]. unfold JS.startsWith. cbn -[ascii_dec].
  destruct (ascii_dec "@" c) as [<-|]; [|done]. intros _. by exists a.
Qed.

Lemma rootName_idempotent t : rootName (rootName t) = rootName t.
Proof.
  destruct (first_slash t) as [Ht|(a & b & -> & Ha)].
  { by rewrite !(rootName_no_slash t Ht). }
  destruct (JS.startsWith a "@") eqn:Hat.
  - apply startsWith_at_inv in Hat as (scope & ->).
    assert (Hs : JS.includes scope JS.slash = false).
    { change ("@" +:+ scope) with (String "@" scope) in Ha. by rewrite includes_cons in Ha. }
    rewrite (append_assoc "@" scope).
    destruct (first_slash b) as [Hb|(n & rest & -> & Hn)].
    + by rewrite !(rootName_scoped_name scope b Hs Hb).
    + rewrite (rootName_scoped_path scope n rest Hs Hn).
      by apply rootName_scoped_name.
  - rewrite (rootName_unscoped a b Ha Hat). by apply rootName_no_slash.
Qed.

Lemma prefix_refl (s : string) : String.prefix s s = true.
Proof.
  induction s as [|c s IH]; [done|]. cbn -[ascii_dec].
  destruct (ascii_dec c c); done.
Qed.

Lemma prefix_substring (s : string) n : String.prefix (String.substring 0 n s) s = true.
Proof.
  revert n. induction s as [|c s IH]; intros [|n]; try done.
  cbn -[ascii_dec]. destruct (ascii_dec c c); [apply IH | done].
Qed.

Lemma rootName_prefix t : String.prefix (rootName t) t = true.
Proof.
  unfold rootName.
  destruct (if JS.startsWith t "@" then _ else _); [apply prefix_substring | apply prefix_refl].
Qed.

(** X1: the dependency root of an import target.  A target without a slash
    is its own root; for a target that does not begin with [@] the root is
    what stands before the first slash; for a scoped target [@scope/name] and
    for [@scope/name/more] the root is [@scope/name].  The root is always a
    prefix of the target, and taking the root twice changes nothing. *)
Theorem rootName_of_targets :
  (forall t, JS.includes t JS.slash = false -> rootName t = t)
  /\ (forall pkg rest,
        JS.includes pkg JS.slash = false -> JS.startsWith pkg "@" = false ->
        rootName (pkg +:+ "/" +:+ rest) = pkg)
  /\ (forall scope name,
        JS.includes scope JS.slash = false -> JS.includes name JS.slash = false ->
        rootName ("@" +:+ scope +:+ "/" +:+ name) = "@" +:+ scope +:+ "/" +:+ name)
  /\ (forall scope name rest,
        JS.includes scope JS.slash = false -> JS.includes name JS.slash = false ->
        rootName ("@" +:+ scope +:+ "/" +:+ name +:+ "/" +:+ rest)
        = "@" +:+ scope +:+ "/" +:+ name)
  /\ (forall t, String.prefix (rootName t) t = true)
  /\ (forall t, rootName (rootName t) = rootName t).
Proof.
  split; [exact rootName_no_slash|]. split; [exact rootName_unscoped|].
  split; [exact rootName_scoped_name|]. split; [exact rootName_scoped_path|].
  split; [exact rootName_prefix | exact rootName_idempotent].
Qed.

Lemma rootName_of_targets_witness :
  rootName ("lodash" +:+ "/" +:+ "fp/curry") = "lodash"
  /\ rootName ("@" +:+ "types" +:+ "/" +:+ "node" +:+ "/" +:+ "fs/promises") = "@types/node"
  /\ rootName "react" = "react".
Proof.
  destruct rootName_of_targets as (Hn & Hp & _ & Hs & _).
  split; [apply Hp; reflexivity|]. split; [apply Hs; reflexivity|].
  apply Hn. reflexivity.
Defined.

(** ** The dependencies [getModuleInfo] returns *)

Lemma forEach_visitSourceFile_dependencies packageName files c c' :
  forEach files (visitSourceFile packageName) c = Ok c' ->
  forall d, d ∈ cDependencies c' <->
    d ∈ cDependencies c
    \/ (d <> packageName /\
        exists src, src ∈ files /\
          ((exists t, t ∈ yielded (imports (statements src))
                      /\ JS.startsWith t "." = false /\ rootName t = d)
           \/ d ∈ typeReferenceDirectives src)).
Proof.
  revert c. induction files as [|src files IH]; intros c H d; simpl in H.
  - injection H as <-. split; [by left|].
    intros [?|(_ & src & Hsrc & _)]; [done | by apply elem_of_nil in Hsrc].
  - apply bind_Ok in H as (c1 & H1 & H).
    destruct (visitSourceFile_dependencies _ _ _ _ H1) as (l & Hl & Hd1).
    rewrite <- (arrayFrom_yielded _ _ Hl) in Hd1.
    rewrite (IH _ H d), Hd1. clear IH H H1 Hd1. split.
    + intros [[?|(Hne & Hsrc)]|(Hne & src' & Hin & Hsrc)].
      * by left.
      * right. split; [done|]. exists src. split; [by left | done].
      * right. split; [done|]. exists src'. split; [by right | done].
    + intros [?|(Hne & src' & [->|Hin]%elem_of_cons & Hsrc)].
      * left. by left.
      * left. right. done.
      * right. split; [done|]. by exists src'.
Qed.

(** X2: when [getModuleInfo] succeeds, its dependencies are exactly the
    names, other than the package's own, that are the dependency root of an
    import of some referenced file whose target does not begin with a dot,
    or the target of a type-reference directive of some referenced file; a
    relative import never gives a dependency. *)
Theorem getModuleInfo_dependencies
    (disk : Disk) (sched : list nat) (packageName directory : string)
    (entryFilenames : list string) (info : ModuleInfo) :
  getModuleInfo disk sched packageName directory entryFilenames = Some (Ok info) ->
  exists lines all,
    allReferencedFiles disk sched directory entryFilenames = Some (lines, Ok all)
    /\ forall d, d ∈ dependencies info <->
         d <> packageName /\
         exists src, src ∈ values all /\
           ((exists t, t ∈ yielded (imports (statements src))
                       /\ JS.startsWith t "." = false /\ rootName t = d)
            \/ d ∈ typeReferenceDirectives src).
Proof.
  intros H. unfold getModuleInfo in H.
  destruct (allReferencedFiles _ _ _ _) as [[lines [all|e]]|]; [|done..].
  simpl in H. injection H as H. unfold moduleInfoOf in H.
  apply bind_Ok in H as (c & Hc & [= <-]). simpl.
  exists lines, all. split; [done|]. intros d.
  rewrite (forEach_visitSourceFile_dependencies _ _ _ _ Hc d). simpl.
  rewrite elem_of_empty. tauto.
Qed.

Lemma getModuleInfo_dependencies_witness :
  getModuleInfo selfReferringDisk [0] "jquery" "jquery" ["index.d.ts"]
  = Some (Ok selfReferringInfo)
  /\ "@types/sizzle" ∈ dependencies selfReferringInfo.
Proof.
  assert (Hrun : getModuleInfo selfReferringDisk [0] "jquery" "jquery" ["index.d.ts"]
                 = Some (Ok selfReferringInfo)) by (vm_compute; reflexivity).
  split; [exact Hrun|].
  destruct (getModuleInfo_dependencies _ _ _ _ _ _ Hrun) as (lines & all & Hall & Hd).
  apply Hd. split; [discriminate|].
  vm_compute in Hall. injection Hall as _ <-.
  eexists. split; [by left|]. left. exists "@types/sizzle/lib".
  split; [simpl; by right; left|]. split; reflexivity.
Defined.

(** ** What a walk writes and how it can fail *)

Lemma arrayFrom_thrown {A} (g : Gen A) e : arrayFrom g = Throw e <-> thrown g = Some e.
Proof.
  induction g as [|a g IH|e']; simpl.
  - done.
  - rewrite <- IH. destruct (arrayFrom g); simpl; split; try done; by intros [= ->].
  - split; by intros [= ->].
Qed.

Lemma thrown_gseq {A} (g1 g2 : Gen A) e :
  thrown (gseq g1 g2) = Some e -> thrown g1 = Some e \/ thrown g2 = Some e.
Proof. induction g1 as [|a g1 IH|e']; simpl; [by right | exact IH | by left]. Qed.

Lemma thrown_yieldEach {A B} (keep : A -> bool) (f : A -> Result B) g e :
  thrown (yieldEach keep f g) = Some e ->
  thrown g = Some e \/ exists a, a ∈ yielded g /\ keep a = true /\ f a = Throw e.
Proof.
  induction g as [|a g IH|e']; simpl; [done | | by left].
  destruct (keep a) eqn:Hk.
  - destruct (f a) as [b|e'] eqn:Hf; simpl.
    + intros [?|(a' & ? & ? & ?)]%IH; [by left|]. right. exists a'. split; [by right | done].
    + intros [= ->]. right. exists a. split; [by left | done].
  - intros [?|(a' & ? & ? & ?)]%IH; [by left|]. right. exists a'. split; [by right | done].
Qed.

Lemma thrown_yieldAll {A} (l : list A) : thrown (yieldAll l) = None.
Proof. induction l as [|a l IH]; simpl; done. Qed.

(** [imports] ends, if not normally, with a type error: that of
    [parseRequire], or that of a body that is not a block *)
Lemma thrown_imports sts e :
  thrown (imports sts) = Some e -> e = TypeError.
Proof.
  assert (Hlist : forall sts,
    Forall (fun s => forall e, thrown (importsOfStatement s) = Some e ->
                       e = TypeError) sts ->
    forall e, thrown (imports sts) = Some e -> e = TypeError).
  { intros l. induction 1 as [|s l Hs _ IH]; simpl; [done|].
    intros e' [?|?]%thrown_gseq; eauto. }
  assert (Hdecl : forall d e, thrown (importsOfStatement (ModuleDeclaration d)) = Some e ->
                              e = TypeError).
  { induction d as [n|n d _|n l IH] using ModuleDecl_nested_ind; intros e' He.
    - destruct n; simpl in He; [done | by injection He as <-].
    - destruct n; simpl in He; [done | by injection He as <-].
    - destruct n as [t|x]; [done|].
      change (ModuleDeclaration (MkModuleDecl (StringLiteral x) (Some (ModuleBlock l))))
        with (declareModule x l) in He.
      rewrite importsOfStatement_declareModule in He.
      apply (Hlist l); [|done]. apply Forall_forall. intros s Hs.
      rewrite Forall_forall in IH. specialize (IH s Hs).
      destruct s as [[]|[[]|]|[[[]|]|]| | | | | | | | | |]; simpl; try done;
        try (by intros ? [= <-]). }
  apply Hlist. apply Forall_forall. intros s _.
  destruct s as [[]|[[]|]|[[[]|]|]|d| | | | | | | | |]; simpl; try done;
    try (by intros ? [= <-]).
  apply Hdecl.
Qed.

Lemma addReference_error src sub dir ref e :
  addReference src sub dir ref = Throw e ->
  e = ParentReference dir (fileName src) (text ref)
  \/ e = WindowsSlashes (fileName src) (text ref).
Proof.
  unfold addReference, assertNoWindowsSlashes.
  destruct (hasWindowsSlashes (text ref)); simpl; [intros [= <-]; by right|].
  destruct (JS.startsWith _ ".."); [intros [= <-]; by left | done].
Qed.

Lemma referencedFiles_error src sub dir e :
  arrayFrom (referencedFiles src sub dir) = Throw e ->
  (exists t, e = ParentReference dir (fileName src) t)
  \/ (exists t, e = WindowsSlashes (fileName src) t)
  \/ e = TypeError.
Proof.
  intros H%arrayFrom_thrown. unfold referencedFiles in H.
  apply thrown_gseq in H as [H|H]; apply thrown_yieldEach in H as [H|(t & _ & _ & H)].
  - by rewrite thrown_yieldAll in H.
  - apply addReference_error in H as [->| ->]; eauto.
  - apply thrown_imports in H. tauto.
  - apply addReference_error in H as [->| ->]; eauto.
Qed.

Lemma readReference_lines disk dir t lines r :
  readReference disk dir t = (lines, r) ->
  match r with
  | Ok _ => lines = []
  | Throw e =>
      lines = [cantBeRead dir (referencedFrom t) (text (reference t))]
      /\ exists f, e = ReadFailure dir f
  end.
Proof.
  unfold readReference, resolveModule, readFileAndReportErrors, readFileAndThrowOnBOM.
  destruct (exact (reference t)).
  - destruct (disk !! text (reference t)); simpl; intros [= <- <-]; eauto.
  - destruct (disk !! _); simpl; [by intros [= <- <-]|].
    destruct (disk !! _); simpl; intros [= <- <-]; eauto.
Qed.

Lemma recurResume_outcome disk dir t w lines r :
  recurResume disk dir t w = (lines, r) ->
  match r with
  | Ok w' => console w' = console w /\ lines = console w
  | Throw (ReadFailure d f) =>
      d = dir /\ lines = console w ++ [cantBeRead dir (referencedFrom t) (text (reference t))]
  | Throw e => lines = console w /\ referenceError e = true
  end.
Proof.
  unfold recurResume. destruct (readReference disk dir t) as [lines0 r0] eqn:Hread.
  apply readReference_lines in Hread. intros [= <- <-].
  destruct r0 as [[f c]|e]; simpl.
  - subst lines0. rewrite app_nil_r.
    destruct (arrayFrom _) as [refs|e] eqn:Hrefs; simpl.
    + by rewrite recurAll_console.
    + apply referencedFiles_error in Hrefs
        as [(t' & ->)|[(t' & ->)| ->]]; done.
  - destruct Hread as [-> (f & ->)]. done.
Qed.

Lemma run_outcome disk dir sched w lines r :
  console w = [] ->
  run disk dir sched w = Some (lines, r) ->
  match r with
  | Ok _ => lines = []
  | Throw (ReadFailure d f) => d = dir /\ exists from t, lines = [cantBeRead dir from t]
  | Throw e => lines = [] /\ referenceError e = true
  end.
Proof.
  revert w. induction sched as [|i sched IH]; intros w Hw Hrun; simpl in Hrun.
  - destruct (pending w); [|done]. injection Hrun as <- <-. done.
  - destruct (pending w) as [|t0 rest] eqn:Hp.
    { injection Hrun as <- <-. done. }
    destruct (recurResume _ _ _ _) as [lines' r'] eqn:Hstep.
    apply recurResume_outcome in Hstep. simpl in Hstep. rewrite Hw in Hstep.
    destruct r' as [w'|e].
    + destruct Hstep as [Hc _]. by apply (IH w').
    + injection Hrun as <- <-. destruct e; try done.
      destruct Hstep as [-> ->]. split; [done|]. eauto.
Qed.

Lemma allReferencedFiles_outcome disk sched dir entries lines r :
  allReferencedFiles disk sched dir entries = Some (lines, r) ->
  match r with
  | Ok _ => lines = []
  | Throw (ReadFailure d f) => d = dir /\ exists from t, lines = [cantBeRead dir from t]
  | Throw e => lines = [] /\ referenceError e = true
  end.
Proof. unfold allReferencedFiles. apply run_outcome. by rewrite recurAll_console. Qed.

(** *** The calls that run on *)

Lemma recurThrown_console disk dir t w lines e :
  recurResume disk dir t w = (lines, Throw e) ->
  console (recurThrown disk dir t w) = lines.
Proof.
  unfold recurResume, recurThrown.
  destruct (readReference disk dir t) as [lines0 r0]. by intros [= <- _].
Qed.

(** what a call that throws has written *)
Lemma recurThrown_lines disk dir t w lines e :
  recurResume disk dir t w = (lines, Throw e) ->
  lines = console w
  \/ (isOk (resolveReference disk dir (reference t)) = false
      /\ lines = console w ++ [cantBeRead dir (referencedFrom t) (text (reference t))]).
Proof.
  unfold recurResume. pose proof (readReference_from disk dir t) as Hfrom.
  destruct (readReference disk dir t) as [lines0 r0] eqn:Hread.
  apply readReference_lines in Hread. simpl in Hfrom. intros [= <- _].
  destruct r0 as [[f c]|e0].
  - left. subst lines0. by rewrite app_nil_r.
  - right. destruct Hread as [-> _]. by rewrite <- Hfrom.
Qed.

Section Aftermath.

Variables (disk : Disk) (directory : string) (entryFilenames : list string).

Lemma step_thrown_sound w k t0 lines e :
  Sound disk directory entryFilenames w ->
  k < length (pending w) ->
  recurResume disk directory (nth k (pending w) t0) (takeTask k w) = (lines, Throw e) ->
  Sound disk directory entryFilenames
    (recurThrown disk directory (nth k (pending w) t0) (takeTask k w))
  /\ measure (allTexts disk directory entryFilenames)
       (recurThrown disk directory (nth k (pending w) t0) (takeTask k w))
     < measure (allTexts disk directory entryFilenames) w.
Proof.
  intros Hsound Hk _.
  pose proof (elem_of_nth (pending w) k t0 Hk) as Ht.
  set (t := nth k (pending w) t0) in *.
  destruct Hsound as [Hp Hkeys Hn Hs].
  unfold recurThrown. pose proof (readReference_from disk directory t) as Hfrom.
  destruct (readReference disk directory t) as [lines0 r0]. simpl in Hfrom.
  split.
  - split; simpl.
    + intros t' Ht'. apply Hp. by apply elem_of_delete in Ht'.
    + destruct r0 as [[f c]|e0]; [|exact Hkeys].
      intros f' [->|Hf']%elem_of_keys_mapSet; [|by apply Hkeys].
      exists (reference t), c. split; [by apply Hp | done].
    + destruct r0 as [[f c]|e0]; [by apply NoDup_keys_mapSet | exact Hn].
    + exact Hs.
  - unfold measure. simpl. pose proof (length_delete_lt (pending w) k Hk). lia.
Qed.

Lemma runOn_terminates sched w :
  Sound disk directory entryFilenames w ->
  measure (allTexts disk directory entryFilenames) w <= length sched ->
  exists total, runOn disk directory sched w = Some total.
Proof.
  revert w. induction sched as [|i sched IH]; intros w Hsound Hm.
  - unfold measure in Hm. destruct w as [seen all [|t0 rest] console]; simpl in *; [eauto | lia].
  - simpl. destruct (pending w) as [|t0 rest] eqn:Hp; [eauto|].
    pose proof (mod_pending_lt i t0 rest) as Hk. rewrite <- Hp in *.
    destruct (recurResume _ _ _ _) as [lines [w'|e]] eqn:Hstep.
    + destruct (step_sound _ _ _ _ _ _ _ _ Hsound Hk Hstep) as [Hsound' Hm'].
      apply IH; [done|]. simpl in Hm. lia.
    + destruct (step_thrown_sound _ _ _ _ _ Hsound Hk Hstep) as [Hsound' Hm'].
      apply IH; [done|]. simpl in Hm. lia.
Qed.

(** the console only grows *)
Lemma runOn_prefix sched w total :
  runOn disk directory sched w = Some total -> console w `prefix_of` total.
Proof.
  revert w. induction sched as [|i sched IH]; intros w H; simpl in H.
  - destruct (pending w); [|done]. by injection H as <-.
  - destruct (pending w) as [|t0 rest] eqn:Hp; [by injection H as <-|].
    rewrite <- Hp in *.
    destruct (recurResume _ _ _ _) as [lines [w'|e]] eqn:Hstep.
    + pose proof (recurResume_outcome _ _ _ _ _ _ Hstep) as [Hc _]. simpl in Hc.
      rewrite <- Hc. by apply IH.
    + apply IH in H. rewrite (recurThrown_console _ _ _ _ _ _ Hstep) in H.
      etransitivity; [|exact H].
      destruct (recurThrown_lines _ _ _ _ _ _ Hstep) as [->|[_ ->]]; simpl;
        [done | by apply prefix_app_r].
Qed.

(** [runOn] goes the way of [run] as far as [run] goes *)
Lemma run_runOn sched w lines r total :
  run disk directory sched w = Some (lines, r) ->
  runOn disk directory sched w = Some total ->
  lines `prefix_of` total /\ (isOk r = true -> total = lines).
Proof.
  revert w. induction sched as [|i sched IH]; intros w Hrun Hon; simpl in *.
  - destruct (pending w); [|done]. injection Hrun as <- <-. by injection Hon as <-.
  - destruct (pending w) as [|t0 rest] eqn:Hp.
    { injection Hrun as <- <-. by injection Hon as <-. }
    rewrite <- Hp in *.
    destruct (recurResume _ _ _ _) as [lines' [w'|e]] eqn:Hstep; [by apply (IH w')|].
    injection Hrun as <- <-. split; [|done].
    apply runOn_prefix in Hon. by rewrite (recurThrown_console _ _ _ _ _ _ Hstep) in Hon.
Qed.

(** every line is for a reachable reference that cannot be read *)
Lemma runOn_lines sched w total :
  Sound disk directory entryFilenames w ->
  Forall (ReportsUnreadable disk directory entryFilenames) (console w) ->
  runOn disk directory sched w = Some total ->
  Forall (ReportsUnreadable disk directory entryFilenames) total.
Proof.
  revert w. induction sched as [|i sched IH]; intros w Hsound Hc H; simpl in H.
  - destruct (pending w); [|done]. by injection H as <-.
  - destruct (pending w) as [|t0 rest] eqn:Hp; [by injection H as <-|].
    pose proof (mod_pending_lt i t0 rest) as Hk. rewrite <- Hp in *.
    pose proof (elem_of_nth (pending w) (i mod length (pending w)) t0 Hk) as Ht.
    destruct (recurResume _ _ _ _) as [lines [w'|e]] eqn:Hstep.
    + destruct (step_sound _ _ _ _ _ _ _ _ Hsound Hk Hstep) as [Hsound' _].
      apply (IH w'); [done| |done].
      pose proof (recurResume_outcome _ _ _ _ _ _ Hstep) as [Hc' _]. simpl in Hc'.
      by rewrite Hc'.
    + destruct (step_thrown_sound _ _ _ _ _ Hsound Hk Hstep) as [Hsound' _].
      apply (IH _ Hsound'); [|done].
      rewrite (recurThrown_console _ _ _ _ _ _ Hstep).
      destruct (recurThrown_lines _ _ _ _ _ _ Hstep) as [->|[Hread ->]]; simpl; [done|].
      apply Forall_app. split; [done|]. apply Forall_singleton.
      eexists _, _. split; [|split; [exact Hread | done]].
      by apply (sound_pending _ _ _ _ Hsound).
Qed.

End Aftermath.

(** X3: what a walk writes to [console.error].  By the time the walk is
    settled it has written nothing if it returns its map, exactly one line
    (naming the package directory, a referencing file and a reference text)
    if it is rejected for a file that cannot be read, and nothing if it is
    rejected otherwise, which is then for a parent reference, a backslash or
    a type error.  A rejection does not stop the calls still under way, which
    may write further lines: when the schedule is carried on until no call is
    under way, the lines written by the time of the settlement are the first
    of all the lines written, each line written is for a reference, reachable
    from the entry files, whose read fails, and after a map was returned
    there is none.  A schedule as long as there are references carries the
    walk to that end. *)
Theorem allReferencedFiles_console
    (disk : Disk) (sched : list nat) (directory : string) (entryFilenames : list string)
    (lines : list string) (r : Result FileMap) :
  allReferencedFiles disk sched directory entryFilenames = Some (lines, r) ->
  match r with
  | Ok _ => lines = []
  | Throw (ReadFailure d f) =>
      d = directory /\ exists from t, lines = [cantBeRead directory from t]
  | Throw e => lines = [] /\ referenceError e = true
  end
  /\ (forall more total,
        consoleAtEnd disk (sched ++ more) directory entryFilenames = Some total ->
        lines `prefix_of` total
        /\ (isOk r = true -> total = [])
        /\ Forall (ReportsUnreadable disk directory entryFilenames) total)
  /\ (forall more,
        walkBound disk directory entryFilenames <= length (sched ++ more) ->
        exists total,
          consoleAtEnd disk (sched ++ more) directory entryFilenames = Some total).
Proof.
  intros Hrun. pose proof (allReferencedFiles_outcome _ _ _ _ _ _ Hrun) as Hout.
  split; [exact Hout|]. split.
  - intros more total Hon. unfold consoleAtEnd in Hon.
    pose proof (run_app _ _ _ more _ _ Hrun) as Hrun'.
    destruct (run_runOn disk directory (sched ++ more) (initialWalk entryFilenames)
                lines r total Hrun' Hon) as [Hpre Hok].
    split; [exact Hpre|]. split.
    + intros Hr. rewrite (Hok Hr). by destruct r.
    + apply (runOn_lines disk directory entryFilenames (sched ++ more)
               (initialWalk entryFilenames));
        [apply initial_sound | | exact Hon].
      unfold initialWalk. rewrite recurAll_console. simpl. constructor.
  - intros more Hlen. apply (runOn_terminates disk directory entryFilenames).
    + apply initial_sound.
    + etransitivity; [apply initial_measure | exact Hlen].
Qed.

Lemma allReferencedFiles_console_witness :
  allReferencedFiles twoMissingDisk [0; 0] "pkg" ["index.d.ts"]
  = Some (["In pkg, index.d.ts references gone, which can't be read."],
          Throw (ReadFailure "pkg" "gone/index.d.ts"))
  /\ consoleAtEnd twoMissingDisk ([0; 0] ++ [0]) "pkg" ["index.d.ts"]
     = Some ["In pkg, index.d.ts references gone, which can't be read.";
             "In pkg, index.d.ts references lost, which can't be read."]
  /\ Forall (ReportsUnreadable twoMissingDisk "pkg" ["index.d.ts"])
       ["In pkg, index.d.ts references gone, which can't be read.";
        "In pkg, index.d.ts references lost, which can't be read."].
Proof.
  assert (Hrun : allReferencedFiles twoMissingDisk [0; 0] "pkg" ["index.d.ts"]
            = Some (["In pkg, index.d.ts references gone, which can't be read."],
                    Throw (ReadFailure "pkg" "gone/index.d.ts")))
    by (vm_compute; reflexivity).
  assert (Hon : consoleAtEnd twoMissingDisk ([0; 0] ++ [0]) "pkg" ["index.d.ts"]
            = Some ["In pkg, index.d.ts references gone, which can't be read.";
                    "In pkg, index.d.ts references lost, which can't be read."])
    by (vm_compute; reflexivity).
  split; [exact Hrun|]. split; [exact Hon|].
  destruct (allReferencedFiles_console _ _ _ _ _ _ Hrun) as (_ & H & _).
  exact (proj2 (proj2 (H [0] _ Hon))).
Defined.

(** ** Every text is read once *)

Lemma recurEnter_distinct from w ref :
  Distinct w -> Distinct (recurEnter from w ref).
Proof.
  intros [Hnd Hseen]. unfold recurEnter.
  destruct (decide (text ref ∈ seenReferences w)) as [Hin|Hnin]; [done|].
  split; simpl.
  - rewrite map_app. apply NoDup_app. split; [done|]. split; [|apply NoDup_singleton].
    intros x Hx [->|H]%elem_of_cons; [|by apply elem_of_nil in H].
    apply list_elem_of_fmap in Hx as (t & Ht & Hin). apply Hnin.
    unfold taskText in Ht. simpl in Ht. rewrite Ht. by apply Hseen.
  - intros t [Ht|Ht]%elem_of_app.
    + apply elem_of_union. right. by apply Hseen.
    + apply list_elem_of_singleton in Ht as ->. apply elem_of_union. left.
      by apply elem_of_singleton.
Qed.

Lemma recurAll_distinct from refs w : Distinct w -> Distinct (recurAll from refs w).
Proof.
  unfold recurAll. revert w. induction refs as [|r refs IH]; intros w Hw; simpl; [done|].
  by apply IH, recurEnter_distinct.
Qed.

Lemma NoDup_delete_nth {A B} (g : A -> B) (l : list A) k d :
  NoDup (map g l) -> k < length l ->
  (g (nth k l d) ∉ map g (delete k l)) /\ NoDup (map g (delete k l)).
Proof.
  revert k. induction l as [|a l IH]; intros k Hnd Hk; simpl in *; [lia|].
  apply NoDup_cons in Hnd as [Ha Hnd]. destruct k as [|k]; simpl; [done|].
  destruct (IH k Hnd ltac:(lia)) as [Hn Hd]. split.
  - intros [Heq|Hin]%elem_of_cons; [|done].
    apply Ha. rewrite <- Heq. apply list_elem_of_fmap_2, elem_of_nth. lia.
  - apply NoDup_cons. split; [|done].
    intros (x & Hx & Hin)%list_elem_of_fmap. apply Ha.
    apply list_elem_of_fmap. exists x. split; [done|]. by apply elem_of_delete in Hin.
Qed.

Lemma takeTask_distinct w k t0 f src lines :
  Distinct w -> k < length (pending w) ->
  Distinct {| seenReferences := seenReferences (takeTask k w);
              all := mapSet f src (all (takeTask k w));
              pending := pending (takeTask k w);
              console := console (takeTask k w) ++ lines |}
  /\ (taskText (nth k (pending w) t0) ∉ map taskText (delete k (pending w)))
  /\ taskText (nth k (pending w) t0) ∈ seenReferences w.
Proof.
  intros [Hnd Hseen] Hk.
  destruct (NoDup_delete_nth taskText (pending w) k t0 Hnd Hk) as [Hn Hd].
  split; [|split; [done|]].
  - split; simpl; [done|]. intros t Ht. apply Hseen. by apply elem_of_delete in Ht.
  - by apply Hseen, elem_of_nth.
Qed.

Lemma completed_distinct disk dir sched w :
  Distinct w ->
  NoDup (map taskText (completed disk dir sched w))
  /\ forall t, t ∈ completed disk dir sched w ->
       taskText t ∈ map taskText (pending w) \/ taskText t ∉ seenReferences w.
Proof.
  revert w. induction sched as [|i sched IH]; intros w Hw; simpl.
  { destruct (pending w); simpl; (split; [apply NoDup_nil_2|]);
      intros x Hx; by apply elem_of_nil in Hx. }
  destruct (pending w) as [|t0 rest] eqn:Hp.
  { simpl. split; [apply NoDup_nil_2|]. intros x Hx. by apply elem_of_nil in Hx. }
  pose proof (mod_pending_lt i t0 rest) as Hk. rewrite <- Hp in *.
  set (k := i mod length (pending w)) in *.
  set (t := nth k (pending w) t0).
  assert (Ht : taskText t ∈ map taskText (pending w))
    by (by apply list_elem_of_fmap_2, elem_of_nth).
  destruct (recurResume disk dir t (takeTask k w)) as [lines [w'|e]] eqn:Hstep; simpl.
  2:{ split; [apply NoDup_singleton|].
      intros t' Ht'%list_elem_of_singleton. subst t'. by left. }
  apply recurResume_Ok in Hstep as (lines0 & f & c & refs & _ & _ & _ & ->).
  destruct (takeTask_distinct w k t0 f (createSourceFile f c) lines0 Hw Hk)
    as (Hw2 & Hfresh & Hseen).
  fold t in Hfresh, Hseen.
  match goal with |- context [recurAll f refs ?w0] => set (w2 := w0) in * end.
  destruct (IH _ (recurAll_distinct f refs w2 Hw2)) as [Hnd Hrest].
  destruct (recurAll_pending f refs w2) as (new & Hpending & Hnew & _).
  assert (Hlater : forall t', t' ∈ completed disk dir sched (recurAll f refs w2) ->
            taskText t' <> taskText t
            /\ (taskText t' ∈ map taskText (pending w) \/ taskText t' ∉ seenReferences w)).
  { intros t' Ht'. destruct (Hrest t' Ht') as [Hin|Hout].
    - rewrite Hpending, map_app in Hin. apply elem_of_app in Hin as [Hin|Hin].
      + split; [intros Heq; apply Hfresh; by rewrite <- Heq|]. left.
        apply list_elem_of_fmap in Hin as (x & -> & Hx).
        apply list_elem_of_fmap_2. by apply (elem_of_delete _ k).
      + apply list_elem_of_fmap in Hin as (x & Hx & Hin).
        destruct (Hnew x Hin) as [_ Hns]. fold (taskText x) in Hns. rewrite <- Hx in Hns.
        split; [|by right]. intros Heq. apply Hns. by rewrite Heq.
    - assert (Hns : taskText t' ∉ seenReferences w).
      { intros Hin. apply Hout, recurAll_seen. by left. }
      split; [|by right]. intros Heq. apply Hns. by rewrite Heq. }
  split.
  - apply NoDup_cons. split; [|done].
    intros (t' & Heq & Ht')%list_elem_of_fmap. by destruct (Hlater t' Ht') as [Hne _].
  - intros t' [->|Ht']%elem_of_cons; [by left | by apply Hlater].
Qed.

Lemma completed_reachable disk dir entries sched w :
  Sound disk dir entries w ->
  forall t, t ∈ completed disk dir sched w -> Reachable disk dir entries (reference t).
Proof.
  revert w. induction sched as [|i sched IH]; intros w Hw t Ht; simpl in Ht.
  { destruct (pending w); by apply elem_of_nil in Ht. }
  destruct (pending w) as [|t0 rest] eqn:Hp; [by apply elem_of_nil in Ht|].
  pose proof (mod_pending_lt i t0 rest) as Hk. rewrite <- Hp in *.
  apply elem_of_cons in Ht as [->|Ht].
  - by apply (sound_pending _ _ _ _ Hw), elem_of_nth.
  - destruct (recurResume _ _ _ _) as [lines [w'|e]] eqn:Hstep;
      [|by apply elem_of_nil in Ht].
    destruct (step_sound _ _ _ _ _ _ _ _ Hw Hk Hstep) as [Hw' _]. by apply (IH w').
Qed.

Lemma initial_distinct entries : Distinct (initialWalk entries).
Proof.
  apply recurAll_distinct. split; simpl; [apply NoDup_nil_2|].
  intros t Ht. by apply elem_of_nil in Ht.
Qed.

(** the keys of the returned map are the files of the completed calls *)
Lemma run_keys_completed disk dir sched w lines all' :
  run disk dir sched w = Some (lines, Ok all') ->
  forall f, f ∈ keys all' <->
    f ∈ keys (all w)
    \/ exists t c, t ∈ completed disk dir sched w
                   /\ resolveReference disk dir (reference t) = Ok (f, c).
Proof.
  revert w. induction sched as [|i sched IH]; intros w Hrun f; simpl in *.
  { destruct (pending w); [|done]. injection Hrun as _ <-. split; [by left|].
    intros [?|(t & c & Ht & _)]; [done | by apply elem_of_nil in Ht]. }
  destruct (pending w) as [|t0 rest] eqn:Hp.
  { injection Hrun as _ <-. split; [by left|].
    intros [?|(t & c & Ht & _)]; [done | by apply elem_of_nil in Ht]. }
  rewrite <- Hp in *.
  destruct (recurResume _ _ _ _) as [lines' [w'|e]] eqn:Hstep; [|by injection Hrun].
  rewrite (IH w' Hrun f).
  apply recurResume_Ok in Hstep as (lines0 & f0 & c0 & refs & _ & Hres & _ & ->).
  rewrite recurAll_all. simpl. rewrite elem_of_keys_mapSet. split.
  - intros [[->|?]|(t & c & Ht & Hc)].
    + right. eexists _, c0. split; [by left | done].
    + by left.
    + right. exists t, c. split; [by right | done].
  - intros [?|(t & c & [->|Ht]%elem_of_cons & Hc)].
    + left. by right.
    + left. left. rewrite Hres in Hc. by injection Hc as <-.
    + right. by exists t, c.
Qed.

(** X4: however the reads are scheduled, no reference text is read twice:
    the calls that complete in the course of a walk are for different texts,
    each of them the text of a reference reachable from the entry files, and
    there are no more of them than there are references in the entry list
    and in the files of the package.  The keys of the map that is returned
    are the files these calls resolve to. *)
Theorem every_text_is_read_once
    (disk : Disk) (sched : list nat) (directory : string) (entryFilenames : list string) :
  let calls := completed disk directory sched (initialWalk entryFilenames) in
  NoDup (map taskText calls)
  /\ (forall t, t ∈ calls -> Reachable disk directory entryFilenames (reference t))
  /\ length calls <= walkBound disk directory entryFilenames
  /\ (forall lines all,
        allReferencedFiles disk sched directory entryFilenames = Some (lines, Ok all) ->
        forall f, f ∈ keys all <->
          exists t c, t ∈ calls /\ resolveReference disk directory (reference t) = Ok (f, c)).
Proof.
  intros calls.
  destruct (completed_distinct disk directory sched _ (initial_distinct entryFilenames))
    as [Hnd _].
  assert (Hreach : forall t, t ∈ calls ->
            Reachable disk directory entryFilenames (reference t)).
  { apply completed_reachable, initial_sound. }
  split; [exact Hnd|]. split; [exact Hreach|]. split.
  - unfold walkBound.
    rewrite <- (length_map text (referencesOn _ _ _)), <- (length_map taskText calls).
    apply submseteq_length, NoDup_submseteq; [exact Hnd|].
    intros x (t & -> & Ht)%list_elem_of_fmap.
    unfold taskText. apply (list_elem_of_fmap_2 text). by apply reachable_on, Hreach.
  - intros lines all Hrun f. unfold allReferencedFiles in Hrun.
    rewrite (run_keys_completed _ _ _ _ _ _ Hrun f).
    fold (initialWalk entryFilenames). unfold initialWalk at 1. rewrite recurAll_all. simpl.
    split; [intros [H|H]; [by apply elem_of_nil in H | exact H] | by right].
Qed.

Lemma every_text_is_read_once_witness :
  map taskText (completed cyclicDisk "pkg" [1; 0; 2; 0] (initialWalk ["a.d.ts"; "b.d.ts"]))
  = ["b.d.ts"; "a.d.ts"; "a"; "b"]
  /\ forall f, f ∈ keys cyclicFiles <->
       exists t c, t ∈ completed cyclicDisk "pkg" [0; 0; 0] (initialWalk ["a.d.ts"])
                   /\ resolveReference cyclicDisk "pkg" (reference t) = Ok (f, c).
Proof.
  split; [vm_compute; reflexivity|].
  destruct (every_text_is_read_once cyclicDisk [0; 0; 0] "pkg" ["a.d.ts"])
    as (_ & _ & _ & H).
  apply (H []). vm_compute. reflexivity.
Defined.

(** ** The schedule does not matter *)

Lemma walk_keys disk sched dir entries lines all :
  allReferencedFiles disk sched dir entries = Some (lines, Ok all) ->
  NoDup (keys all)
  /\ (forall f, f ∈ keys all -> ReachableFile disk dir entries f)
  /\ (Unambiguous disk dir entries ->
      (forall f, ReachableFile disk dir entries f -> f ∈ keys all)
      /\ Resolvable disk dir entries).
Proof.
  intros Hrun. unfold allReferencedFiles in Hrun. fold (initialWalk entries) in Hrun.
  destruct (run_invariant disk dir entries sched _ lines all
              (initial_sound disk dir entries) Hrun)
    as (w & Hsound & Hp & <- & Hcomplete).
  split; [by apply (sound_nodup _ _ _ _ Hsound)|].
  split; [by apply (sound_keys _ _ _ _ Hsound)|].
  intros Hu. specialize (Hcomplete Hu (initial_complete disk dir entries Hu)).
  split.
  - intros f (r & c & Hr & Hres).
    destruct (complete_finished disk dir entries w r Hcomplete Hp Hr)
      as (f' & c' & refs & Hres' & Hf' & _).
    rewrite Hres in Hres'. by injection Hres' as <- <-.
  - intros r Hr.
    destruct (complete_finished disk dir entries w r Hcomplete Hp Hr)
      as (f & c & refs & Hres & _ & Hrefs & _).
    by exists f, c, refs.
Qed.

Lemma sort_Permutation (l1 l2 : list string) : l1 ≡ₚ l2 -> sort l1 = sort l2.
Proof.
  intros Hp. unfold sort. apply (Sorted_unique String.le).
  - apply Sorted_merge_sort; apply _.
  - apply Sorted_merge_sort; apply _.
  - by rewrite !merge_sort_Permutation.
Qed.

(** X5: the schedule of the reads does not matter when no reference text is
    reached both as a path reference and as a relative import.  If the walk
    returns a map under one schedule, it is rejected under none; under every
    schedule that is long enough it returns a map with the same keys and
    writes nothing; and [declFiles] is the same list whatever the schedule. *)
Theorem walk_result_is_schedule_independent
    (disk : Disk) (directory : string) (entryFilenames : list string)
    (sched1 : list nat) (lines1 : list string) (all1 : FileMap) :
  Unambiguous disk directory entryFilenames ->
  allReferencedFiles disk sched1 directory entryFilenames = Some (lines1, Ok all1) ->
  (forall sched2 lines2 e,
     allReferencedFiles disk sched2 directory entryFilenames <> Some (lines2, Throw e))
  /\ (forall sched2,
        walkBound disk directory entryFilenames <= length sched2 ->
        exists all2,
          allReferencedFiles disk sched2 directory entryFilenames = Some ([], Ok all2)
          /\ keys all2 ≡ₚ keys all1)
  /\ (forall sched2 packageName info1 info2,
        getModuleInfo disk sched1 packageName directory entryFilenames = Some (Ok info1) ->
        getModuleInfo disk sched2 packageName directory entryFilenames = Some (Ok info2) ->
        declFiles info1 = declFiles info2).
Proof.
  intros Hu Hrun1.
  destruct (walk_keys _ _ _ _ _ _ Hrun1) as (Hnd1 & Hsub1 & Hrest1).
  destruct (Hrest1 Hu) as [Hsup1 Hres].
  assert (Hperm : forall sched2 lines2 all2,
    allReferencedFiles disk sched2 directory entryFilenames = Some (lines2, Ok all2) ->
    keys all2 ≡ₚ keys all1).
  { intros sched2 lines2 all2 Hrun2.
    destruct (walk_keys _ _ _ _ _ _ Hrun2) as (Hnd2 & Hsub2 & Hrest2).
    destruct (Hrest2 Hu) as [Hsup2 _].
    apply NoDup_Permutation; [done | done|]. intros f. split; eauto. }
  assert (Hnever : forall sched2 lines2 e,
    allReferencedFiles disk sched2 directory entryFilenames <> Some (lines2, Throw e)).
  { intros sched2 lines2 e.
    apply (run_resolvable disk directory entryFilenames); [exact Hres | apply initial_sound]. }
  split; [exact Hnever|]. split.
  - intros sched2 Hlen.
    destruct (run_terminates disk directory entryFilenames sched2
                (initialWalk entryFilenames) (initial_sound _ _ _)) as ([lines2 r2] & Hrun2).
    { etransitivity; [apply initial_measure | exact Hlen]. }
    fold (allReferencedFiles disk sched2 directory entryFilenames) in Hrun2.
    destruct r2 as [all2|e]; [|by destruct (Hnever sched2 lines2 e)].
    pose proof (allReferencedFiles_outcome _ _ _ _ _ _ Hrun2) as Hlines. simpl in Hlines.
    subst lines2. exists all2. split; [done|]. by apply (Hperm sched2 []).
  - intros sched2 packageName info1 info2 H1 H2.
    apply getModuleInfo_declFiles in H1 as (l1 & a1 & Ha1 & ->).
    apply getModuleInfo_declFiles in H2 as (l2 & a2 & Ha2 & ->).
    rewrite Hrun1 in Ha1. injection Ha1 as _ <-.
    apply sort_Permutation. symmetry. by apply (Hperm sched2 l2).
Qed.

Lemma walk_result_is_schedule_independent_witness :
  exists all2,
    allReferencedFiles cyclicDisk [1; 0; 2; 0] "pkg" ["a.d.ts"; "b.d.ts"] = Some ([], Ok all2)
    /\ keys all2 ≡ₚ ["a.d.ts"; "b.d.ts"].
Proof.
  assert (Hrun : allReferencedFiles cyclicDisk [0; 0; 0; 0] "pkg" ["a.d.ts"; "b.d.ts"]
                 = Some ([], Ok cyclicFiles)) by (vm_compute; reflexivity).
  destruct (walk_result_is_schedule_independent cyclicDisk "pkg" ["a.d.ts"; "b.d.ts"]
              [0; 0; 0; 0] [] cyclicFiles) as (_ & H & _).
  - apply unambiguous_sound. vm_compute. reflexivity.
  - exact Hrun.
  - apply (H [1; 0; 2; 0]). vm_compute. lia.
Defined.

(** ** What [imports] passes over, and what it cannot take *)

Lemma imports_silent pre s post :
  importsOfStatement s = GDone -> imports (pre ++ s :: post) = imports (pre ++ post).
Proof. intros Hs. rewrite !imports_app. simpl. by rewrite Hs. Qed.

Lemma thrown_gseq_l {A} (g1 g2 : Gen A) e :
  thrown g1 = Some e -> thrown (gseq g1 g2) = Some e.
Proof. induction g1 as [|a g1 IH|e']; simpl; done. Qed.

Lemma thrown_gseq_r {A} (g1 g2 : Gen A) e :
  thrown g2 = Some e -> exists e', thrown (gseq g1 g2) = Some e'.
Proof. induction g1 as [|a g1 IH|e']; simpl; eauto. Qed.

Lemma thrown_imports_elem sts s e :
  s ∈ sts -> thrown (importsOfStatement s) = Some e ->
  exists e', thrown (imports sts) = Some e'.
Proof.
  intros (pre & post & ->)%list_elem_of_split Hs. rewrite imports_app. simpl.
  apply (thrown_gseq_r _ _ e). by apply thrown_gseq_l.
Qed.

Lemma thrown_imports_written sts s e :
  WrittenIn s sts -> thrown (importsOfStatement s) = Some e ->
  exists e', thrown (imports sts) = Some e'.
Proof.
  intros Hw Hs. induction Hw as [sts Hin|x body sts Hin _ IH].
  - by apply (thrown_imports_elem sts s e).
  - destruct IH as (e' & He').
    apply (thrown_imports_elem sts (declareModule x body) e'); [done|].
    by rewrite importsOfStatement_declareModule.
Qed.

Lemma thrown_yieldEach_source {A B} (keep : A -> bool) (f : A -> Result B) g e :
  thrown g = Some e -> exists e', thrown (yieldEach keep f g) = Some e'.
Proof.
  induction g as [|a g IH|e']; simpl; [done | | eauto].
  intros H. destruct (keep a); [|by apply IH]. destruct (f a); simpl; eauto.
Qed.

Lemma forOf_thrown {A S} (g : Gen A) (body : A -> S -> S) s e :
  thrown g = Some e -> forOf g (fun a s => Ok (body a s)) s = Throw e.
Proof.
  revert s. induction g as [|a g IH|e']; intros s H; simpl in *;
    [done | by apply IH | by injection H as ->].
Qed.

(** X6: what [imports] passes over and what it cannot take.  A module
    declaration named by an identifier is passed over whole, whatever its
    body holds, and so is an import-equals that does not use [require].  A
    string-named module declaration without a body makes [imports] throw a
    type error; wherever such a declaration is written in a file, at the top
    level or inside string-named modules, the imports of the file cannot be
    collected, so neither its references nor its dependencies can. *)
Theorem imports_passes_over_namespaces :
  (forall pre n body post,
     imports (pre ++ ModuleDeclaration (MkModuleDecl (Identifier n) body) :: post)
     = imports (pre ++ post))
  /\ (forall pre post,
        imports (pre ++ ImportEqualsDeclaration EntityName :: post) = imports (pre ++ post))
  /\ (forall x post, imports (shorthandModule x :: post) = GThrow TypeError)
  /\ (forall src x,
        WrittenIn (shorthandModule x) (statements src) ->
        (exists e, arrayFrom (imports (statements src)) = Throw e)
        /\ (forall subDirectory directory,
              exists e, arrayFrom (referencedFiles src subDirectory directory) = Throw e)
        /\ (forall packageName c, exists e, visitSourceFile packageName src c = Throw e)).
Proof.
  split; [|split; [|split]].
  - intros pre n body post. by apply imports_silent.
  - intros pre post. by apply imports_silent.
  - done.
  - intros src x Hw.
    destruct (thrown_imports_written _ _ TypeError Hw eq_refl) as (e & He).
    split; [|split].
    + exists e. by apply arrayFrom_thrown.
    + intros sub dir. unfold referencedFiles.
      destruct (thrown_yieldEach_source (fun ref => JS.startsWith ref ".")
                  (fun ref => addReference src sub dir {| exact := false; text := ref |})
                  _ _ He) as (e1 & He1).
      destruct (thrown_gseq_r
                  (yieldEach (fun _ => true)
                     (fun ref => addReference src sub dir {| exact := true; text := ref |})
                     (yieldAll (referencedFiles_ src))) _ _ He1) as (e2 & He2).
      exists e2. by apply arrayFrom_thrown.
    + intros packageName c. exists e. unfold visitSourceFile.
      rewrite (forOf_thrown _ (fun ref c =>
                 if negb (JS.startsWith ref ".")
                 then addDependency packageName (rootName ref) c else c) c e He).
      done.
Qed.

Lemma imports_passes_over_namespaces_witness :
  exists e, visitSourceFile "pkg" shorthandFile emptyCollected = Throw e.
Proof.
  destruct imports_passes_over_namespaces as (_ & _ & _ & H).
  destruct (H shorthandFile "x") as (_ & _ & Hv).
  - apply written_here. simpl. by right; right; left.
  - apply Hv.
Defined.

(** ** What a successful run of [getTestDependencies] says *)

Lemma visitTestFile_inv disk pkgName directory dependencies filename s s' :
  visitTestFile disk pkgName directory dependencies filename s = Ok s' ->
  exists c l, disk !! filename = Some c
    /\ arrayFrom (imports (contentStatements c)) = Ok l
    /\ testFileViolation pkgName dependencies c = false.
Proof.
  intros H. destruct (disk !! filename) as [c|] eqn:Hc.
  2: { unfold visitTestFile, readFileAndThrowOnBOM in H. by rewrite Hc in H. }
  destruct (testFileViolation pkgName dependencies c) eqn:Hv.
  { destruct (visitTestFile_violation disk pkgName directory dependencies filename c s Hc Hv)
      as (e & He). by rewrite He in H. }
  destruct (arrayFrom (imports (contentStatements c))) as [l|e] eqn:Hl; [by exists c, l|].
  exfalso. unfold visitTestFile, readFileAndThrowOnBOM in H. rewrite Hc in H. simpl in H.
  unfold testFileViolation in Hv. apply orb_false_iff in Hv as [Hr Ht].
  destruct (contentReferencedFiles c); [|done]. simpl in H.
  destruct (testTypeReferences_ok pkgName dependencies
              (path.join pkgName filename) _ s Ht) as (s1 & Hs1 & _).
  rewrite Hs1 in H. simpl in H.
  by rewrite (testImports_throw pkgName dependencies _ e s1 Hl) in H.
Qed.

Lemma forEach_visitTestFile_inv disk pkgName directory dependencies testFiles s s' :
  forEach testFiles (visitTestFile disk pkgName directory dependencies) s = Ok s' ->
  forallb (testFileReadable disk) testFiles = true
  /\ forall f c, f ∈ testFiles -> disk !! f = Some c ->
                 testFileViolation pkgName dependencies c = false.
Proof.
  revert s. induction testFiles as [|f fs IH]; intros s H; simpl in *.
  - split; [done|]. intros f c Hf. by apply elem_of_nil in Hf.
  - apply bind_Ok in H as (s1 & H1 & H2).
    apply visitTestFile_inv in H1 as (c & l & Hc & Hl & Hv).
    destruct (IH _ H2) as [Hr Hvs]. split.
    + apply andb_true_iff. split; [|done]. unfold testFileReadable. by rewrite Hc, Hl.
    + intros f' c' [->|Hf']%elem_of_cons Hc'; [congruence | by apply (Hvs f')].
Qed.

Lemma getTestDependencies_Ok disk pkgName directory dependencies testFiles s :
  getTestDependencies disk pkgName directory testFiles dependencies = Ok s ->
  forallb (testFileReadable disk) testFiles = true
  /\ (forall f c, f ∈ testFiles -> disk !! f = Some c ->
                  testFileViolation pkgName dependencies c = false)
  /\ forall x, x ∈ s <->
       exists f c, f ∈ testFiles /\ disk !! f = Some c
                   /\ x ∈ testFileTargets pkgName dependencies c.
Proof.
  intros H. unfold getTestDependencies in H.
  destruct (forEach_visitTestFile_inv _ _ _ _ _ _ _ H) as [Hr Hv].
  split; [done|]. split; [done|].
  destruct (forEach_visitTestFile disk pkgName directory dependencies testFiles ∅ Hr Hv)
    as (s' & Hs' & Hx).
  rewrite H in Hs'. injection Hs' as <-. intros x. rewrite Hx, elem_of_empty. tauto.
Qed.

Lemma novelImport_new pkgName (dependencies : gset string) t :
  novelImport pkgName dependencies t = true -> (t ∉ dependencies) /\ t <> pkgName.
Proof.
  unfold novelImport. intros [[_ H1]%andb_true_iff H2]%andb_true_iff.
  apply negb_true_iff, bool_decide_eq_false in H1, H2. done.
Qed.

Lemma testFileTargets_new pkgName (dependencies : gset string) c x :
  testFileViolation pkgName dependencies c = false ->
  x ∈ testFileTargets pkgName dependencies c -> (x ∉ dependencies) /\ x <> pkgName.
Proof.
  unfold testFileViolation, testFileTargets.
  intros [_ Ht]%orb_false_iff [Hx|Hx]%elem_of_app.
  - destruct (bool_decide (x ∈ dependencies) || bool_decide (x = pkgName)) eqn:Hb.
    + assert (existsb (fun r => bool_decide (r ∈ dependencies) || bool_decide (r = pkgName))
                (contentTypeReferenceDirectives c) = true); [|congruence].
      apply existsb_exists. exists x. split; [by apply list_elem_of_In | done].
    + apply orb_false_iff in Hb as [H1 H2]. by apply bool_decide_eq_false in H1, H2.
  - apply list_elem_of_filter in Hx as [Hx _]. by apply novelImport_new.
Qed.

(** X7: what a successful run of [getTestDependencies] says.  When it
    returns a set, every test file was read and has no path-style reference
    directive, and the set holds neither the package's own name nor any of
    the known dependencies: it lists new packages only. *)
Theorem getTestDependencies_only_new_packages
    (disk : Disk) (pkgName directory : string) (testFiles : list string)
    (dependencies s : gset string) :
  getTestDependencies disk pkgName directory testFiles dependencies = Ok s ->
  (pkgName ∉ s)
  /\ (forall x, x ∈ s -> x ∉ dependencies)
  /\ (forall f, f ∈ testFiles ->
        exists c, disk !! f = Some c /\ contentReferencedFiles c = []).
Proof.
  intros (Hr & Hv & Hx)%getTestDependencies_Ok.
  assert (Hnew : forall x, x ∈ s -> (x ∉ dependencies) /\ x <> pkgName).
  { intros x (f & c & Hf & Hc & Ht)%Hx.
    by apply (testFileTargets_new pkgName dependencies c x); [apply (Hv f)|]. }
  split; [|split].
  - intros Hp. by destruct (Hnew _ Hp).
  - intros x Hs. by destruct (Hnew _ Hs).
  - intros f Hf. rewrite forallb_forall in Hr.
    specialize (Hr f). rewrite <- list_elem_of_In in Hr. specialize (Hr Hf).
    unfold testFileReadable in Hr. destruct (disk !! f) as [c|] eqn:Hc; [|done].
    exists c. split; [done|]. specialize (Hv f c Hf Hc).
    unfold testFileViolation in Hv. apply orb_false_iff in Hv as [Hv _].
    by destruct (contentReferencedFiles c).
Qed.

Lemma getTestDependencies_only_new_packages_witness :
  ("pkg" ∉ ({["mocha"; "chai"]} : gset string))
  /\ (forall x, x ∈ ({["mocha"; "chai"]} : gset string) -> x ∉ ({["known"]} : gset string))
  /\ (forall f, f ∈ ["pkg-tests.ts"] ->
        exists c, someTestsDisk !! f = Some c /\ contentReferencedFiles c = []).
Proof.
  apply (getTestDependencies_only_new_packages someTestsDisk "pkg" "pkg").
  vm_compute; reflexivity.
Defined.

(** X8: the order of the test files does not matter.  Two lists naming the
    same test files, in any order and with any repetition, give the same
    outcome: if [getTestDependencies] returns a set for one, it returns the
    same set for the other. *)
Theorem getTestDependencies_order_irrelevant
    (disk : Disk) (pkgName directory : string) (testFiles testFiles' : list string)
    (dependencies s : gset string) :
  (forall f, f ∈ testFiles <-> f ∈ testFiles') ->
  getTestDependencies disk pkgName directory testFiles dependencies = Ok s ->
  getTestDependencies disk pkgName directory testFiles' dependencies = Ok s.
Proof.
  intros Hsame (Hr & Hv & Hx)%getTestDependencies_Ok.
  assert (Hr' : forallb (testFileReadable disk) testFiles' = true).
  { apply forallb_forall. intros f Hf. rewrite forallb_forall in Hr. apply Hr.
    apply list_elem_of_In, Hsame. by apply list_elem_of_In. }
  destruct (forEach_visitTestFile disk pkgName directory dependencies testFiles' ∅ Hr')
    as (s' & Hs' & Hx').
  { intros f c Hf. apply Hv. by apply Hsame. }
  unfold getTestDependencies. rewrite Hs'. f_equal. apply set_eq. intros x.
  rewrite Hx, Hx', elem_of_empty. split.
  - intros [[]|(f & c & Hf & H)]. exists f, c. split; [by apply Hsame | done].
  - intros (f & c & Hf & H). right. exists f, c. split; [by apply Hsame | done].
Qed.

Lemma getTestDependencies_order_irrelevant_witness :
  getTestDependencies twoTestsDisk "pkg" "pkg" ["b-tests.ts"; "a-tests.ts"; "b-tests.ts"] ∅
  = Ok {["mocha"; "chai"]}.
Proof.
  apply (getTestDependencies_order_irrelevant twoTestsDisk "pkg" "pkg"
           ["a-tests.ts"; "b-tests.ts"]).
  - intros f. rewrite !elem_of_cons, elem_of_nil. tauto.
  - vm_compute; reflexivity.
Defined.

(** ** Globals *)

Lemma addDependency_globals packageName dependency c :
  cGlobals (addDependency packageName dependency c) = cGlobals c.
Proof. unfold addDependency. by destruct (decide _). Qed.

Lemma variable_globals declarations c g :
  g ∈ cGlobals (fold_left (fun c decl =>
                  match decl with
                  | BindingIdentifier text => addGlobal text c
                  | BindingPattern => c
                  end) declarations c)
  <-> g ∈ cGlobals c \/ BindingIdentifier g ∈ declarations.
Proof.
  revert c. induction declarations as [|d ds IH]; intros c; simpl.
  - rewrite elem_of_nil. tauto.
  - rewrite IH, elem_of_cons. destruct d as [t|]; simpl.
    + rewrite elem_of_union, elem_of_singleton. split.
      * intros [[->|?]|?]; auto.
      * intros [?|[[= ->]|?]]; auto.
    + split; [tauto|]. intros [?|[?|?]]; auto. discriminate.
Qed.

Lemma visitGlobalStatement_globals packageName node c c' :
  visitGlobalStatement packageName node c = Ok c' ->
  forall g, g ∈ cGlobals c' <-> g ∈ cGlobals c \/ DeclaresGlobal node g.
Proof.
  intros H g.
  destruct node as [| | |[n b]|ds|t|[t|]|[t|]| | | | |]; simpl in H;
    try (injection H as <-; split; [by left | by intros [?|Hd]; [|inversion Hd]]).
  - destruct n as [t|t]; simpl in H.
    + apply bind_Ok in H as (v & Hv & H). injection H as <-.
      destruct v; simpl.
      * rewrite elem_of_union, elem_of_singleton. split.
        -- intros [->|?]; [right; by constructor | by left].
        -- intros [?|Hd]; [by right | inversion Hd; by left].
      * split; [by left|]. intros [?|Hd]; [done|]. inversion Hd; subst. simpl in *. congruence.
    + apply bind_Ok in H as (t' & _ & H). injection H as <-. simpl.
      split; [by left | by intros [?|Hd]; [|inversion Hd]].
  - injection H as <-. rewrite variable_globals. split.
    + intros [?|?]; [by left | right; by constructor].
    + intros [?|Hd]; [by left | inversion Hd; by right].
  - injection H as <-. simpl. rewrite elem_of_union, elem_of_singleton. split.
    + intros [->|?]; [right; constructor | by left].
    + intros [?|Hd]; [by right | inversion Hd; by left].
  - injection H as <-. simpl. rewrite elem_of_union, elem_of_singleton. split.
    + intros [->|?]; [right; constructor | by left].
    + intros [?|Hd]; [by right | inversion Hd; by left].
  - injection H as <-. simpl. rewrite elem_of_union, elem_of_singleton. split.
    + intros [->|?]; [right; constructor | by left].
    + intros [?|Hd]; [by right | inversion Hd; by left].
Qed.

Lemma forEach_visitGlobalStatement_globals packageName sts c c' :
  forEach sts (visitGlobalStatement packageName) c = Ok c' ->
  forall g, g ∈ cGlobals c' <->
    g ∈ cGlobals c \/ exists s, s ∈ sts /\ DeclaresGlobal s g.
Proof.
  revert c. induction sts as [|s sts IH]; intros c H g; simpl in H.
  - injection H as <-. split; [by left|].
    intros [?|(s & Hs & _)]; [done | by apply elem_of_nil in Hs].
  - apply bind_Ok in H as (c1 & H1 & H).
    rewrite (IH _ H), (visitGlobalStatement_globals _ _ _ _ H1). split.
    + intros [[?|?]|(s' & Hs' & Hd)]; [by left | right.. ].
      * exists s. split; [by left | done].
      * exists s'. split; [by right | done].
    + intros [?|(s' & [->|Hs']%elem_of_cons & Hd)]; [by left; left | by left; right |].
      right. by exists s'.
Qed.

(** a file with [export as namespace] exports something *)
Lemma namespaceExport_exports src s :
  find isNamespaceExportDeclaration (statements src) = Some s ->
  sourceFileExportsSomething src = true.
Proof.
  intros [Hin Hs]%find_some. unfold sourceFileExportsSomething.
  apply existsb_exists. exists s. split; [done|]. by destruct s.
Qed.

Lemma visitSourceFile_globals packageName src c c' :
  visitSourceFile packageName src c = Ok c' ->
  forall g, g ∈ cGlobals c' <-> g ∈ cGlobals c \/ GivesGlobal src g.
Proof.
  intros H g. unfold visitSourceFile in H.
  apply bind_Ok in H as (c1 & H1 & H).
  assert (Hc1 : cGlobals c1 = cGlobals c).
  { eapply (forOf_invariant (fun s => cGlobals s = cGlobals c));
      [ | reflexivity | exact H1].
    intros ref s s' Hs [= <-].
    destruct (negb _); [by rewrite addDependency_globals | done]. }
  remember (fold_left (fun c ref => addDependency packageName ref c)
              (typeReferenceDirectives src) c1) as c2 eqn:E.
  assert (Hc2 : cGlobals c2 = cGlobals c).
  { subst c2.
    apply (fold_left_invariant (fun s => cGlobals s = cGlobals c)); [|done].
    intros a s Hs. by rewrite addDependency_globals. }
  clear E. unfold GivesGlobal. rewrite <- Hc2.
  destruct (isExternalModule src).
  - destruct (find isNamespaceExportDeclaration (statements src)) as [s|] eqn:Hf.
    + rewrite (namespaceExport_exports _ _ Hf) in H.
      apply bind_Ok in H as (name & _ & H). injection H as <-.
      pose proof (find_some _ _ Hf) as [_ Hs].
      destruct s; try discriminate. simpl.
      rewrite elem_of_union, elem_of_singleton. split.
      * intros [->|?]; [by right | by left].
      * intros [?|[= ->]]; [by right | by left].
    + destruct (sourceFileExportsSomething src).
      * apply bind_Ok in H as (name & _ & H). injection H as <-. simpl.
        split; [by left | by intros [?|?]].
      * injection H as <-. split; [by left | by intros [?|?]].
  - by apply (forEach_visitGlobalStatement_globals packageName).
Qed.

Lemma forEach_visitSourceFile_globals packageName files c c' :
  forEach files (visitSourceFile packageName) c = Ok c' ->
  forall g, g ∈ cGlobals c' <->
    g ∈ cGlobals c \/ exists src, src ∈ files /\ GivesGlobal src g.
Proof.
  revert c. induction files as [|src files IH]; intros c H g; simpl in H.
  - injection H as <-. split; [by left|].
    intros [?|(s & Hs & _)]; [done | by apply elem_of_nil in Hs].
  - apply bind_Ok in H as (c1 & H1 & H).
    rewrite (IH _ H), (visitSourceFile_globals _ _ _ _ H1). split.
    + intros [[?|?]|(s' & Hs' & Hd)]; [by left | right.. ].
      * exists src. split; [by left | done].
      * exists s'. split; [by right | done].
    + intros [?|(s' & [->|Hs']%elem_of_cons & Hd)]; [by left; left | by left; right |].
      right. by exists s'.
Qed.

(** X9: the globals of a package.  When [getModuleInfo] succeeds, [globals]
    is sorted and without repetition, and a name is in it exactly when some
    referenced file gives it.  A file that is an external module gives the
    name of its first [export as namespace] declaration, if it has one, and
    nothing else; such a declaration alone makes the file count as exporting
    something.  A file that is not an external module gives the identifiers
    of its top-level variables, the names of its top-level enums, classes and
    functions, and the names of its top-level namespaces that hold a value,
    and nothing else: no interface, type alias, destructuring pattern or
    unnamed class or function. *)
Theorem globals_of_package
    (disk : Disk) (sched : list nat) (packageName directory : string)
    (entryFilenames : list string) (info : ModuleInfo) :
  getModuleInfo disk sched packageName directory entryFilenames = Some (Ok info) ->
  exists lines all,
    allReferencedFiles disk sched directory entryFilenames = Some (lines, Ok all)
    /\ Sorted String.le (globals info)
    /\ NoDup (globals info)
    /\ (forall g, g ∈ globals info <-> exists src, src ∈ values all /\ GivesGlobal src g)
    /\ (forall src s, src ∈ values all ->
          find isNamespaceExportDeclaration (statements src) = Some s ->
          sourceFileExportsSomething src = true).
Proof.
  intros H. unfold getModuleInfo in H.
  destruct (allReferencedFiles _ _ _ _) as [[lines [all|e]]|]; [|done..].
  simpl in H. injection H as H. unfold moduleInfoOf in H.
  apply bind_Ok in H as (c & Hc & H). injection H as <-. simpl.
  exists lines, all. split; [done|]. split; [|split; [|split]].
  - unfold sort. apply Sorted_merge_sort. apply _.
  - apply sort_NoDup, NoDup_elements.
  - intros g. rewrite sort_elem, elem_of_elements,
      (forEach_visitSourceFile_globals _ _ _ _ Hc). simpl. rewrite elem_of_empty. tauto.
  - intros src s _. apply namespaceExport_exports.
Qed.

Lemma globals_of_package_witness :
  getModuleInfo globalsDisk [0] "pkg" "pkg" ["index.d.ts"] = Some (Ok globalsInfo)
  /\ Sorted String.le (globals globalsInfo)
  /\ NoDup (globals globalsInfo).
Proof.
  assert (Hrun : getModuleInfo globalsDisk [0] "pkg" "pkg" ["index.d.ts"]
                 = Some (Ok globalsInfo)) by (vm_compute; reflexivity).
  split; [exact Hrun|].
  destruct (globals_of_package _ _ _ _ _ _ Hrun) as (lines & all & _ & Hs & Hn & _).
  by split.
Defined.

(** ** [withoutExtension] *)

Lemma substring_zero (s : string) : String.substring 0 0 s = EmptyString.
Proof. by destruct s. Qed.

Lemma substring_split (s : string) (k : nat) :
  k <= String.length s ->
  s = String.substring 0 k s +:+ String.substring k (String.length s - k) s.
Proof.
  revert k. induction s as [|c s IH]; intros k Hk; simpl in *.
  - by destruct k.
  - destruct k as [|k]; simpl.
    + by rewrite substring_all.
    + change (String c s = String c (String.substring 0 k s
                                     +:+ String.substring k (String.length s - k) s)).
      rewrite <- IH by lia. done.
Qed.

Lemma endsWith_split (s ext : string) :
  JS.endsWith s ext = true ->
  s = JS.slice0 s (String.length s - String.length ext) +:+ ext.
Proof.
  unfold JS.endsWith, JS.slice0. intros [Hl He]%andb_true_iff.
  apply Nat.leb_le in Hl. apply String.eqb_eq in He.
  rewrite (substring_split s (String.length s - String.length ext)) at 1 by lia.
  replace (String.length s - (String.length s - String.length ext))
    with (String.length ext) by lia.
  by rewrite He.
Qed.

(** X10: [withoutExtension] takes the extension off and nothing else.  It
    returns a stem exactly when the name is that stem followed by the
    extension, and fails the assertion exactly when the name does not end
    with the extension. *)
Theorem withoutExtension_round_trip (s ext : string) :
  (forall stem, withoutExtension s ext = Ok stem <-> s = stem +:+ ext)
  /\ (withoutExtension s ext = Throw AssertionError <-> forall stem, s <> stem +:+ ext)
  /\ (forall e, withoutExtension s ext = Throw e -> e = AssertionError).
Proof.
  split; [|split].
  - intros stem. split; [|intros ->; apply withoutExtension_append].
    unfold withoutExtension. destruct (JS.endsWith s ext) eqn:He; [|done].
    intros [= <-]. by apply endsWith_split.
  - split.
    + intros H stem ->. by rewrite withoutExtension_append in H.
    + intros H. unfold withoutExtension. destruct (JS.endsWith s ext) eqn:He; [|done].
      by destruct (H _ (endsWith_split _ _ He)).
  - unfold withoutExtension. destruct (JS.endsWith s ext); [done|]. by intros e [= <-].
Qed.

(** ** Ambient module names *)

Lemma visitGlobalStatement_module_name packageName n body c c' :
  visitGlobalStatement packageName
    (ModuleDeclaration (MkModuleDecl (StringLiteral n) body)) c = Ok c' ->
  hasWindowsSlashes n = false.
Proof.
  simpl. unfold assertNoWindowsSlashes. by destruct (hasWindowsSlashes n).
Qed.

Lemma visitSourceFile_script packageName src c c' :
  visitSourceFile packageName src c = Ok c' -> isExternalModule src = false ->
  exists c1, forEach (statements src) (visitGlobalStatement packageName) c1 = Ok c'.
Proof.
  intros H He. unfold visitSourceFile in H.
  apply bind_Ok in H as (c1 & _ & H). rewrite He in H. eauto.
Qed.

(** X11: ambient module names hold no backslash.  When [getModuleInfo]
    succeeds, every string literal that names a top-level module declaration
    of a referenced file that is not an external module is free of
    backslashes, and is one of the declared modules. *)
Theorem ambient_module_names_have_no_backslash
    (disk : Disk) (sched : list nat) (packageName directory : string)
    (entryFilenames : list string) (info : ModuleInfo) :
  getModuleInfo disk sched packageName directory entryFilenames = Some (Ok info) ->
  exists lines all,
    allReferencedFiles disk sched directory entryFilenames = Some (lines, Ok all)
    /\ forall src n body,
         src ∈ values all -> isExternalModule src = false ->
         ModuleDeclaration (MkModuleDecl (StringLiteral n) body) ∈ statements src ->
         hasWindowsSlashes n = false /\ n ∈ declaredModules info.
Proof.
  intros H. unfold getModuleInfo in H.
  destruct (allReferencedFiles _ _ _ _) as [[lines [all|e]]|]; [|done..].
  simpl in H. injection H as H. unfold moduleInfoOf in H.
  apply bind_Ok in H as (c & Hc & H). injection H as <-. simpl.
  exists lines, all. split; [done|]. intros src n body Hsrc He Hs. split.
  - destruct (forEach_elem_ok _ _ _ _ _ Hc Hsrc) as (t & t' & Ht).
    destruct (visitSourceFile_script _ _ _ _ Ht He) as (c1 & Hc1).
    destruct (forEach_elem_ok _ _ _ _ _ Hc1 Hs) as (u & u' & Hu).
    by apply (visitGlobalStatement_module_name packageName n body u u').
  - rewrite (forEach_visitSourceFile_declaredModules _ _ _ _ Hc). simpl.
    apply list_elem_of_In, in_flat_map. exists src.
    split; [by apply list_elem_of_In|]. unfold declaredBy. rewrite He.
    unfold stringKeyedModuleNames. apply in_flat_map.
    exists (ModuleDeclaration (MkModuleDecl (StringLiteral n) body)).
    split; [by apply list_elem_of_In | by left].
Qed.

Lemma ambient_module_names_have_no_backslash_witness :
  exists lines all,
    allReferencedFiles ambientModuleDisk [0] "pkg" ["index.d.ts"] = Some (lines, Ok all)
    /\ forall src n body,
         src ∈ values all -> isExternalModule src = false ->
         ModuleDeclaration (MkModuleDecl (StringLiteral n) body) ∈ statements src ->
         hasWindowsSlashes n = false /\ n ∈ ["x"].
Proof.
  apply (ambient_module_names_have_no_backslash ambientModuleDisk [0] "pkg" "pkg"
           ["index.d.ts"]
           {| declFiles := ["index.d.ts"]; dependencies := ∅;
              declaredModules := ["x"]; globals := [] |}).
  vm_compute; reflexivity.
Defined.

(** ** Where a rejection comes from, and what the map holds *)

Lemma recurResume_Throw disk dir t w lines e :
  recurResume disk dir t w = (lines, Throw e) ->
  resolveReference disk dir (reference t) = Throw e
  \/ exists f c, resolveReference disk dir (reference t) = Ok (f, c)
                 /\ referencesOf dir f c = Throw e.
Proof.
  unfold recurResume. intros H.
  pose proof (readReference_from disk dir t) as Hres.
  destruct (readReference disk dir t) as [lines0 [[f c]|e0]]; simpl in *.
  - right. exists f, c. split; [done|]. unfold referencesOf.
    destruct (arrayFrom _) as [refs|e1]; simpl in H; [done | by injection H as _ <-].
  - left. by injection H as _ <-.
Qed.

Lemma elem_of_mapSet key value (m : FileMap) kv :
  kv ∈ mapSet key value m -> kv = (key, value) \/ kv ∈ m.
Proof.
  induction m as [|[k v] m IH]; simpl.
  - intros ->%list_elem_of_singleton. by left.
  - destruct (String.eqb_spec k key) as [->|Hne].
    + intros [->|?]%elem_of_cons; [by left | right; by right].
    + intros [->|[?|?]%IH]%elem_of_cons; [right; by left | by left | right; by right].
Qed.

Section Provenance.

Variables (disk : Disk) (directory : string) (entryFilenames : list string).

Lemma run_rejection sched w lines e :
  Sound disk directory entryFilenames w ->
  run disk directory sched w = Some (lines, Throw e) ->
  exists r, Reachable disk directory entryFilenames r
    /\ (resolveReference disk directory r = Throw e
        \/ exists f c, resolveReference disk directory r = Ok (f, c)
                       /\ referencesOf directory f c = Throw e).
Proof.
  revert w. induction sched as [|i sched IH]; intros w Hsound Hrun; simpl in Hrun.
  - by destruct (pending w).
  - destruct (pending w) as [|t0 rest] eqn:Hp; [done|].
    pose proof (mod_pending_lt i t0 rest) as Hk. rewrite <- Hp in *.
    pose proof (elem_of_nth (pending w) (i mod length (pending w)) t0 Hk) as Ht.
    destruct (recurResume _ _ _ _) as [lines' [w1|e']] eqn:Hstep.
    + destruct (step_sound _ _ _ _ _ _ _ _ Hsound Hk Hstep) as [Hsound1 _].
      by apply (IH w1).
    + injection Hrun as _ <-.
      exists (reference (nth (i mod length (pending w)) (pending w) t0)).
      split; [by apply (sound_pending _ _ _ _ Hsound)|].
      by apply (recurResume_Throw _ _ _ _ _ _ Hstep).
Qed.

Lemma run_parsed sched w lines all' :
  Sound disk directory entryFilenames w ->
  (forall kv, kv ∈ all w -> Parsed disk directory entryFilenames kv) ->
  run disk directory sched w = Some (lines, Ok all') ->
  forall kv, kv ∈ all' -> Parsed disk directory entryFilenames kv.
Proof.
  revert w. induction sched as [|i sched IH]; intros w Hsound Hall Hrun; simpl in Hrun.
  - destruct (pending w); [|done]. by injection Hrun as _ <-.
  - destruct (pending w) as [|t0 rest] eqn:Hp; [by injection Hrun as _ <-|].
    pose proof (mod_pending_lt i t0 rest) as Hk. rewrite <- Hp in *.
    pose proof (elem_of_nth (pending w) (i mod length (pending w)) t0 Hk) as Ht.
    destruct (recurResume _ _ _ _) as [lines' [w1|e']] eqn:Hstep; [|done].
    destruct (step_sound _ _ _ _ _ _ _ _ Hsound Hk Hstep) as [Hsound1 _].
    apply (IH w1); [done| |done].
    apply recurResume_Ok in Hstep as (l0 & f & c & refs & _ & Hres & _ & ->).
    rewrite recurAll_all. simpl.
    intros kv [->|Hkv]%elem_of_mapSet; [|by apply Hall].
    eexists _, c. split; [by apply (sound_pending _ _ _ _ Hsound _ Ht)|]. by split.
Qed.

End Provenance.

(** X12: a rejection comes from a reference that is reached.  When
    [allReferencedFiles] is rejected with an error, some reference reachable
    from the entry files cannot be resolved, or resolves to a file whose
    outgoing references cannot be collected, with that very error: files
    that are not reached never make the walk fail. *)
Theorem rejection_comes_from_a_reached_reference
    (disk : Disk) (sched : list nat) (directory : string)
    (entryFilenames : list string) (lines : list string) (e : Error) :
  allReferencedFiles disk sched directory entryFilenames = Some (lines, Throw e) ->
  exists r, Reachable disk directory entryFilenames r
    /\ (resolveReference disk directory r = Throw e
        \/ exists f c, resolveReference disk directory r = Ok (f, c)
                       /\ referencesOf directory f c = Throw e).
Proof.
  intros H.
  apply (run_rejection disk directory entryFilenames sched (initialWalk entryFilenames) lines e);
    [apply initial_sound | exact H].
Qed.

Lemma rejection_comes_from_a_reached_reference_witness :
  exists r, Reachable missingImportDisk "pkg" ["index.d.ts"] r
    /\ (resolveReference missingImportDisk "pkg" r = Throw (ReadFailure "pkg" "gone/index.d.ts")
        \/ exists f c, resolveReference missingImportDisk "pkg" r = Ok (f, c)
             /\ referencesOf "pkg" f c = Throw (ReadFailure "pkg" "gone/index.d.ts")).
Proof.
  apply (rejection_comes_from_a_reached_reference missingImportDisk [0; 0] "pkg"
           ["index.d.ts"] [cantBeRead "pkg" "index.d.ts" "gone"]).
  vm_compute; reflexivity.
Defined.

(** X13: each entry of the map is made from the file it is stored under.
    When [allReferencedFiles] returns a map, every entry holds, under a file
    name, the source file made from the content that some reachable reference
    resolves to under that very name: its reference directives, its
    type-reference directives, its statements and its being an external
    module or not are those of that content, which is the content of a file
    of the package in the same directory. *)
Theorem map_entries_are_parsed_files
    (disk : Disk) (sched : list nat) (directory : string)
    (entryFilenames : list string) (lines : list string) (all : FileMap) :
  allReferencedFiles disk sched directory entryFilenames = Some (lines, Ok all) ->
  forall key src, (key, src) ∈ all ->
    exists r c diskKey,
      Reachable disk directory entryFilenames r
      /\ resolveReference disk directory r = Ok (key, c)
      /\ referencedFiles_ src = contentReferencedFiles c
      /\ typeReferenceDirectives src = contentTypeReferenceDirectives c
      /\ statements src = contentStatements c
      /\ isExternalModule src = contentExternalModuleIndicator c
      /\ disk !! diskKey = Some c
      /\ path.dirname diskKey = path.dirname key.
Proof.
  intros H key src Hin.
  destruct (run_parsed disk directory entryFilenames sched (initialWalk entryFilenames)
              lines all (initial_sound disk directory entryFilenames)) with (kv := (key, src))
    as (r & c & Hr & Hres & Hsrc); [|exact H|exact Hin|].
  { intros kv Hkv. unfold initialWalk in Hkv. rewrite recurAll_all in Hkv.
    by apply elem_of_nil in Hkv. }
  simpl in *. subst src.
  destruct (resolveReference_on_disk _ _ _ _ _ Hres) as (diskKey & Hd & Hdir).
  by exists r, c, diskKey.
Qed.

Lemma map_entries_are_parsed_files_witness :
  exists r c diskKey,
    Reachable cyclicDisk "pkg" ["a.d.ts"] r
    /\ resolveReference cyclicDisk "pkg" r = Ok ("b.d.ts", c)
    /\ [] = contentReferencedFiles c
    /\ [] = contentTypeReferenceDirectives c
    /\ [importFrom "./a"] = contentStatements c
    /\ true = contentExternalModuleIndicator c
    /\ cyclicDisk !! diskKey = Some c
    /\ path.dirname diskKey = path.dirname "b.d.ts".
Proof.
  assert (Hrun : allReferencedFiles cyclicDisk [0; 0; 0] "pkg" ["a.d.ts"]
                 = Some ([], Ok cyclicFiles)) by (vm_compute; reflexivity).
  apply (map_entries_are_parsed_files cyclicDisk [0; 0; 0] "pkg" ["a.d.ts"] [] cyclicFiles
           Hrun "b.d.ts"
           (createSourceFile "b.d.ts" (fileContent [] [] [importFrom "./a"] true))).
  vm_compute. right. left.
Defined.

(** ** [getModuleInfo] under different schedules *)

Lemma resolveReference_key disk dir ref f c :
  disk !! "./index.d.ts" = disk !! "index.d.ts" ->
  resolveReference disk dir ref = Ok (f, c) -> disk !! f = Some c.
Proof.
  intros Hroot.
  unfold resolveReference, readReference, resolveModule, readFileAndReportErrors. simpl.
  destruct (exact ref).
  - destruct (readFileAndThrowOnBOM disk dir (text ref)) as [c'|] eqn:Hc; [|done].
    simpl. intros [= <- <-]. by apply readFileAndThrowOnBOM_Ok in Hc.
  - destruct (readFileAndThrowOnBOM disk dir (text ref +:+ ".d.ts")) as [c'|] eqn:Hc.
    + simpl. intros [= <- <-]. by apply readFileAndThrowOnBOM_Ok in Hc.
    + match goal with |- context [readFileAndThrowOnBOM disk dir ?i] =>
        destruct (readFileAndThrowOnBOM disk dir i) as [c'|] eqn:Hi;
        [|done]; apply readFileAndThrowOnBOM_Ok in Hi; set (index := i) in *
      end.
      simpl. intros [= <- <-].
      destruct (String.eqb_spec index "./index.d.ts") as [E|]; [|done].
      by rewrite <- Hroot, <- E.
Qed.

Lemma forOf_isOk_state {A S} (g : Gen A) (f : A -> S -> S) s s' :
  isOk (forOf g (fun a s => Ok (f a s)) s) = isOk (forOf g (fun a s => Ok (f a s)) s').
Proof. revert s s'. induction g as [|a g IH|e]; intros s s'; simpl; [done | apply IH | done]. Qed.

Lemma forEach_isOk_state {A S} (body : A -> S -> Result S) l s s' :
  (forall a t t', isOk (body a t) = isOk (body a t')) ->
  isOk (forEach l body s) = isOk (forEach l body s').
Proof.
  intros Hbody. revert s s'. induction l as [|a l IH]; intros s s'; simpl; [done|].
  specialize (Hbody a s s').
  destruct (body a s), (body a s'); simpl in *; first [done | apply IH].
Qed.

Lemma visitGlobalStatement_isOk_state packageName node c c' :
  isOk (visitGlobalStatement packageName node c)
  = isOk (visitGlobalStatement packageName node c').
Proof.
  destruct node as [| | |[n b]|ds|t|[t|]|[t|]| | | | |]; try done.
  destruct n as [t|t]; unfold visitGlobalStatement, declName, nameText.
  - by destruct (isValueNamespace (MkModuleDecl (Identifier t) b)) as [[]|].
  - by destruct (assertNoWindowsSlashes packageName t).
Qed.

Lemma visitSourceFile_isOk_state packageName src c c' :
  isOk (visitSourceFile packageName src c) = isOk (visitSourceFile packageName src c').
Proof.
  unfold visitSourceFile.
  pose proof (forOf_isOk_state (imports (statements src))
                (fun ref c => if negb (JS.startsWith ref ".")
                              then addDependency packageName (rootName ref) c else c) c c')
    as Himports.
  destruct (forOf _ _ c) as [c1|], (forOf _ _ c') as [c1'|]; simpl in *; try done.
  destruct (isExternalModule src).
  - destruct (sourceFileExportsSomething src); [|done].
    by destruct (properModuleName packageName (fileName src)).
  - apply forEach_isOk_state. intros a t t'. apply visitGlobalStatement_isOk_state.
Qed.

Lemma forEach_isOk_elem {A S} (body : A -> S -> Result S) l s :
  (forall a t t', isOk (body a t) = isOk (body a t')) ->
  isOk (forEach l body s) = true <-> forall a, a ∈ l -> isOk (body a s) = true.
Proof.
  intros Hbody. revert s. induction l as [|a l IH]; intros s; simpl.
  - split; [|done]. intros _ a Ha. by apply elem_of_nil in Ha.
  - split.
    + intros H b [->|Hb]%elem_of_cons.
      * by destruct (body a s).
      * destruct (body a s) as [s1|] eqn:Ha; [|done]. simpl in H.
        rewrite (Hbody b s s1). by apply IH.
    + intros H. pose proof (H a (list_elem_of_here _ _)) as Ha.
      destruct (body a s) as [s1|]; [|done]. simpl. apply IH.
      intros b Hb. rewrite (Hbody b s1 s). apply H. by right.
Qed.

Lemma isOk_true {A} (r : Result A) : isOk r = true -> exists a, r = Ok a.
Proof. destruct r; [eauto | done]. Qed.

(** the map is made of the files of the disk, each under its name *)
Lemma walk_entries disk sched dir entries lines all :
  disk !! "./index.d.ts" = disk !! "index.d.ts" ->
  allReferencedFiles disk sched dir entries = Some (lines, Ok all) ->
  forall k src, (k, src) ∈ all ->
    exists c, disk !! k = Some c /\ src = createSourceFile k c.
Proof.
  intros Hroot H k src Hin.
  destruct (run_parsed disk dir entries sched (initialWalk entries)
              lines all (initial_sound disk dir entries)) with (kv := (k, src))
    as (r & c & _ & Hres & Hsrc); [|exact H|exact Hin|].
  { intros kv Hkv. unfold initialWalk in Hkv. rewrite recurAll_all in Hkv.
    by apply elem_of_nil in Hkv. }
  simpl in *. exists c. split; [|done]. by apply (resolveReference_key disk dir r).
Qed.

Lemma walk_entries_Permutation disk dir entries sched1 sched2 lines1 lines2 all1 all2 :
  disk !! "./index.d.ts" = disk !! "index.d.ts" ->
  allReferencedFiles disk sched1 dir entries = Some (lines1, Ok all1) ->
  allReferencedFiles disk sched2 dir entries = Some (lines2, Ok all2) ->
  keys all2 ≡ₚ keys all1 ->
  all2 ≡ₚ all1.
Proof.
  intros Hroot H1 H2 Hkeys.
  destruct (walk_keys _ _ _ _ _ _ H1) as (Hnd1 & _).
  destruct (walk_keys _ _ _ _ _ _ H2) as (Hnd2 & _).
  assert (Hsub : forall (a b : FileMap) la lb sa sb,
    allReferencedFiles disk sa dir entries = Some (la, Ok a) ->
    allReferencedFiles disk sb dir entries = Some (lb, Ok b) ->
    keys a ≡ₚ keys b -> forall kv, kv ∈ a -> kv ∈ b).
  { intros a b la lb sa sb Ha Hb Hk [k src] Hin.
    destruct (walk_entries _ _ _ _ _ _ Hroot Ha k src Hin) as (c & Hc & ->).
    assert (Hkb : k ∈ keys b).
    { rewrite <- Hk. unfold keys. by apply (list_elem_of_fmap_2 fst _ _ Hin). }
    unfold keys in Hkb. apply list_elem_of_fmap in Hkb as ([k' src'] & -> & Hin').
    destruct (walk_entries _ _ _ _ _ _ Hroot Hb k' src' Hin') as (c' & Hc' & ->).
    simpl in *. rewrite Hc in Hc'. by injection Hc' as <-. }
  apply NoDup_Permutation.
  - by apply (NoDup_fmap_1 fst).
  - by apply (NoDup_fmap_1 fst).
  - intros kv. split.
    + by apply (Hsub all2 all1 lines2 lines1 sched2 sched1).
    + by apply (Hsub all1 all2 lines1 lines2 sched1 sched2).
Qed.

Lemma moduleInfoOf_Permutation packageName (all1 all2 : FileMap) info1 :
  all2 ≡ₚ all1 ->
  moduleInfoOf packageName all1 = Ok info1 ->
  exists info2,
    moduleInfoOf packageName all2 = Ok info2
    /\ declFiles info2 = declFiles info1
    /\ dependencies info2 = dependencies info1
    /\ globals info2 = globals info1
    /\ declaredModules info2 ≡ₚ declaredModules info1.
Proof.
  intros Hperm H. unfold moduleInfoOf in *.
  apply bind_Ok in H as (c1 & Hc1 & [= <-]). simpl.
  assert (Hvalues : values all2 ≡ₚ values all1) by (unfold values; by rewrite Hperm).
  assert (Hok : isOk (forEach (values all2) (visitSourceFile packageName) emptyCollected)
                = true).
  { apply forEach_isOk_elem; [intros; apply visitSourceFile_isOk_state|].
    intros src Hsrc. rewrite Hvalues in Hsrc.
    assert (H1 : isOk (forEach (values all1) (visitSourceFile packageName) emptyCollected)
                 = true) by (by rewrite Hc1).
    rewrite forEach_isOk_elem in H1; [by apply H1|].
    intros; apply visitSourceFile_isOk_state. }
  apply isOk_true in Hok as (c2 & Hc2). rewrite Hc2. simpl.
  eexists. split; [done|]. simpl. split; [|split; [|split]].
  - apply sort_Permutation. unfold keys. by rewrite Hperm.
  - apply set_eq. intros d.
    rewrite (forEach_visitSourceFile_dependencies _ _ _ _ Hc1 d),
      (forEach_visitSourceFile_dependencies _ _ _ _ Hc2 d).
    by setoid_rewrite Hvalues.
  - apply sort_Permutation. apply NoDup_Permutation; [apply NoDup_elements..|].
    intros g. rewrite !elem_of_elements,
      (forEach_visitSourceFile_globals _ _ _ _ Hc1 g),
      (forEach_visitSourceFile_globals _ _ _ _ Hc2 g).
    by setoid_rewrite Hvalues.
  - rewrite (forEach_visitSourceFile_declaredModules _ _ _ _ Hc1),
      (forEach_visitSourceFile_declaredModules _ _ _ _ Hc2). simpl.
    by apply Permutation_flat_map.
Qed.

(** X14: the result of [getModuleInfo] does not depend on the order in which
    the reads complete, except for the order of [declaredModules].  Let no
    reference text be reached both as a path reference and as a relative
    import, and let the two spellings of the root index file name one file.
    If [getModuleInfo] succeeds under one schedule, it succeeds under every
    schedule that is long enough, with the same [declFiles], the same
    [dependencies], the same [globals], and the same [declaredModules] up to
    their order. *)
Theorem getModuleInfo_is_schedule_independent
    (disk : Disk) (packageName directory : string) (entryFilenames : list string)
    (sched1 sched2 : list nat) (info1 : ModuleInfo) :
  Unambiguous disk directory entryFilenames ->
  disk !! "./index.d.ts" = disk !! "index.d.ts" ->
  getModuleInfo disk sched1 packageName directory entryFilenames = Some (Ok info1) ->
  walkBound disk directory entryFilenames <= length sched2 ->
  exists info2,
    getModuleInfo disk sched2 packageName directory entryFilenames = Some (Ok info2)
    /\ declFiles info2 = declFiles info1
    /\ dependencies info2 = dependencies info1
    /\ globals info2 = globals info1
    /\ declaredModules info2 ≡ₚ declaredModules info1.
Proof.
  intros Hu Hroot H1 Hlen. unfold getModuleInfo in *.
  destruct (allReferencedFiles disk sched1 _ _) as [[lines1 [all1|e]]|] eqn:Hrun1; [|done..].
  simpl in H1. injection H1 as H1.
  destruct (walk_keys _ _ _ _ _ _ Hrun1) as (Hnd1 & Hsub1 & Hrest1).
  destruct (Hrest1 Hu) as [Hsup1 Hres].
  destruct (run_terminates disk directory entryFilenames sched2
              (initialWalk entryFilenames) (initial_sound _ _ _)) as ([lines2 r2] & Hrun2).
  { etransitivity; [apply initial_measure | exact Hlen]. }
  change (allReferencedFiles disk sched2 directory entryFilenames = Some (lines2, r2))
    in Hrun2.
  destruct r2 as [all2|e].
  2: { by destruct (run_resolvable disk directory entryFilenames sched2
                      (initialWalk entryFilenames) lines2 e Hres (initial_sound _ _ _)). }
  rewrite Hrun2. simpl.
  destruct (walk_keys _ _ _ _ _ _ Hrun2) as (Hnd2 & Hsub2 & Hrest2).
  destruct (Hrest2 Hu) as [Hsup2 _].
  assert (Hkeys : keys all2 ≡ₚ keys all1).
  { apply NoDup_Permutation; [done | done|]. intros f. split; eauto. }
  pose proof (walk_entries_Permutation _ _ _ _ _ _ _ _ _ Hroot Hrun1 Hrun2 Hkeys) as Hperm.
  destruct (moduleInfoOf_Permutation packageName all1 all2 info1 Hperm H1)
    as (info2 & -> & Hrest).
  by exists info2.
Qed.

Lemma getModuleInfo_is_schedule_independent_witness :
  getModuleInfo twoModulesDisk [1; 0; 0] "pkg" "pkg" ["a.d.ts"; "b.d.ts"]
  = Some (Ok twoModulesInfoSwapped)
  /\ exists info2,
       getModuleInfo twoModulesDisk [1; 0; 0] "pkg" "pkg" ["a.d.ts"; "b.d.ts"]
       = Some (Ok info2)
       /\ declFiles info2 = declFiles twoModulesInfo
       /\ dependencies info2 = dependencies twoModulesInfo
       /\ globals info2 = globals twoModulesInfo
       /\ declaredModules info2 ≡ₚ declaredModules twoModulesInfo.
Proof.
  split; [vm_compute; reflexivity|].
  apply (getModuleInfo_is_schedule_independent twoModulesDisk "pkg" "pkg"
           ["a.d.ts"; "b.d.ts"] [0; 0; 0]).
  - apply unambiguous_sound. vm_compute. reflexivity.
  - vm_compute. reflexivity.
  - vm_compute. reflexivity.
  - vm_compute. lia.
Defined.

(** ** What [referencedFiles] yields *)

Lemma arrayFrom_yieldAll {A} (l : list A) : arrayFrom (yieldAll l) = Ok l.
Proof. induction l as [|a l IH]; simpl; [done | by rewrite IH]. Qed.

Lemma filter_always {A} (l : list A) : filter (fun _ : A => true = true) l = l.
Proof. induction l as [|a l IH]; [done|]. rewrite filter_cons_True by done. by rewrite IH. Qed.

Lemma arrayFrom_yieldEach_addReference src sub dir ex (keep : string -> bool) g refs :
  arrayFrom (yieldEach keep
               (fun t => addReference src sub dir {| exact := ex; text := t |}) g) = Ok refs
  <-> exists l, arrayFrom g = Ok l
        /\ (forall t, t ∈ l -> keep t = true ->
              hasWindowsSlashes t = false
              /\ JS.startsWith (fullReference sub t) ".." = false)
        /\ refs = map (fun t => {| exact := ex; text := fullReference sub t |})
                    (filter (fun t => keep t = true) l).
Proof.
  revert refs. induction g as [|a g IH|e]; intros refs; simpl.
  - split.
    + intros [= <-]. exists []. split; [done|]. split; [|done].
      intros t Ht. by apply elem_of_nil in Ht.
    + by intros (l & [= <-] & _ & ->).
  - destruct (keep a) eqn:Hk.
    + destruct (addReference src sub dir {| exact := ex; text := a |}) as [r|e] eqn:Ha.
      * apply addReference_Ok in Ha as (Hw & Hp & ->). simpl in *. split.
        -- intros (refs' & (l & Hl & Hall & ->)%IH & [= <-])%bind_Ok.
           exists (a :: l). rewrite Hl. split; [done|]. split.
           ++ intros t [->|Ht]%elem_of_cons Hkt; [done | by apply Hall].
           ++ rewrite filter_cons, decide_True by done. done.
        -- intros (l & (l' & Hl' & [= <-])%bind_Ok & Hall & ->).
           rewrite filter_cons, decide_True by done. simpl.
           assert (Hrest : arrayFrom (yieldEach keep
                     (fun t => addReference src sub dir {| exact := ex; text := t |}) g)
                   = Ok (map (fun t => {| exact := ex; text := fullReference sub t |})
                           (filter (fun t => keep t = true) l'))).
           { apply IH. exists l'. split; [done|]. split; [|done].
             intros t Ht. apply Hall. by right. }
           by rewrite Hrest.
      * split; [done|]. intros (l & (l' & Hl' & [= <-])%bind_Ok & Hall & _).
        destruct (Hall a (list_elem_of_here _ _) Hk) as [Hw Hp].
        assert (Hok : addReference src sub dir {| exact := ex; text := a |}
                      = Ok {| exact := ex; text := fullReference sub a |})
          by (by apply addReference_Ok).
        congruence.
    + rewrite IH. split.
      * intros (l & Hl & Hall & ->). exists (a :: l). rewrite Hl. split; [done|]. split.
        -- intros t [->|Ht]%elem_of_cons Hkt; [congruence | by apply Hall].
        -- rewrite filter_cons, decide_False by congruence. done.
      * intros (l & (l' & Hl' & [= <-])%bind_Ok & Hall & ->). exists l'.
        split; [done|]. split.
        -- intros t Ht. apply Hall. by right.
        -- rewrite filter_cons, decide_False by congruence. done.
  - split; [done|]. by intros (l & ? & _).
Qed.

(** X15: what [referencedFiles] yields.  Its references can be collected
    exactly when the imports of the file can be collected and none of the
    references written in the file (the path-reference directives and the
    relative imports) has a backslash or leads, once joined to the directory
    of the file and normalized, to a path that begins with two dots.  They
    are then the path-reference directives, as exact references, followed by
    the relative imports, as module references, each with its joined and
    normalized text, in the order written; an import that is not relative
    gives no reference. *)
Theorem referencedFiles_yields_the_written_references
    (src : SourceFile) (subDirectory directory : string) (refs : list Reference) :
  arrayFrom (referencedFiles src subDirectory directory) = Ok refs
  <-> isOk (arrayFrom (imports (statements src))) = true
      /\ (forall r, r ∈ discovered src ->
            hasWindowsSlashes (text r) = false
            /\ JS.startsWith (fullReference subDirectory (text r)) ".." = false)
      /\ refs = map (fun r => {| exact := exact r;
                                 text := fullReference subDirectory (text r) |})
                  (discovered src).
Proof.
  unfold referencedFiles, discovered.
  rewrite arrayFrom_gseq. setoid_rewrite arrayFrom_yieldEach_addReference.
  setoid_rewrite arrayFrom_yieldAll. split.
  - intros (l1 & l2 & (p & [= <-] & Hp & ->) & (l & Hl & Hi & ->) & ->).
    rewrite Hl, (arrayFrom_yielded _ _ Hl). split; [done|]. split.
    + intros r [(t & -> & Ht)%list_elem_of_fmap|(t & -> & Ht)%list_elem_of_fmap]%elem_of_app.
      * by apply Hp.
      * apply list_elem_of_filter in Ht as [Hk Ht]. by apply Hi.
    + by rewrite map_app, !map_map, filter_always.
  - intros (Hok & Hall & ->).
    destruct (arrayFrom (imports (statements src))) as [l|] eqn:Hl; [|done].
    rewrite (arrayFrom_yielded _ _ Hl) in *.
    exists (map (fun t => {| exact := true; text := fullReference subDirectory t |})
              (referencedFiles_ src)),
           (map (fun t => {| exact := false; text := fullReference subDirectory t |})
              (filter (fun t => JS.startsWith t "." = true) l)).
    split; [|split].
    + exists (referencedFiles_ src). split; [done|]. split.
      * intros t Ht _. apply (Hall {| exact := true; text := t |}).
        apply elem_of_app. left. by apply (list_elem_of_fmap_2 _ _ t).
      * by rewrite filter_always.
    + exists l. split; [done|]. split; [|done].
      intros t Ht Hk. apply (Hall {| exact := false; text := t |}).
      apply elem_of_app. right. apply (list_elem_of_fmap_2 _ _ t).
      by apply list_elem_of_filter.
    + by rewrite map_app, !map_map.
Qed.

Lemma referencedFiles_yields_the_written_references_witness :
  isOk (arrayFrom (imports (statements referringFile))) = true
  /\ (forall r, r ∈ discovered referringFile ->
        hasWindowsSlashes (text r) = false
        /\ JS.startsWith (fullReference "lib" (text r)) ".." = false)
  /\ referringFileReferences
     = map (fun r => {| exact := exact r; text := fullReference "lib" (text r) |})
         (discovered referringFile).
Proof.
  apply (referencedFiles_yields_the_written_references referringFile "lib" "pkg").
  vm_compute; reflexivity.
Defined.

(** ** Imports inside string-named modules, through the walk *)

Lemma recurAll_accounted from refs w done :
  Accounted w done -> Accounted (recurAll from refs w) done.
Proof.
  intros Hw x [Hx|(r & -> & Hr)%list_elem_of_fmap]%recurAll_seen;
    destruct (recurAll_pending from refs w) as (new & -> & _ & Hall);
    rewrite map_app, elem_of_app.
  - destruct (Hw x Hx); tauto.
  - destruct (decide (text r ∈ seenReferences w)) as [Hs|Hs].
    + destruct (Hw _ Hs); tauto.
    + destruct (Hall r Hr Hs) as (t & Ht & <-). left. right.
      by apply (list_elem_of_fmap_2 taskText).
Qed.

Lemma initial_accounted entries : Accounted (initialWalk entries) [].
Proof.
  apply recurAll_accounted. intros x Hx. simpl in Hx. by apply elem_of_empty in Hx.
Qed.

(** the calls of a walk that returns its map: every call under way
    completes, every text seen is read, every completed call resolves and
    has the texts of its references read, and every entry of the map is made
    by a completed call *)
Lemma run_calls disk dir sched w lines all' done :
  Accounted w done ->
  run disk dir sched w = Some (lines, Ok all') ->
  (forall t, t ∈ pending w -> t ∈ completed disk dir sched w)
  /\ (forall x, x ∈ seenReferences w ->
        x ∈ done \/ x ∈ map taskText (completed disk dir sched w))
  /\ (forall t, t ∈ completed disk dir sched w ->
        exists f c refs,
          resolveReference disk dir (reference t) = Ok (f, c)
          /\ referencesOf dir f c = Ok refs
          /\ forall r', r' ∈ refs ->
               text r' ∈ done \/ text r' ∈ map taskText (completed disk dir sched w))
  /\ (forall kv, kv ∈ all' ->
        kv ∈ all w
        \/ exists t c, t ∈ completed disk dir sched w
             /\ resolveReference disk dir (reference t) = Ok (kv.1, c)
             /\ kv.2 = createSourceFile kv.1 c).
Proof.
  revert w done. induction sched as [|i sched IH]; intros w done Hacc Hrun; simpl in *.
  { destruct (pending w) eqn:Hp; [|done]. injection Hrun as _ <-.
    split; [intros t Ht; by apply elem_of_nil in Ht|]. split.
    - intros x Hx. destruct (Hacc x Hx) as [H|H]; [|by left].
      rewrite Hp in H. by apply elem_of_nil in H.
    - split; [intros t Ht; by apply elem_of_nil in Ht | by left]. }
  destruct (pending w) as [|t0 rest] eqn:Hp.
  { injection Hrun as _ <-.
    split; [intros t Ht; by apply elem_of_nil in Ht|]. split.
    - intros x Hx. destruct (Hacc x Hx) as [H|H]; [|by left].
      rewrite Hp in H. by apply elem_of_nil in H.
    - split; [intros t Ht; by apply elem_of_nil in Ht | by left]. }
  rewrite <- Hp in *. clear Hp.
  set (k := i mod length (pending w)) in *.
  set (t := nth k (pending w) t0) in *.
  destruct (recurResume disk dir t (takeTask k w)) as [lines' [w'|e]] eqn:Hstep;
    [|by injection Hrun].
  apply recurResume_Ok in Hstep as (lines0 & f & c & refs & _ & Hres & Hrefs & Hw').
  set (w0 := {| seenReferences := seenReferences (takeTask k w);
                all := mapSet f (createSourceFile f c) (all (takeTask k w));
                pending := pending (takeTask k w);
                console := console (takeTask k w) ++ lines0 |}) in *.
  assert (Hacc0 : Accounted w0 (taskText t :: done)).
  { intros x Hx. simpl in Hx. destruct (Hacc x Hx) as [H|H]; [|right; by right].
    apply list_elem_of_fmap in H as (t' & -> & Ht').
    destruct (elem_of_delete_nth (pending w) k t0 t' Ht') as [->|Hd].
    - right. by left.
    - left. simpl. by apply (list_elem_of_fmap_2 taskText). }
  assert (Hacc' : Accounted w' (taskText t :: done))
    by (subst w'; by apply recurAll_accounted).
  destruct (IH w' _ Hacc' Hrun) as (H1 & H2 & H3 & H4). clear IH.
  assert (Hseen : forall x, x ∈ seenReferences w' ->
            x ∈ done \/ x ∈ taskText t :: map taskText (completed disk dir sched w')).
  { intros x [[->|?]%elem_of_cons|?]%H2; [right; by left | by left | right; by right]. }
  split; [|split; [|split]].
  - intros t' Ht'.
    destruct (elem_of_delete_nth (pending w) k t0 t' Ht') as [->|Hd]; [by left|].
    right. apply H1. subst w'.
    destruct (recurAll_pending f refs w0) as (new & -> & _). apply elem_of_app. by left.
  - intros x Hx. apply Hseen. subst w'. apply recurAll_seen. by left.
  - intros t' [->|Ht']%elem_of_cons.
    + exists f, c, refs. split; [done|]. split; [done|].
      intros r' Hr'. apply Hseen. subst w'. apply recurAll_seen. right.
      by apply (list_elem_of_fmap_2 text).
    + destruct (H3 t' Ht') as (f' & c' & refs' & Hres' & Hrefs' & Hall').
      exists f', c', refs'. split; [done|]. split; [done|].
      intros r' [[->|?]%elem_of_cons|?]%Hall'; [right; by left | by left | right; by right].
  - intros kv [Hkv|(t' & c' & Ht' & Hk)]%H4.
    + subst w'. rewrite recurAll_all in Hkv. simpl in Hkv.
      apply elem_of_mapSet in Hkv as [->|Hkv]; [|by left].
      right. exists t, c. split; [by left | done].
    + right. exists t', c'. split; [by right | done].
Qed.

(** a relative import written in a file of the map is followed *)
Lemma relative_import_followed disk sched dir entries lines all f src s t :
  allReferencedFiles disk sched dir entries = Some (lines, Ok all) ->
  (f, src) ∈ all ->
  WrittenIn s (statements src) -> importTarget s = Some t ->
  JS.startsWith t "." = true ->
  exists call f' c',
    call ∈ completed disk dir sched (initialWalk entries)
    /\ reference call ∈ [{| exact := true; text := fullReference (path.dirname f) t |};
                         {| exact := false; text := fullReference (path.dirname f) t |}]
    /\ resolveReference disk dir (reference call) = Ok (f', c')
    /\ f' ∈ keys all.
Proof.
  intros Hrun Hin Hw Ht Hrel. unfold allReferencedFiles in Hrun.
  fold (initialWalk entries) in Hrun.
  destruct (run_calls _ _ _ _ _ _ [] (initial_accounted entries) Hrun)
    as (_ & _ & H3 & H4).
  destruct (H4 _ Hin) as [Hnil|(t0 & c & Ht0 & Hres & Hsrc)].
  { unfold initialWalk in Hnil. rewrite recurAll_all in Hnil. by apply elem_of_nil in Hnil. }
  simpl in Hres, Hsrc. subst src.
  destruct (H3 _ Ht0) as (f1 & c1 & refs & Hres1 & Hrefs & Hall).
  rewrite Hres in Hres1. injection Hres1 as <- <-.
  unfold referencesOf in Hrefs.
  destruct (referencedFiles_ok_imports _ _ _ _ Hrefs) as (l & Hl).
  destruct (referencedFiles_import _ _ _ _ l t Hrefs Hl) as (r & Hr & Hrin);
    [eapply imports_written; [exact Hw | exact Ht | exact Hl] | done |].
  apply addReference_Ok in Hr as (_ & _ & ->). simpl in *.
  destruct (Hall _ Hrin) as [Hnil|Hcall]; [by apply elem_of_nil in Hnil|].
  simpl in Hcall. apply list_elem_of_fmap in Hcall as (call & Htext & Hcall).
  destruct (H3 _ Hcall) as (f' & c' & _ & Hres' & _).
  exists call, f', c'. split; [done|]. split; [|split; [done|]].
  - unfold taskText in Htext. rewrite Htext.
    destruct (reference call) as [[] x]; simpl; [by left | by right; left].
  - apply (run_keys_completed _ _ _ _ _ _ Hrun). right. by exists call, c'.
Qed.

Lemma entry_recorded disk sched dir entries lines all e :
  allReferencedFiles disk sched dir entries = Some (lines, Ok all) ->
  e ∈ entries -> e ∈ keys all.
Proof.
  intros Hrun He. unfold allReferencedFiles in Hrun. fold (initialWalk entries) in Hrun.
  destruct (run_calls _ _ _ _ _ _ [] (initial_accounted entries) Hrun)
    as (H1 & _ & H3 & _).
  destruct (initial_pending entries e He) as (t & Ht & Hre).
  destruct (H3 _ (H1 _ Ht)) as (f & c & _ & Hres & _).
  apply (run_keys_completed _ _ _ _ _ _ Hrun). right. exists t, c. split; [by apply H1|].
  rewrite Hre in *. by destruct (resolveReference_entry _ _ _ _ _ Hres) as [-> _].
Qed.

Lemma getModuleInfo_import_dependency disk sched packageName dir entries info :
  getModuleInfo disk sched packageName dir entries = Some (Ok info) ->
  exists lines all,
    allReferencedFiles disk sched dir entries = Some (lines, Ok all)
    /\ forall src s t,
         src ∈ values all ->
         WrittenIn s (statements src) -> importTarget s = Some t ->
         JS.startsWith t "." = false ->
         rootName t <> packageName ->
         rootName t ∈ dependencies info.
Proof.
  intros H. unfold getModuleInfo in H.
  destruct (allReferencedFiles _ _ _ _) as [[lines [all|e]]|]; [|done..].
  simpl in H. injection H as H. unfold moduleInfoOf in H.
  apply bind_Ok in H as (c & Hc & [= <-]). simpl.
  exists lines, all. split; [done|]. intros src s t Hsrc Hw Ht Hrel Hne.
  apply (forEach_visitSourceFile_dependencies _ _ _ _ Hc). right. split; [done|].
  exists src. split; [done|]. left. exists t. split; [|done].
  destruct (forEach_elem_ok _ _ _ _ _ Hc Hsrc) as (u & u' & Hu).
  destruct (visitSourceFile_dependencies _ _ _ _ Hu) as (l & Hl & _).
  rewrite (arrayFrom_yielded _ _ Hl). eapply imports_written; [exact Hw | exact Ht | exact Hl].
Qed.

(** C10: [imports] goes into the bodies of the module declarations keyed by
    a string literal.  A string-named module declaration can be replaced by
    the statements of its body without changing what [imports] yields; so the
    target of an import declaration, an export-from or an import-equals with
    [require] written inside such modules, at any depth, is among the imports
    of the file like one written at the top level.  When the target is
    relative, the references of the file include the reference made from it;
    when it is not, its dependency root is among the dependencies collected
    from the file (unless the root is the package's own name).  Through the
    walk: when [allReferencedFiles] returns its map, every entry file is a
    key of the map, and for every file of the map and every relative target
    written in it, at any depth of string-named modules, a call of [recur]
    for the text made from the target has run to its end and the file it
    resolved to is a key of the map; when no text is reached both as a path
    reference and as a relative import, that file is the one the target
    resolves to as a module reference.  Through [getModuleInfo]: when it
    succeeds, the dependency root of every target that is not relative,
    written in a file of the map at any depth of string-named modules, is
    among the dependencies returned (unless it is the package's own name). *)
Theorem imports_reach_into_string_modules :
  (forall pre x body post,
     imports (pre ++ declareModule x body :: post) = imports (pre ++ body ++ post))
  /\ (forall sts s t l,
        WrittenIn s sts -> importTarget s = Some t ->
        arrayFrom (imports sts) = Ok l -> t ∈ l)
  /\ (forall src subDirectory directory refs s t,
        WrittenIn s (statements src) -> importTarget s = Some t ->
        JS.startsWith t "." = true ->
        arrayFrom (referencedFiles src subDirectory directory) = Ok refs ->
        exists r, addReference src subDirectory directory {| exact := false; text := t |} = Ok r
                  /\ r ∈ refs)
  /\ (forall packageName src c c' s t,
        WrittenIn s (statements src) -> importTarget s = Some t ->
        JS.startsWith t "." = false ->
        visitSourceFile packageName src c = Ok c' ->
        rootName t <> packageName ->
        rootName t ∈ cDependencies c')
  /\ (forall disk sched directory entryFilenames lines all,
        allReferencedFiles disk sched directory entryFilenames = Some (lines, Ok all) ->
        (forall e, e ∈ entryFilenames -> e ∈ keys all)
        /\ (forall f src s t,
              (f, src) ∈ all ->
              WrittenIn s (statements src) -> importTarget s = Some t ->
              JS.startsWith t "." = true ->
              (exists call f' c',
                 call ∈ completed disk directory sched (initialWalk entryFilenames)
                 /\ taskText call = fullReference (path.dirname f) t
                 /\ resolveReference disk directory (reference call) = Ok (f', c')
                 /\ f' ∈ keys all)
              /\ (Unambiguous disk directory entryFilenames ->
                  exists f' c',
                    resolveReference disk directory
                      {| exact := false; text := fullReference (path.dirname f) t |}
                    = Ok (f', c')
                    /\ f' ∈ keys all)))
  /\ (forall disk sched packageName directory entryFilenames info,
        getModuleInfo disk sched packageName directory entryFilenames = Some (Ok info) ->
        exists lines all,
          allReferencedFiles disk sched directory entryFilenames = Some (lines, Ok all)
          /\ forall src s t,
               src ∈ values all ->
               WrittenIn s (statements src) -> importTarget s = Some t ->
               JS.startsWith t "." = false ->
               rootName t <> packageName ->
               rootName t ∈ dependencies info).
Proof.
  split; [exact imports_declareModule|]. split; [exact imports_written|].
  split; [|split; [|split]].
  - intros src sub dir refs s t Hw Ht Hrel H.
    destruct (referencedFiles_ok_imports _ _ _ _ H) as (l & Hl).
    eapply referencedFiles_import; [exact H | exact Hl | | exact Hrel].
    eapply imports_written; [exact Hw | exact Ht | exact Hl].
  - intros packageName src c c' s t Hw Ht Hrel H Hne.
    destruct (visitSourceFile_dependencies _ _ _ _ H) as (l & Hl & Hd).
    apply Hd. right. split; [done|]. left. exists t. split; [|done].
    eapply imports_written; [exact Hw | exact Ht | exact Hl].
  - intros disk sched dir entries lines all Hrun.
    split; [intros e; by apply (entry_recorded disk sched dir entries lines)|].
    intros f src s t Hin Hw Ht Hrel.
    destruct (relative_import_followed _ _ _ _ _ _ _ _ _ _ Hrun Hin Hw Ht Hrel)
      as (call & f' & c' & Hcall & Href & Hres & Hkey).
    assert (Htext : taskText call = fullReference (path.dirname f) t).
    { unfold taskText.
      apply elem_of_cons in Href as [->| ->%list_elem_of_singleton]; done. }
    split; [by exists call, f', c'|].
    intros Hu. exists f', c'. split; [|done].
    assert (Hreach : Reachable disk dir entries (reference call)).
    { by apply (completed_reachable disk dir entries sched (initialWalk entries));
        [apply initial_sound|]. }
    assert (Hreach' : Reachable disk dir entries
                        {| exact := false; text := fullReference (path.dirname f) t |}).
    { destruct (run_parsed disk dir entries sched (initialWalk entries) lines all
                  (initial_sound disk dir entries)) with (kv := (f, src))
        as (r0 & c0 & Hr0 & Hres0 & Hsrc0); [|exact Hrun|exact Hin|].
      { intros kv Hkv. unfold initialWalk in Hkv. rewrite recurAll_all in Hkv.
        by apply elem_of_nil in Hkv. }
      simpl in *. subst src.
      destruct (walk_keys _ _ _ _ _ _ Hrun) as (_ & _ & Hrest).
      destruct (Hrest Hu) as [_ Hresolvable].
      destruct (Hresolvable _ Hr0) as (f1 & c1 & refs & Hres1 & Hrefs).
      rewrite Hres0 in Hres1. injection Hres1 as <- <-.
      unfold referencesOf in Hrefs.
      destruct (referencedFiles_ok_imports _ _ _ _ Hrefs) as (l & Hl).
      destruct (referencedFiles_import _ _ _ _ l t Hrefs Hl) as (r & Hr & Hrin);
        [eapply imports_written; [exact Hw | exact Ht | exact Hl] | done |].
      apply addReference_Ok in Hr as (_ & _ & ->). simpl in *.
      by apply (reach_reference _ _ _ r0 f c0 refs). }
    assert (Hsame : reference call
                    = {| exact := false; text := fullReference (path.dirname f) t |}).
    { pose proof (Hu _ _ Hreach Hreach' Htext) as Hex. simpl in Hex.
      unfold taskText in Htext. destruct (reference call) as [ex x]. simpl in *.
      by subst. }
    by rewrite <- Hsame.
  - intros disk sched packageName dir entries info.
    apply getModuleInfo_import_dependency.
Qed.

Lemma imports_reach_into_string_modules_witness :
  (exists r, addReference nestedImportsFile "." "pkg" {| exact := false; text := "./deep" |} = Ok r
             /\ r ∈ [{| exact := false; text := "deep" |}])
  /\ (exists c', visitSourceFile "pkg" nestedImportsFile emptyCollected = Ok c'
                 /\ "lodash" ∈ cDependencies c')
  /\ allReferencedFiles nestedImportsDisk [0; 0] "pkg" ["index.d.ts"]
     = Some ([], Ok nestedImportsFiles)
  /\ (exists call f' c',
        call ∈ completed nestedImportsDisk "pkg" [0; 0] (initialWalk ["index.d.ts"])
        /\ taskText call = fullReference (path.dirname "index.d.ts") "./deep"
        /\ resolveReference nestedImportsDisk "pkg" (reference call) = Ok (f', c')
        /\ f' ∈ keys nestedImportsFiles)
  /\ getModuleInfo nestedImportsDisk [0; 0] "pkg" "pkg" ["index.d.ts"]
     = Some (Ok nestedImportsInfo)
  /\ "lodash" ∈ dependencies nestedImportsInfo.
Proof.
  destruct imports_reach_into_string_modules as (_ & _ & Hg & Hd & Hwalk & Hinfo).
  assert (Hin : forall s, s ∈ innerModule -> WrittenIn s (statements nestedImportsFile)).
  { intros s Hs. apply (written_inside s "outer" outerModule); [by left|].
    apply (written_inside s "inner" innerModule); [by right; left|].
    by apply written_here. }
  assert (Hrun : allReferencedFiles nestedImportsDisk [0; 0] "pkg" ["index.d.ts"]
                 = Some ([], Ok nestedImportsFiles)) by (vm_compute; reflexivity).
  assert (Hget : getModuleInfo nestedImportsDisk [0; 0] "pkg" "pkg" ["index.d.ts"]
                 = Some (Ok nestedImportsInfo)) by (vm_compute; reflexivity).
  split; [|split; [|split; [exact Hrun|split; [|split; [exact Hget|]]]]].
  - apply (Hg nestedImportsFile "." "pkg" _ requireDeep "./deep");
      [apply Hin; by left | reflexivity | reflexivity | reflexivity].
  - eexists. split; [reflexivity|].
    apply (Hd "pkg" nestedImportsFile emptyCollected _ (importFrom "lodash/fp") "lodash/fp");
      [apply Hin; by right; left | reflexivity | reflexivity | reflexivity |].
    intros H. vm_compute in H. discriminate.
  - destruct (Hwalk _ _ _ _ _ _ Hrun) as [_ Hfollow].
    apply (Hfollow "index.d.ts" nestedImportsFile requireDeep "./deep");
      [by left | apply Hin; by left | reflexivity | reflexivity].
  - destruct (Hinfo _ _ _ _ _ _ Hget) as (lines & all & Hall & Hdep).
    rewrite Hrun in Hall. injection Hall as _ <-.
    apply (Hdep nestedImportsFile (importFrom "lodash/fp") "lodash/fp");
      [by left | apply Hin; by right; left | reflexivity | reflexivity |].
    intros H. vm_compute in H. discriminate.
Defined.
